(** * The OpenResponses fixture generator, embedded in Rocq

    A shallow embedding of [scripts/generate-openresponses-fixtures.py]:
    the schema sampler [sample_from_schema], the backstop
    [ensure_type_field], the event assembler [generate_events] and the
    fixture writer [main].

    Python dictionaries are mutable objects with identity, and the script
    hands the same dictionary to several owners (the sample cache, the
    [allOf] accumulator, the event index, the emitted list).  The embedding
    therefore keeps every dictionary in an object store and lets values
    refer to them by address; a [dict.update] or an item assignment is an
    update of the store, visible through every alias. *)

From Stdlib Require Import ZArith Ascii String List Lia.
From Stdlib Require Import SpecFloat DecimalString.
From stdpp Require Import base option list gmap strings pretty sorting.

Set Warnings "-register-all".

Local Open Scope string_scope.
Local Open Scope list_scope.
Local Open Scope Z_scope.

(** ** Values *)

(** Addresses of dictionary objects. *)
Definition loc := nat.

(** A Python value as [json.load] produces them.  Lists are never
    mutated by the script, so a list is carried by value; a dictionary is
    an address into the store. *)
Inductive value : Type :=
| VNone
| VBool (b : bool)
| VInt (z : Z)
| VFloat (f : spec_float)
| VStr (s : string)
| VList (l : list value)
| VDict (l : loc).

(** A dictionary object: its items in insertion order, keys unique.
    Every key the script can create is a string (see [Unmodelled]). *)
Definition dict := list (string * value).

Fixpoint dict_get (d : dict) (k : string) : option value :=
  match d with
  | [] => None
  | (k', v) :: d' => if String.eqb k' k then Some v else dict_get d' k
  end.

Definition dict_has (d : dict) (k : string) : bool :=
  match dict_get d k with Some _ => true | None => false end.

(** [d[k] = v]: an existing key keeps its position, a new one goes last. *)
Fixpoint dict_set (d : dict) (k : string) (v : value) : dict :=
  match d with
  | [] => [(k, v)]
  | (k', v') :: d' =>
      if String.eqb k' k then (k', v) :: d' else (k', v') :: dict_set d' k v
  end.

(** [d.update(d2)]: the items of [d2] assigned one after the other. *)
Definition dict_update (d d2 : dict) : dict :=
  fold_left (fun acc kv => dict_set acc (fst kv) (snd kv)) d2 d.

Definition dict_keys (d : dict) : list string := map fst d.

(** A parsed JSON document, before it becomes Python objects. *)
Inductive json : Type :=
| JNull
| JBool (b : bool)
| JInt (z : Z)
| JFloat (f : spec_float)
| JStr (s : string)
| JArr (l : list json)
| JObj (kvs : list (string * json)).

(** ** Paths and files *)

(** An absolute path: its components below the root. *)
Definition path := list string.

Inductive file : Type :=
| Malformed
| Document (j : json).

(** ** Exceptions and the state monad *)

(** The exceptions the script can end with.  [OSError] stands for a file
    that cannot be opened.  [Unmodelled] is not a Python exception: it
    marks a run that leaves the embedding (a member name that is not a
    string, the formatting of a type that is not a string). *)
Inductive exn : Type :=
| IndexError
| KeyError
| TypeError
| AttributeError
| ValueError
| OverflowError
| OSError
| JSONDecodeError
| SystemExit (msg : string)
| Unmodelled.

(** The process state: the object store and the two module-level caches. *)
Record state : Type := State {
  heap : list dict;
  SCHEMA_CACHE : gmap path value;
  SAMPLE_CACHE : gmap path value
}.

Definition empty_state : state := State [] ∅ ∅.

Inductive outcome (A : Type) : Type :=
| Ret (a : A) (s : state)
| Raise (e : exn)
| OutOfFuel.
Arguments Ret {A} a s.
Arguments Raise {A} e.
Arguments OutOfFuel {A}.

Definition M (A : Type) : Type := state -> outcome A.

Definition ret {A} (a : A) : M A := fun s => Ret a s.
Definition raise {A} (e : exn) : M A := fun _ => Raise e.
Definition bind {A B} (m : M A) (k : A -> M B) : M B :=
  fun s => match m s with
           | Ret a s' => k a s'
           | Raise e => Raise e
           | OutOfFuel => OutOfFuel
           end.

(** The state and the value a computation ended with. *)
Definition outcome_state {A} (r : outcome A) : state :=
  match r with Ret _ s => s | _ => empty_state end.

Definition outcome_value {A} (dflt : A) (r : outcome A) : A :=
  match r with Ret a _ => a | _ => dflt end.

Notation "x <- m ;; k" := (bind m (fun x => k))
  (at level 100, m at next level, right associativity,
   format "x  <-  m  ;;  '/' k").
Notation "m >> k" := (bind m (fun _ => k))
  (at level 100, right associativity).

(** *** The store *)

(** The dictionary at an address ([[]] for an address never allocated,
    which no run produces). *)
Definition heap_get (h : list dict) (l : loc) : dict :=
  default [] (h !! l).

Definition read (l : loc) : M dict := fun s => Ret (heap_get (heap s) l) s.

Definition write (l : loc) (d : dict) : M unit :=
  fun s => Ret tt (State (<[l := d]> (heap s)) (SCHEMA_CACHE s) (SAMPLE_CACHE s)).

(** A dictionary display or [json.load] creates a new object. *)
Definition alloc (d : dict) : M loc :=
  fun s => Ret (length (heap s))
               (State (heap s ++ [d]) (SCHEMA_CACHE s) (SAMPLE_CACHE s)).

Definition new_dict : M value := l <- alloc [] ;; ret (VDict l).

(** [obj[k] = v] on a dictionary object. *)
Definition setitem (l : loc) (k : string) (v : value) : M unit :=
  d <- read l ;; write l (dict_set d k v).

(** ** Python primitives used by the script *)

Definition is_dict (v : value) : bool :=
  match v with VDict _ => true | _ => false end.

(** [v == s] for a string literal [s]. *)
Definition eq_str (v : value) (s : string) : bool :=
  match v with VStr t => String.eqb t s | _ => false end.

(** [d.get(k) == s]. *)
Definition get_eq_str (d : dict) (k s : string) : bool :=
  match dict_get d k with Some v => eq_str v s | None => false end.

Definition chars (s : string) : list value :=
  map (fun c => VStr (String c EmptyString)) (list_ascii_of_string s).

(** [for x in v]: the elements of a list, the characters of a string, the
    keys of a dictionary (those it has when the loop starts; the script
    never changes a dictionary it iterates over); anything else is not
    iterable. *)
Definition py_iter (v : value) : M (list value) :=
  match v with
  | VList l => ret l
  | VStr s => ret (chars s)
  | VDict l => d <- read l ;; ret (map VStr (dict_keys d))
  | _ => raise TypeError
  end.

(** [v[0]]. *)
Definition py_index0 (v : value) : M value :=
  match v with
  | VList (x :: _) => ret x
  | VList [] => raise IndexError
  | VStr (String c _) => ret (VStr (String c EmptyString))
  | VStr EmptyString => raise IndexError
  | VDict _ => raise KeyError
  | _ => raise TypeError
  end.

Definition SFzero : spec_float := S754_zero false.

(** [v > 0]. *)
Definition py_gt0 (v : value) : M bool :=
  match v with
  | VBool b => ret b
  | VInt z => ret (0 <? z)
  | VFloat f => ret (SFltb SFzero f)
  | _ => raise TypeError
  end.

(** [range(v)] as a number of iterations. *)
Definition py_range (v : value) : M nat :=
  match v with
  | VBool b => ret (if b then 1%nat else 0%nat)
  | VInt z => ret (Z.to_nat z)
  | _ => raise TypeError
  end.

(** Truncation of a binary float [(-1)^s * m * 2^e] toward zero. *)
Definition float_trunc (s : bool) (m : positive) (e : Z) : Z :=
  let a := if 0 <=? e then Z.pos m * 2 ^ e else Z.pos m / 2 ^ (- e) in
  if s then - a else a.

Definition is_space (c : ascii) : bool :=
  let n := nat_of_ascii c in
  ((9 <=? n) && (n <=? 13) || (28 <=? n) && (n <=? 32)
   || (n =? 133) || (n =? 160))%nat.

Definition digit_of (c : ascii) : option Z :=
  let n := nat_of_ascii c in
  if ((48 <=? n) && (n <=? 57))%nat then Some (Z.of_nat n - 48) else None.

Fixpoint lstrip (l : list ascii) : list ascii :=
  match l with
  | c :: l' => if is_space c then lstrip l' else l
  | [] => []
  end.

Definition strip (l : list ascii) : list ascii :=
  rev (lstrip (rev (lstrip l))).

(** The digits of an integer literal: single underscores may separate
    digits.  [prev] tells whether the previous character was a digit. *)
Fixpoint digits (l : list ascii) (prev : bool) (acc : Z) : option Z :=
  match l with
  | [] => if prev then Some acc else None
  | c :: l' =>
      match digit_of c with
      | Some n => digits l' true (10 * acc + n)
      | None =>
          if (Ascii.eqb c "_" && prev)%bool then digits l' false acc else None
      end
  end.

(** [int(s)] for a string, base 10. *)
Definition int_of_str (s : string) : option Z :=
  match strip (list_ascii_of_string s) with
  | c :: l =>
      if Ascii.eqb c "-" then option_map Z.opp (digits l false 0)
      else if Ascii.eqb c "+" then digits l false 0
      else digits (c :: l) false 0
  | [] => None
  end.

(** The decimal digits among the characters of a string. *)
Fixpoint digit_count (s : string) : nat :=
  match s with
  | EmptyString => O
  | String c s' =>
      match digit_of c with
      | Some _ => S (digit_count s')
      | None => digit_count s'
      end
  end.

(** The interpreter's default limit on the digits of a string that
    [int] converts (Python 3.11 and later). *)
Definition max_str_digits : nat := 4300.

(** [int(v)]. *)
Definition py_int (v : value) : M Z :=
  match v with
  | VBool b => ret (if b then 1 else 0)
  | VInt z => ret z
  | VFloat (S754_zero _) => ret 0
  | VFloat (S754_finite s m e) => ret (float_trunc s m e)
  | VFloat (S754_infinity _) => raise OverflowError
  | VFloat S754_nan => raise ValueError
  | VStr s =>
      match int_of_str s with
      | Some z =>
          if (max_str_digits <? digit_count s)%nat then raise ValueError
          else ret z
      | None => raise ValueError
      end
  | _ => raise TypeError
  end.

Fixpoint repeat_x (n : nat) : string :=
  match n with O => "" | S n' => String "x" (repeat_x n') end.

(** A count that fits the machine index of the 64-bit interpreter. *)
Definition index_sized (z : Z) : bool := (- 2 ^ 63 <=? z) && (z <? 2 ^ 63).

(** ["x" * z]: the count is converted to a machine index first, which
    raises when it does not fit; a count below one gives the empty string.
    The embedding has no bound on memory, here as for every other object
    it creates. *)
Definition py_repeat_x (z : Z) : M value :=
  if index_sized z then ret (VStr (repeat_x (Z.to_nat z)))
  else raise OverflowError.

(** Truth value of an object. *)
Definition truthy (v : value) : M bool :=
  match v with
  | VNone => ret false
  | VBool b => ret b
  | VInt z => ret (negb (z =? 0))
  | VFloat (S754_zero _) => ret false
  | VFloat _ => ret true
  | VStr s => ret (negb (String.eqb s ""))
  | VList l => ret (match l with [] => false | _ => true end)
  | VDict l => d <- read l ;; ret (match d with [] => false | _ => true end)
  end.

(** [d.get(k, {})]: the default dictionary is built before the call. *)
Definition get_or_new (d : dict) (k : string) : M value :=
  dflt <- new_dict ;;
  ret (default dflt (dict_get d k)).

(** [v.get]: only dictionaries have the method. *)
Definition as_dict (v : value) : M dict :=
  match v with
  | VDict l => read l
  | _ => raise AttributeError
  end.

(** ** Loading schema documents *)

(** [json.load]: every JSON object becomes a new dictionary object; a
    repeated key keeps its first position and its last value. *)
Fixpoint load_json (j : json) : M value :=
  match j with
  | JNull => ret VNone
  | JBool b => ret (VBool b)
  | JInt z => ret (VInt z)
  | JFloat f => ret (VFloat f)
  | JStr s => ret (VStr s)
  | JArr js =>
      vs <- (fix elems (js : list json) : M (list value) :=
               match js with
               | [] => ret []
               | j' :: js' =>
                   v <- load_json j' ;; vs <- elems js' ;; ret (v :: vs)
               end) js ;;
      ret (VList vs)
  | JObj kvs =>
      d <- (fix members (kvs : list (string * json)) (acc : dict) : M dict :=
              match kvs with
              | [] => ret acc
              | (k, j') :: kvs' =>
                  v <- load_json j' ;; members kvs' (dict_set acc k v)
              end) kvs [] ;;
      l <- alloc d ;;
      ret (VDict l)
  end.

Definition gets {A} (f : state -> A) : M A := fun s => Ret (f s) s.

Definition set_schema_cache (p : path) (v : value) : M unit :=
  fun s => Ret tt (State (heap s) (<[p := v]> (SCHEMA_CACHE s)) (SAMPLE_CACHE s)).

Definition set_sample_cache (p : path) (v : value) : M unit :=
  fun s => Ret tt (State (heap s) (SCHEMA_CACHE s) (<[p := v]> (SAMPLE_CACHE s))).

Fixpoint split_on (sep : ascii) (s : string) : list string :=
  match s with
  | EmptyString => [""]
  | String c s' =>
      if Ascii.eqb c sep then "" :: split_on sep s'
      else match split_on sep s' with
           | w :: ws => String c w :: ws
           | [] => [String c ""]
           end
  end.

(** One component of a relative reference applied to a resolved path. *)
Definition push_component (p : path) (c : string) : path :=
  if String.eqb c "" || String.eqb c "." then p
  else if String.eqb c ".." then removelast p
  else p ++ [c].

(** [(base_dir / ref).resolve()], on a file system without symbolic
    links: an absolute [ref] replaces [base_dir]. *)
Definition resolve_ref (ref : string) (base_dir : path) : path :=
  let start := match ref with
               | String "/" _ => []
               | _ => base_dir
               end in
  fold_left push_component (split_on "/" ref) start.

(** [path.parent]. *)
Definition parent (p : path) : path := removelast p.

Section Sampler.

(** The schema corpus on disk. *)
Variable fs : gmap path file.

Definition load_schema (p : path) : M value :=
  cache <- gets SCHEMA_CACHE ;;
  match cache !! p with
  | Some data => ret data
  | None =>
      match fs !! p with
      | None => raise OSError
      | Some Malformed => raise JSONDecodeError
      | Some (Document j) =>
          data <- load_json j ;;
          set_schema_cache p data >>
          ret data
      end
  end.

(** ** The sampler *)

(** [isinstance(opt, dict) and opt.get("type") == "null"]. *)
Definition null_typed (h : list dict) (opt : value) : bool :=
  match opt with
  | VDict l => get_eq_str (heap_get h l) "type" "null"
  | _ => false
  end.

Section Body.

(** The recursive calls of [sample_from_schema]. *)
Variable rec : value -> path -> Z -> M value.
Variable base_dir : path.
Variable depth : Z.

Definition sample_ref (d : dict) : M value :=
  match dict_get d "$ref" with
  | Some (VStr ref) =>
      let ref_path := resolve_ref ref base_dir in
      cache <- gets SAMPLE_CACHE ;;
      match cache !! ref_path with
      | Some v => ret v
      | None =>
          ref_schema <- load_schema ref_path ;;
          value <- rec ref_schema (parent ref_path) (depth + 1) ;;
          set_sample_cache ref_path value >>
          ret value
      end
  | _ => raise TypeError
  end.

(** The [oneOf] loop: the first option that is not null-typed. *)
Fixpoint oneOf_loop (options : list value) : M value :=
  match options with
  | [] => ret VNone
  | opt :: rest =>
      h <- gets heap ;;
      if null_typed h opt then oneOf_loop rest
      else rec opt base_dir (depth + 1)
  end.

Definition sample_oneOf (options : value) : M value :=
  opts <- py_iter options ;;
  oneOf_loop opts.

Definition sample_anyOf (options : value) : M value :=
  opts <- py_iter options ;;
  h <- gets heap ;;
  if existsb (null_typed h) opts then ret VNone
  else
    first <- py_index0 options ;;
    rec first base_dir (depth + 1).

(** One turn of the [allOf] loop after the branch was sampled. *)
Definition allOf_merge (merged val : value) : M value :=
  match merged, val with
  | VNone, _ => ret val
  | VDict lm, VDict lv =>
      dm <- read lm ;;
      dv <- read lv ;;
      write lm (dict_update dm dv) >>
      ret merged
  | _, _ => ret merged
  end.

Fixpoint allOf_loop (options : list value) (merged : value) : M value :=
  match options with
  | [] => ret merged
  | opt :: rest =>
      val <- rec opt base_dir (depth + 1) ;;
      merged' <- allOf_merge merged val ;;
      allOf_loop rest merged'
  end.

Definition sample_allOf (options : value) : M value :=
  opts <- py_iter options ;;
  allOf_loop opts VNone.

(** [props.get(name, {})]: the method is looked up, then the default is
    built, then [name] is hashed. *)
Definition props_get (props name : value) : M value :=
  pd <- as_dict props ;;
  dflt <- new_dict ;;
  match name with
  | VStr k => ret (default dflt (dict_get pd k))
  | VList _ | VDict _ => raise TypeError
  | _ => ret dflt
  end.

(** The loop over [required].  A member name that is not a string would
    give the sample a key outside [dict]. *)
Fixpoint required_loop (props : value) (obj : loc) (names : list value) : M unit :=
  match names with
  | [] => ret tt
  | name :: rest =>
      sub <- props_get props name ;;
      v <- rec sub base_dir (depth + 1) ;;
      match name with
      | VStr k => setitem obj k v
      | _ => raise Unmodelled
      end >>
      required_loop props obj rest
  end.

Definition sample_object (l : loc) (d : dict) : M value :=
  props <- get_or_new d "properties" ;;
  obj <- alloc [] ;;
  names <- py_iter (default (VList []) (dict_get d "required")) ;;
  required_loop props obj names >>
  o <- read obj ;;
  match o with
  | [] =>
      d' <- read l ;;
      extra <- truthy (default VNone (dict_get d' "additionalProperties")) ;;
      if extra then new_dict else ret (VDict obj)
  | _ => ret (VDict obj)
  end.

Fixpoint sample_items (items : value) (n : nat) : M (list value) :=
  match n with
  | O => ret []
  | S n' =>
      v <- rec items base_dir (depth + 1) ;;
      vs <- sample_items items n' ;;
      ret (v :: vs)
  end.

Definition sample_array (d : dict) : M value :=
  items <- get_or_new d "items" ;;
  let min_items := default (VInt 0) (dict_get d "minItems") in
  positive <- py_gt0 min_items ;;
  if positive then
    n <- py_range min_items ;;
    vs <- sample_items items n ;;
    ret (VList vs)
  else ret (VList []).

Definition sample_string (d : dict) : M value :=
  match dict_get d "default", dict_get d "minLength" with
  | Some v, _ => ret v
  | None, Some n => z <- py_int n ;; py_repeat_x z
  | None, None => ret (VStr "")
  end.

Definition sample_integer (d : dict) : M value :=
  match dict_get d "default", dict_get d "minimum" with
  | Some v, _ => ret v
  | None, Some n => z <- py_int n ;; ret (VInt z)
  | None, None => ret (VInt 0)
  end.

Definition sample_number (d : dict) : M value :=
  match dict_get d "default", dict_get d "minimum" with
  | Some v, _ => ret v
  | None, Some n => ret n
  | None, None => ret (VInt 0)
  end.

Definition sample_boolean (d : dict) : M value :=
  match dict_get d "default" with
  | Some v => ret v
  | None => ret (VBool false)
  end.

(** The body of [sample_from_schema], with its recursive calls as [rec]. *)
Definition sample_body (schema : value) : M value :=
  if 40 <? depth then ret VNone
  else
    match schema with
    | VDict l =>
        d <- read l ;;
        if dict_has d "$ref" then sample_ref d
        else match dict_get d "const" with
        | Some c => ret c
        | None =>
        match dict_get d "enum" with
        | Some e => py_index0 e
        | None =>
        match dict_get d "oneOf" with
        | Some options => sample_oneOf options
        | None =>
        match dict_get d "anyOf" with
        | Some options => sample_anyOf options
        | None =>
        match dict_get d "allOf" with
        | Some options => sample_allOf options
        | None =>
          if get_eq_str d "type" "object" || dict_has d "properties"
          then sample_object l d
          else if get_eq_str d "type" "array" then sample_array d
          else if get_eq_str d "type" "string" then sample_string d
          else if get_eq_str d "type" "integer" then sample_integer d
          else if get_eq_str d "type" "number" then sample_number d
          else if get_eq_str d "type" "boolean" then sample_boolean d
          else if get_eq_str d "type" "null" then ret VNone
          else new_dict
        end end end end end
    | _ => ret schema
    end.

End Body.

(** [sample_from_schema(schema, base_dir, depth)].  The recursion is on
    [fuel], the number of nested calls still allowed; [fuel_for] is
    enough for every schema (see the part on termination). *)
Fixpoint sample_from_schema (fuel : nat) (schema : value) (base_dir : path)
    (depth : Z) : M value :=
  match fuel with
  | O => fun _ => OutOfFuel
  | S fuel' =>
      sample_body (sample_from_schema fuel') base_dir depth schema
  end.

Definition fuel_for (depth : Z) : nat := S (Z.to_nat (41 - depth)).

End Sampler.

(** ** The event assembler *)

Section Assembler.

Variable fs : gmap path file.

(** [ensure_type_field(event, schema)]: only an [enum] under the schema's
    [type] property is consulted. *)
Definition ensure_type_field (event : loc) (schema : value) : M unit :=
  e <- read event ;;
  if dict_has e "type" then ret tt
  else
    sd <- as_dict schema ;;
    props <- get_or_new sd "properties" ;;
    pd <- as_dict props ;;
    type_schema <- get_or_new pd "type" ;;
    match type_schema with
    | VDict lt =>
        td <- read lt ;;
        match dict_get td "enum" with
        | Some en => v <- py_index0 en ;; setitem event "type" v
        | None => ret tt
        end
    | _ => ret tt
    end.

(** [event_type in allowed_types], for a string [event_type]. *)
Definition in_allowed (t : string) (allowed_types : list value) : bool :=
  existsb (fun v => eq_str v t) allowed_types.

(** [type_to_event.setdefault(event_type, event)]. *)
Definition setdefault (m : gmap string loc) (k : string) (l : loc) : gmap string loc :=
  match m !! k with
  | Some _ => m
  | None => <[k := l]> m
  end.

(** One turn of the loop over the schema files.  The index holds
    dictionaries only, so it is kept as a map to their addresses. *)
Definition index_schema (allowed_types : list value) (type_to_event : gmap string loc)
    (p : path) : M (gmap string loc) :=
  schema <- load_schema fs p ;;
  sampled <- sample_from_schema fs (fuel_for 0) schema (parent p) 0 ;;
  event <- match sampled with
           | VDict l => ret l
           | _ => alloc []
           end ;;
  ensure_type_field event schema >>
  e <- read event ;;
  match dict_get e "type" with
  | Some (VStr event_type) =>
      if in_allowed event_type allowed_types
      then ret (setdefault type_to_event event_type event)
      else ret type_to_event
  | _ => ret type_to_event
  end.

Fixpoint index_schemas (allowed_types : list value) (paths : list path)
    (type_to_event : gmap string loc) : M (gmap string loc) :=
  match paths with
  | [] => ret type_to_event
  | p :: rest =>
      type_to_event' <- index_schema allowed_types type_to_event p ;;
      index_schemas allowed_types rest type_to_event'
  end.

(** [t not in type_to_event]: the key is hashed first. *)
Definition not_indexed (type_to_event : gmap string loc) (t : value) : M bool :=
  match t with
  | VStr s => ret (match type_to_event !! s with Some _ => false | None => true end)
  | VList _ | VDict _ => raise TypeError
  | _ => ret true
  end.

Fixpoint find_missing (type_to_event : gmap string loc) (allowed_types : list value)
    : M (list value) :=
  match allowed_types with
  | [] => ret []
  | t :: rest =>
      absent <- not_indexed type_to_event t ;;
      missing <- find_missing type_to_event rest ;;
      ret (if absent then t :: missing else missing)
  end.

(** The items of [', '.join(missing)], which must all be strings. *)
Fixpoint str_items (vs : list value) : option (list string) :=
  match vs with
  | [] => Some []
  | VStr s :: rest => option_map (cons s) (str_items rest)
  | _ :: _ => None
  end.

Definition missing_message (names : list string) : string :=
  "missing schemas for types: " ++ String.concat ", " names.

(** [[type_to_event[t] for t in allowed_types]]. *)
Fixpoint lookup_events (type_to_event : gmap string loc) (allowed_types : list value)
    : M (list loc) :=
  match allowed_types with
  | [] => ret []
  | VStr s :: rest =>
      match type_to_event !! s with
      | Some l => ls <- lookup_events type_to_event rest ;; ret (l :: ls)
      | None => raise KeyError
      end
  | _ :: _ => raise KeyError
  end.

(** The stamping loop. *)
Fixpoint stamp (events : list loc) (seq : Z) : M unit :=
  match events with
  | [] => ret tt
  | event :: rest =>
      setitem event "sequence_number" (VInt seq) >>
      stamp rest (seq + 1)
  end.

(** What follows the loop over the schema files. *)
Definition assemble (allowed_types : list value) (type_to_event : gmap string loc)
    : M (list loc) :=
  missing <- find_missing type_to_event allowed_types ;;
  match missing with
  | _ :: _ =>
      match str_items missing with
      | Some names => raise (SystemExit (missing_message names))
      | None => raise TypeError
      end
  | [] =>
      events <- lookup_events type_to_event allowed_types ;;
      stamp events 1 >>
      ret events
  end.

(** [generate_events()], given the parsed allow-list and the sorted list
    of the schema files found. *)
Definition generate_events (allowed_types : list value) (paths : list path)
    : M (list loc) :=
  type_to_event <- index_schemas allowed_types paths ∅ ;;
  assemble allowed_types type_to_event.

End Assembler.

(** The exit status of a run that ends in an exception. *)
Definition exit_status (e : exn) : Z := 1.

(** ** The fixture writer *)

Definition newline : ascii := "010"%char.
Definition quote_mark : ascii := "034"%char.
Definition nl : string := String newline EmptyString.

Definition hex_digit (n : nat) : ascii :=
  nth n (list_ascii_of_string "0123456789abcdef") "0"%char.

(** The JSON escape of one character with [ensure_ascii]; characters are
    code points below 256. *)
Definition escape_char (c : ascii) : string :=
  let n := nat_of_ascii c in
  (if n =? 34 then String "\" (String c EmptyString)
   else if n =? 92 then "\\"
   else if n =? 10 then "\n"
   else if n =? 13 then "\r"
   else if n =? 9 then "\t"
   else if n =? 12 then "\f"
   else if n =? 8 then "\b"
   else if (32 <=? n) && (n <=? 126) then String c EmptyString
   else String.append "\u00"
          (String (hex_digit (n / 16)) (String (hex_digit (n mod 16)) EmptyString)))%nat.

Fixpoint escape (s : string) : string :=
  match s with
  | EmptyString => EmptyString
  | String c s' => (escape_char c ++ escape s')%string
  end.

Definition quoted (s : string) : string :=
  String quote_mark (escape s ++ String quote_mark EmptyString)%string.

(** [str(z)] for an integer. *)
Definition str_int (z : Z) : string := NilZero.string_of_int (Z.to_int z).

Fixpoint insert_item (kv : string * value) (l : dict) : dict :=
  match l with
  | [] => [kv]
  | kv' :: l' =>
      if String.leb (fst kv) (fst kv') then kv :: l else kv' :: insert_item kv l'
  end.

(** [sorted(d.items())], the keys being distinct strings. *)
Definition sort_items (d : dict) : dict := fold_right insert_item [] d.

Fixpoint mapM {A B} (f : A -> M B) (l : list A) : M (list B) :=
  match l with
  | [] => ret []
  | x :: l' => y <- f x ;; ys <- mapM f l' ;; ret (y :: ys)
  end.

Section Writer.

(** [float.__repr__], which the encoder uses for floats. *)
Variable float_repr : spec_float -> string.

(** What an f-string writes for a value that is not a string, in a store:
    [str(v)], that is [repr] for numbers, lists and dictionaries, the
    members of a dictionary in the order of their insertion.  It is
    applied to a part of an event that the encoder has just encoded. *)
Variable py_format : list dict -> value -> string.

(** [json.dumps(v, separators=(",", ":"), sort_keys=True)].  [seen] holds
    the dictionaries being encoded, for the circular-reference check;
    [fuel] bounds the nesting of the encoder. *)
Fixpoint dumps (fuel : nat) (seen : list loc) (v : value) : M string :=
  match fuel with
  | O => fun _ => OutOfFuel
  | S fuel' =>
      match v with
      | VNone => ret "null"
      | VBool true => ret "true"
      | VBool false => ret "false"
      | VInt z => ret (str_int z)
      | VFloat f => ret (float_repr f)
      | VStr s => ret (quoted s)
      | VList l =>
          parts <- mapM (dumps fuel' seen) l ;;
          ret ("[" ++ String.concat "," parts ++ "]")%string
      | VDict l =>
          if existsb (Nat.eqb l) seen then raise ValueError
          else
            d <- read l ;;
            parts <- mapM (fun kv =>
                             s <- dumps fuel' (l :: seen) (snd kv) ;;
                             ret (quoted (fst kv) ++ ":" ++ s)%string)
                          (sort_items d) ;;
            ret ("{" ++ String.concat "," parts ++ "}")%string
      end
  end.

Variable encoder_fuel : nat.

(** The [event:] line of one record: written when the type is truthy. *)
Definition event_line (e : dict) : M string :=
  match dict_get e "type" with
  | None => ret EmptyString
  | Some (VStr t) =>
      if String.eqb t EmptyString then ret EmptyString
      else ret ("event: " ++ t ++ nl)%string
  | Some v =>
      shown <- truthy v ;;
      if shown then
        h <- gets heap ;;
        ret ("event: " ++ py_format h v ++ nl)%string
      else ret EmptyString
  end.

(** One turn of the writing loop; [jf] and [sf] are what the two files
    hold so far. *)
Definition write_event (out : string * string) (event : loc) : M (string * string) :=
  line <- dumps encoder_fuel [] (VDict event) ;;
  e <- read event ;;
  header <- event_line e ;;
  ret (fst out ++ line ++ nl,
       snd out ++ header ++ "data: " ++ line ++ nl ++ nl)%string.

Fixpoint write_events (events : list loc) (out : string * string)
    : M (string * string) :=
  match events with
  | [] => ret out
  | event :: rest =>
      out' <- write_event out event ;;
      write_events rest out'
  end.

(** The two files written for a list of events. *)
Definition write_fixtures (events : list loc) : M (string * string) :=
  out <- write_events events (EmptyString, EmptyString) ;;
  ret (fst out, (snd out ++ "data: [DONE]" ++ nl ++ nl)%string).

(** [main()]: the contents of [stream_all.jsonl] and [stream_all.sse]. *)
Definition main (fs : gmap path file) (allowed_types : list value)
    (paths : list path) : M (string * string) :=
  events <- generate_events fs allowed_types paths ;;
  write_fixtures events.

End Writer.

(** * Notions used in the statements *)

Definition recognised_types : list string :=
  ["object"; "array"; "string"; "integer"; "number"; "boolean"; "null"].

(** The declared type of a node is none of the seven the sampler knows. *)
Definition unrecognised_type (d : dict) : Prop :=
  forall t, In t recognised_types -> get_eq_str d "type" t = false.

(** The first result that is not null, null when there is none. *)
Fixpoint first_non_null (vals : list value) : value :=
  match vals with
  | [] => VNone
  | VNone :: rest => first_non_null rest
  | v :: _ => v
  end.

(** The rule of the specification for a mix of results: the last result
    that is not a mapping. *)
Definition spec_last_non_mapping (vals : list value) : option value :=
  last (List.filter (fun v => negb (is_dict v)) vals).

Section AllOfRun.

Variable rec : value -> path -> Z -> M value.
Variable base_dir : path.
Variable depth : Z.

(** A run of the [allOf] loop: the branches left, the accumulator and the
    state before; the branch results in order, the result and the state
    after.  Each branch is sampled one level down in the state the
    previous turn left, then merged. *)
Inductive allOf_run :
  list value -> value -> state -> list value -> value -> state -> Prop :=
| allOf_run_done merged s :
    allOf_run [] merged s [] merged s
| allOf_run_turn opt rest merged s val s1 merged' s2 vals v s' :
    rec opt base_dir (depth + 1) s = Ret val s1 ->
    allOf_merge merged val s1 = Ret merged' s2 ->
    allOf_run rest merged' s2 vals v s' ->
    allOf_run (opt :: rest) merged s (val :: vals) v s'.

End AllOfRun.

(** A computation that does not run out of fuel, whatever the state. *)
Definition terminates {A} (m : M A) : Prop := forall s, m s <> OutOfFuel.

(** Two computations that do the same in every state. *)
Definition agree {A} (m1 m2 : M A) : Prop := forall s, m1 s = m2 s.

(** The allow-listed type strings the index has no event for, in
    allow-list order. *)
Definition missing_types (type_to_event : gmap string loc) (allowed : list string)
    : list string :=
  List.filter (fun t => match type_to_event !! t with
                        | Some _ => false
                        | None => true
                        end) allowed.

(** The [sequence_number] members of a list of events. *)
Definition sequence_numbers (s : state) (events : list loc) : list (option value) :=
  map (fun e => dict_get (heap_get (heap s) e) "sequence_number") events.

Definition carriage_return : ascii := "013"%char.

(** A character that ends a line for a reader of the files. *)
Definition line_break (c : ascii) : bool :=
  Ascii.eqb c newline || Ascii.eqb c carriage_return.

Fixpoint no_line_break (s : string) : bool :=
  match s with
  | EmptyString => true
  | String c s' => negb (line_break c) && no_line_break s'
  end.

(** A text as a reader in text mode sees it: a carriage return followed
    by a line feed, and a carriage return alone, end a line as a line
    feed does. *)
Fixpoint universal_newlines (s : string) : string :=
  match s with
  | EmptyString => EmptyString
  | String c s' =>
      if Ascii.eqb c carriage_return then
        String newline
          match s' with
          | String c' s'' =>
              if Ascii.eqb c' newline then universal_newlines s''
              else universal_newlines s'
          | EmptyString => EmptyString
          end
      else String c (universal_newlines s')
  end.

(** The lines of a text: the pieces between line ends; what follows the
    last line end is a line only when it is not empty. *)
Definition text_lines (s : string) : list string :=
  let pieces := split_on newline (universal_newlines s) in
  match last pieces with
  | Some EmptyString => removelast pieces
  | _ => pieces
  end.

Fixpoint strip_prefix (p s : string) : option string :=
  match p, s with
  | EmptyString, _ => Some s
  | String a p', String b s' => if Ascii.eqb a b then strip_prefix p' s' else None
  | String _ _, EmptyString => None
  end.

(** The payloads of the [data:] lines of a text-streaming file. *)
Definition data_payloads (sse : string) : list string :=
  omap (strip_prefix "data: ") (text_lines sse).

(** The truth value of an object of a store. *)
Definition truth (h : list dict) (v : value) : bool :=
  match v with
  | VNone => false
  | VBool b => b
  | VInt z => negb (z =? 0)
  | VFloat (S754_zero _) => false
  | VFloat _ => true
  | VStr t => negb (String.eqb t EmptyString)
  | VList l => match l with [] => false | _ => true end
  | VDict l => match heap_get h l with [] => false | _ => true end
  end.

(** The type written on the [event:] line of an event, if the line is
    written: the [type] member when it is a string that is not empty, the
    text [py_format] gives for it when it is another true value. *)
Definition type_text (py_format : list dict -> value -> string)
    (h : list dict) (e : dict) : option string :=
  match dict_get e "type" with
  | None => None
  | Some (VStr t) => if String.eqb t EmptyString then None else Some t
  | Some v => if truth h v then Some (py_format h v) else None
  end.

(** The [type] member of the event is absent, a string, or false: the
    [event:] line, if written, holds the member itself. *)
Definition string_typed (h : list dict) (e : dict) : bool :=
  match dict_get e "type" with
  | None => true
  | Some (VStr _) => true
  | Some v => negb (truth h v)
  end.

(** The record of one event in the text-streaming file. *)
Definition sse_record (t : option string) (line : string) : string :=
  (match t with
   | Some t => "event: " ++ t ++ nl
   | None => EmptyString
   end ++ "data: " ++ line ++ nl ++ nl)%string.

(** The line-delimited text of a list of encoded events. *)
Fixpoint jsonl_text (lines : list string) : string :=
  match lines with
  | [] => EmptyString
  | line :: rest => ((line ++ nl) ++ jsonl_text rest)%string
  end.

(** The records of a list of typed, encoded events. *)
Fixpoint sse_text (recs : list (option string * string)) : string :=
  match recs with
  | [] => EmptyString
  | r :: rest => (sse_record (fst r) (snd r) ++ sse_text rest)%string
  end.

(** The JSON document a value stands for in a store, read down to
    [fuel] levels of nesting. *)
Fixpoint freeze (fuel : nat) (h : list dict) (v : value) : json :=
  match fuel with
  | O => JNull
  | S fuel' =>
      match v with
      | VNone => JNull
      | VBool b => JBool b
      | VInt z => JInt z
      | VFloat f => JFloat f
      | VStr t => JStr t
      | VList l => JArr (map (freeze fuel' h) l)
      | VDict l =>
          JObj (map (fun kv => (fst kv, freeze fuel' h (snd kv))) (heap_get h l))
      end
  end.

(** The sample of a schema document on its own, as a JSON document. *)
Definition sample_json (fs : gmap path file) (dir : path) (j : json) : option json :=
  match (schema <- load_json j ;;
         sample_from_schema fs (fuel_for 0) schema dir 0) empty_state with
  | Ret v s => Some (freeze 50 (heap s) v)
  | _ => None
  end.

(** The sample of the schema file at [p], as [generate_events] takes it,
    as a JSON document. *)
Definition sample_file (fs : gmap path file) (p : path) : option json :=
  match (schema <- load_schema fs p ;;
         sample_from_schema fs (fuel_for 0) schema (parent p) 0) empty_state with
  | Ret v s => Some (freeze 50 (heap s) v)
  | _ => None
  end.

(** A mapping node that reaches the rules on [type]: none of [$ref],
    [const], [enum], [oneOf], [anyOf] and [allOf] is among its keys. *)
Definition plain_node (d : dict) : Prop :=
  dict_has d "$ref" = false
  /\ dict_get d "const" = None
  /\ dict_get d "enum" = None
  /\ dict_get d "oneOf" = None
  /\ dict_get d "anyOf" = None
  /\ dict_get d "allOf" = None.

(** The second state has the caches of the first and its store with new
    objects at the end. *)
Definition appended (s s' : state) : Prop :=
  SCHEMA_CACHE s' = SCHEMA_CACHE s
  /\ SAMPLE_CACHE s' = SAMPLE_CACHE s
  /\ exists new, heap s' = heap s ++ new.

(** No character of [s] is [sep]. *)
Fixpoint free_of (sep : ascii) (s : string) : bool :=
  match s with
  | EmptyString => true
  | String c s' => negb (Ascii.eqb c sep) && free_of sep s'
  end.

(** A reference that is a plain file name: no slash in it, and neither
    empty nor one of the dot names. *)
Definition file_name (r : string) : bool :=
  free_of "/" r
  && negb (String.eqb r "") && negb (String.eqb r ".") && negb (String.eqb r "..").

(** From [s] to [s'] nothing is forgotten: the store has not shrunk, the
    schema cache binds every path it bound to the same document, and the
    sample cache still binds every path it bound. *)
Definition grown (s s' : state) : Prop :=
  (length (heap s) <= length (heap s'))%nat
  /\ (forall p v, SCHEMA_CACHE s !! p = Some v -> SCHEMA_CACHE s' !! p = Some v)
  /\ (forall p, is_Some (SAMPLE_CACHE s !! p) -> is_Some (SAMPLE_CACHE s' !! p)).

(** Every path that has a cached sample has a cached document. *)
Definition samples_of_loaded (s : state) : Prop :=
  forall p, is_Some (SAMPLE_CACHE s !! p) -> is_Some (SCHEMA_CACHE s !! p).

(** The relation the sampler keeps between the state it starts in and
    the state it returns in. *)
Definition settled (s s' : state) : Prop :=
  grown s s' /\ (samples_of_loaded s -> samples_of_loaded s').

(** Every run of [m] that returns relates its two states by [R]. *)
Definition keeps {A} (R : state -> state -> Prop) (m : M A) : Prop :=
  forall s a s', m s = Ret a s' -> R s s'.

(** The value [v] holds no reference to the object at [a]. *)
Fixpoint avoids (a : loc) (v : value) : Prop :=
  match v with
  | VDict l => l <> a
  | VList vs =>
      (fix all (vs : list value) : Prop :=
         match vs with
         | [] => True
         | x :: rest => avoids a x /\ all rest
         end) vs
  | _ => True
  end.

Definition dict_avoids (a : loc) (d : dict) : Prop :=
  Forall (fun kv => avoids a (snd kv)) d.

(** The object at [a] exists and nothing refers to it: no member of any
    object, no cached document, no cached sample. *)
Definition unreachable (a : loc) (s : state) : Prop :=
  (a < length (heap s))%nat
  /\ Forall (dict_avoids a) (heap s)
  /\ (forall p v, SCHEMA_CACHE s !! p = Some v -> avoids a v)
  /\ (forall p v, SAMPLE_CACHE s !! p = Some v -> avoids a v).

(** Every run of [m] that starts with the object at [a] unreachable and
    returns gives a result that satisfies [ok], leaves the object
    unreachable, and leaves it as it was. *)
Definition spares {A} (a : loc) (ok : A -> Prop) (m : M A) : Prop :=
  forall s x s',
    unreachable a s ->
    m s = Ret x s' ->
    ok x /\ unreachable a s' /\ heap_get (heap s') a = heap_get (heap s) a.

(** No object and no cache entry of [s] refers to an address that is not
    allocated yet. *)
Definition closed (s : state) : Prop :=
  forall a, (length (heap s) <= a)%nat ->
    Forall (dict_avoids a) (heap s)
    /\ (forall p v, SCHEMA_CACHE s !! p = Some v -> avoids a v)
    /\ (forall p v, SAMPLE_CACHE s !! p = Some v -> avoids a v).

(** The two stores hold the same objects at the same addresses, up to the
    order in which the members of each object were inserted. *)
Definition same_members (s s' : state) : Prop :=
  forall l,
    Permutation (heap_get (heap s) l) (heap_get (heap s') l)
    /\ List.NoDup (dict_keys (heap_get (heap s) l)).

Definition printable (c : ascii) : bool :=
  ((32 <=? nat_of_ascii c) && (nat_of_ascii c <=? 126))%nat.

(** Every character of [s] is a printable ASCII character. *)
Fixpoint ascii_only (s : string) : bool :=
  match s with
  | EmptyString => true
  | String c s' => printable c && ascii_only s'
  end.

(** Every character of [s] is a printable ASCII character or a line feed. *)
Fixpoint ascii_lines (s : string) : bool :=
  match s with
  | EmptyString => true
  | String c s' => (printable c || Ascii.eqb c newline) && ascii_lines s'
  end.

(** * Inputs of the examples *)

Definition schemas_dir : path := ["schemas"].

(** [{"type": "object", "required": ["type"],
      "properties": {"type": {"const": t}}}]. *)
Definition typed_event (t : string) : json :=
  JObj [ ("type", JStr "object");
         ("required", JArr [JStr "type"]);
         ("properties", JObj [("type", JObj [("const", JStr t)])]) ].

Definition a_event_path : path := schemas_dir ++ ["AStreamingEvent.json"].
Definition b_event_path : path := schemas_dir ++ ["BStreamingEvent.json"].
Definition base_path : path := schemas_dir ++ ["Base.json"].

(** Two event schemas over one base: the first is the base itself, the
    second extends it with [allOf] and declares its own type. *)
Definition shared_base_fs : gmap path file :=
  list_to_map
    [ (a_event_path, Document (JObj [("$ref", JStr "Base.json")]));
      (b_event_path,
       Document (JObj [("allOf", JArr [JObj [("$ref", JStr "Base.json")];
                                        typed_event "b"])]));
      (base_path, Document (typed_event "a")) ].

(** One event schema, of type "a". *)
Definition single_fs : gmap path file :=
  list_to_map [ (a_event_path, Document (typed_event "a")) ].

(** Two documents that require each other. *)
Definition cycle_fs : gmap path file :=
  list_to_map
    [ (a_event_path,
       Document (JObj [ ("type", JStr "object");
                        ("required", JArr [JStr "next"]);
                        ("properties",
                         JObj [("next", JObj [("$ref", JStr "BStreamingEvent.json")])]) ]));
      (b_event_path,
       Document (JObj [ ("type", JStr "object");
                        ("required", JArr [JStr "back"]);
                        ("properties",
                         JObj [("back", JObj [("$ref", JStr "AStreamingEvent.json")])]) ])) ].

(** A document that requires itself, and three documents in a ring. *)
Definition self_fs : gmap path file :=
  list_to_map
    [ (a_event_path,
       Document (JObj [ ("required", JArr [JStr "self"]);
                        ("properties",
                         JObj [("self", JObj [("$ref", JStr "AStreamingEvent.json")])]) ])) ].

(** A document that requires itself and a member with an empty [enum]. *)
Definition faulty_cycle_fs : gmap path file :=
  list_to_map
    [ (a_event_path,
       Document (JObj [ ("required", JArr [JStr "self"; JStr "bad"]);
                        ("properties",
                         JObj [("self", JObj [("$ref", JStr "AStreamingEvent.json")]);
                               ("bad", JObj [("enum", JArr [])])]) ])) ].

Definition ring_fs : gmap path file :=
  list_to_map
    [ (a_event_path, Document (JObj [("$ref", JStr "BStreamingEvent.json")]));
      (b_event_path, Document (JObj [("$ref", JStr "./Base.json")]));
      (base_path, Document (JObj [("$ref", JStr "../schemas/AStreamingEvent.json")])) ].

(** The state once the first document is loaded, and its root node. *)
Definition cycle_loaded : outcome value :=
  Eval vm_compute in load_schema cycle_fs a_event_path empty_state.

Definition cycle_state : state :=
  match cycle_loaded with Ret _ s => s | _ => empty_state end.

Definition cycle_root : value :=
  match cycle_loaded with Ret v _ => v | _ => VNone end.

(** Two object branches: [{"a": 1, "b": 2}] then [{"b": 3, "c": 4}],
    each member fixed by a [const]. *)
Definition overlay_fs : gmap path file :=
  list_to_map
    [ (a_event_path,
       Document
         (JObj [("allOf",
                 JArr [ JObj [ ("required", JArr [JStr "a"; JStr "b"]);
                               ("properties",
                                JObj [ ("a", JObj [("const", JInt 1)]);
                                       ("b", JObj [("const", JInt 2)]) ]) ];
                        JObj [ ("required", JArr [JStr "b"; JStr "c"]);
                               ("properties",
                                JObj [ ("b", JObj [("const", JInt 3)]);
                                       ("c", JObj [("const", JInt 4)]) ]) ] ])])) ].

(** The type string [x], a line feed, then [data: 1]. *)
Definition two_line_type : string := ("x" ++ nl ++ "data: 1")%string.

Definition two_line_fs : gmap path file :=
  list_to_map [ (a_event_path, Document (typed_event two_line_type)) ].

(** The type string [x], a carriage return, then [data: 1]. *)
Definition return_type : string :=
  ("x" ++ String carriage_return "data: 1")%string.

Definition return_fs : gmap path file :=
  list_to_map [ (a_event_path, Document (typed_event return_type)) ].

(** A rendering of the values that are not strings, for the examples:
    integers in decimal. *)
Definition show_int (h : list dict) (v : value) : string :=
  match v with
  | VInt z => str_int z
  | _ => EmptyString
  end.

(** The store holding [{"anyOf": [{"type": "null"}, {"type": "string"}]}]
    at address 2, and the same with [oneOf]. *)
Definition nullable_store (keyword : string) : state :=
  State [ [("type", VStr "null")]; [("type", VStr "string")];
          [(keyword, VList [VDict 0%nat; VDict 1%nat])] ] ∅ ∅.

(** The store holding the node [{keyword: []}] at address 0. *)
Definition empty_list_store (keyword : string) : state :=
  State [ [(keyword, VList [])] ] ∅ ∅.

(** The store holding an event without members at address 0 and, at
    address 3, the schema [{"properties": {"type": {keyword: value}}}]. *)
Definition backstop_store (keyword : string) (declared : value) : state :=
  State [ []; [(keyword, declared)]; [("type", VDict 1%nat)];
          [("properties", VDict 2%nat)] ] ∅ ∅.

(** The store holding [{"allOf": [{"const": first}, {"const": second}]}]
    at address 2. *)
Definition allOf_store (first second : value) : state :=
  State [ [("const", first)]; [("const", second)];
          [("allOf", VList [VDict 0%nat; VDict 1%nat])] ] ∅ ∅.


(** Three events: one typed "a" holding a nested mapping and a list, one
    with an empty type string and, at address 3, one whose type is the
    integer 7. *)
Definition fixture_store : state :=
  State [ [("type", VStr "a"); ("sequence_number", VInt 1);
           ("item", VDict 2%nat)];
          [("type", VStr EmptyString); ("sequence_number", VInt 2)];
          [("ids", VList [VInt (-3); VNone; VBool true])];
          [("type", VInt 7); ("sequence_number", VInt 3)] ] ∅ ∅.

(** A store with one event of type "b", already in the index. *)
Definition seeded_store : state := State [ [("type", VStr "b")] ] ∅ ∅.

(** An event with a member of its own and, at address 3, a schema whose
    [type] property is an enumeration. *)
Definition member_store : state :=
  State [ [("id", VInt 7)]; [("enum", VList [VStr "x"])];
          [("type", VDict 1%nat)]; [("properties", VDict 2%nat)] ] ∅ ∅.

(** The store holding one node with the given members at address 0. *)
Definition node_store (d : dict) : state := State [d] ∅ ∅.

(** Three events of distinct types, indexed by type. *)
Definition three_events_store : state :=
  State [ [("type", VStr "a")]; [("type", VStr "b"); ("sequence_number", VInt 9)];
          [("type", VStr "c")] ] ∅ ∅.

Definition three_events_index : gmap string loc :=
  {[ "a" := 0%nat; "b" := 1%nat; "c" := 2%nat ]}.

(** An object nothing refers to (address 0), beside a schema (address 7)
    whose two [allOf] branches are objects with one required member. *)
Definition bystander_store : state :=
  State [ [("id", VInt 7)];
          [("const", VStr "a")];
          [("t", VDict 1%nat)];
          [("properties", VDict 2%nat); ("required", VList [VStr "t"])];
          [("const", VStr "b")];
          [("u", VDict 4%nat)];
          [("properties", VDict 5%nat); ("required", VList [VStr "u"])];
          [("allOf", VList [VDict 3%nat; VDict 6%nat])] ] ∅ ∅.

(** An object schema that lists a member twice and declares a property it
    does not require. *)
Definition object_store : state :=
  State [ [("type", VStr "object");
           ("required", VList [VStr "a"; VStr "b"; VStr "a"]);
           ("properties", VDict 1%nat)];
          [("a", VDict 2%nat); ("c", VDict 2%nat)];
          [("const", VStr "x")] ] ∅ ∅.

(** One event whose members were inserted in two different orders. *)
Definition forward_store : state :=
  State [ [("type", VStr "a"); ("sequence_number", VInt 1); ("item", VDict 1%nat)];
          [("id", VStr "x"); ("content", VList [])] ] ∅ ∅.

Definition backward_store : state :=
  State [ [("item", VDict 1%nat); ("sequence_number", VInt 1); ("type", VStr "a")];
          [("content", VList []); ("id", VStr "x")] ] ∅ ∅.

(** An event whose type holds a character outside ASCII (code 233) and a
    line feed in another member. *)
Definition accent_store : state :=
  State [ [("type", VStr (String "233"%char "v"));
           ("text", VStr (String newline "w"))] ] ∅ ∅.

(** * Properties *)

(** ** Dictionaries *)

Lemma dict_get_set_eq (d : dict) k v : dict_get (dict_set d k v) k = Some v.
Proof.
  induction d as [|[k' v'] d IH]; simpl.
  - by rewrite String.eqb_refl.
  - destruct (String.eqb k' k) eqn:E; simpl; rewrite E; done.
Qed.

Lemma dict_get_set_ne (d : dict) k k' v :
  k <> k' -> dict_get (dict_set d k v) k' = dict_get d k'.
Proof.
  intros Hne. induction d as [|[k0 v0] d IH]; simpl.
  - destruct (String.eqb k k') eqn:E; [|done].
    apply String.eqb_eq in E. done.
  - destruct (String.eqb k0 k) eqn:E; simpl.
    + apply String.eqb_eq in E. subst k0.
      destruct (String.eqb k k') eqn:E'; [|done].
      apply String.eqb_eq in E'. done.
    + by rewrite IH.
Qed.

Lemma dict_get_set (d : dict) k k' v :
  dict_get (dict_set d k v) k' =
  if String.eqb k k' then Some v else dict_get d k'.
Proof.
  destruct (String.eqb k k') eqn:E.
  - apply String.eqb_eq in E. subst. apply dict_get_set_eq.
  - apply String.eqb_neq in E. by apply dict_get_set_ne.
Qed.

(** [d.update(d2)] read back: a key of [d2] has the value [d2] gives it
    last, any other key keeps the value it has in [d]. *)
Lemma dict_get_update (d2 d : dict) k :
  dict_get (dict_update d d2) k =
  match dict_get (rev d2) k with
  | Some v => Some v
  | None => dict_get d k
  end.
Proof.
  unfold dict_update. revert d.
  induction d2 as [|[k2 v2] d2 IH]; intros d; simpl; [done|].
  rewrite IH.
  assert (Happ : forall a b : dict, dict_get (a ++ b) k =
            match dict_get a k with Some v => Some v | None => dict_get b k end).
  { intros a b. induction a as [|[ka va] a IHa]; simpl; [done|].
    by destruct (String.eqb ka k). }
  rewrite Happ. simpl.
  destruct (dict_get (rev d2) k); [done|].
  rewrite dict_get_set. by destruct (String.eqb k2 k).
Qed.

Lemma dict_get_not_in (d : dict) k :
  ~ In k (dict_keys d) -> dict_get d k = None.
Proof.
  induction d as [|[k' v'] d IH]; simpl; [done|].
  intros Hn. destruct (String.eqb k' k) eqn:E.
  - apply String.eqb_eq in E. tauto.
  - apply IH. tauto.
Qed.

(** With distinct keys the last value is the only one. *)
Lemma dict_get_rev (d : dict) k :
  List.NoDup (dict_keys d) -> dict_get (rev d) k = dict_get d k.
Proof.
  assert (Happ : forall a b : dict, dict_get (a ++ b) k =
            match dict_get a k with Some v => Some v | None => dict_get b k end).
  { intros a b. induction a as [|[ka va] a IHa]; simpl; [done|].
    by destruct (String.eqb ka k). }
  induction d as [|[k' v'] d IH]; simpl; [done|].
  intros Hnd. inversion Hnd as [|? ? Hnotin Hnd']; subst.
  rewrite Happ, IH by done. simpl.
  destruct (String.eqb k' k) eqn:E.
  - apply String.eqb_eq in E. subst k'.
    by rewrite (dict_get_not_in d k).
  - by destruct (dict_get d k).
Qed.

(** ** The store *)

Lemma heap_get_insert_eq (h : list dict) l d :
  (l < length h)%nat -> heap_get (<[l := d]> h) l = d.
Proof. intros Hl. unfold heap_get. by rewrite list_lookup_insert_eq. Qed.

Lemma heap_get_insert_ne (h : list dict) l l' d :
  l <> l' -> heap_get (<[l := d]> h) l' = heap_get h l'.
Proof. intros Hl. unfold heap_get. by rewrite list_lookup_insert_ne. Qed.

Lemma heap_get_app_l (h : list dict) d l :
  (l < length h)%nat -> heap_get (h ++ [d]) l = heap_get h l.
Proof. intros Hl. unfold heap_get. by rewrite lookup_app_l. Qed.

Lemma heap_get_app_new (h : list dict) d :
  heap_get (h ++ [d]) (length h) = d.
Proof.
  unfold heap_get. rewrite lookup_app_r; [|reflexivity].
  by rewrite Nat.sub_diag.
Qed.

(** ** The sampler, rule by rule *)

Ltac unfold_monad :=
  unfold get_or_new, new_dict, setitem, as_dict, bind, ret, raise, read,
    write, alloc, gets in *.

Section SamplerFacts.

Variable fs : gmap path file.

(** The [oneOf] loop returns what the first option that is not
    null-typed samples to. *)
Lemma oneOf_loop_find rec base depth opts s :
  oneOf_loop rec base depth opts s =
  match find (fun o => negb (null_typed (heap s) o)) opts with
  | Some o => rec o base (depth + 1) s
  | None => Ret VNone s
  end.
Proof.
  induction opts as [|o opts IH]; simpl; [done|].
  unfold_monad. by destruct (null_typed (heap s) o).
Qed.

(** A mapping node below the depth bound, read from the store. *)
Lemma sample_dict_node fuel l base depth s :
  depth <= 40 ->
  sample_from_schema fs (S fuel) (VDict l) base depth s =
  sample_body fs (sample_from_schema fs fuel) base depth (VDict l) s.
Proof. done. Qed.

Lemma depth_guard_off depth : depth <= 40 -> (40 <? depth) = false.
Proof. intros. apply Z.ltb_ge. lia. Qed.

(** C6 (nullable unions).  In a mapping node without [$ref], [const] and
    [enum]: [oneOf] skips the options whose declared type is "null" and
    returns the sample of the first other option, null when there is
    none; [anyOf] (reached when there is no [oneOf]) returns null as soon
    as one option is null-typed, and the sample of its first option
    otherwise. *)
Theorem nullable_union_asymmetry fuel l (d : dict) opts base depth s :
  heap_get (heap s) l = d ->
  depth <= 40 ->
  dict_has d "$ref" = false ->
  dict_get d "const" = None ->
  dict_get d "enum" = None ->
  (dict_get d "oneOf" = Some (VList opts) ->
   sample_from_schema fs (S fuel) (VDict l) base depth s =
   match find (fun o => negb (null_typed (heap s) o)) opts with
   | Some o => sample_from_schema fs fuel o base (depth + 1) s
   | None => Ret VNone s
   end)
  /\
  (dict_get d "oneOf" = None ->
   dict_get d "anyOf" = Some (VList opts) ->
   sample_from_schema fs (S fuel) (VDict l) base depth s =
   if existsb (null_typed (heap s)) opts then Ret VNone s
   else match opts with
        | o :: _ => sample_from_schema fs fuel o base (depth + 1) s
        | [] => Raise IndexError
        end).
Proof.
  intros Hd Hdepth Href Hconst Henum. split.
  - intros Hone. simpl. unfold sample_body.
    rewrite (depth_guard_off _ Hdepth). unfold bind at 1, read at 1.
    rewrite Hd, Href, Hconst, Henum, Hone.
    unfold sample_oneOf, py_iter, bind, ret.
    apply oneOf_loop_find.
  - intros Hone Hany. simpl. unfold sample_body.
    rewrite (depth_guard_off _ Hdepth). unfold bind at 1, read at 1.
    rewrite Hd, Href, Hconst, Henum, Hone, Hany.
    unfold sample_anyOf, py_iter, bind, ret, gets.
    destruct (existsb (null_typed (heap s)) opts); [done|].
    by destruct opts.
Qed.

End SamplerFacts.

Lemma nullable_union_witness :
  sample_from_schema ∅ 42 (VDict 2%nat) [] 0 (nullable_store "anyOf")
    = Ret VNone (nullable_store "anyOf")
  /\ sample_from_schema ∅ 42 (VDict 2%nat) [] 0 (nullable_store "oneOf")
    = Ret (VStr EmptyString) (nullable_store "oneOf").
Proof.
  split.
  - rewrite (proj2 (nullable_union_asymmetry ∅ 41 2%nat _
                      [VDict 0%nat; VDict 1%nat] [] 0 (nullable_store "anyOf")
                      eq_refl ltac:(lia) eq_refl eq_refl eq_refl)
               eq_refl eq_refl).
    reflexivity.
  - rewrite (proj1 (nullable_union_asymmetry ∅ 41 2%nat _
                      [VDict 0%nat; VDict 1%nat] [] 0 (nullable_store "oneOf")
                      eq_refl ltac:(lia) eq_refl eq_refl eq_refl)
               eq_refl).
    reflexivity.
Defined.

(** ** The rules on small schemas *)

Example string_min_length :
  sample_json ∅ [] (JObj [("type", JStr "string"); ("minLength", JInt 5)])
  = Some (JStr "xxxxx").
Proof. vm_compute. reflexivity. Qed.

Example integer_minimum :
  sample_json ∅ [] (JObj [("type", JStr "integer"); ("minimum", JInt 3)])
  = Some (JInt 3).
Proof. vm_compute. reflexivity. Qed.

Example default_before_minimum :
  sample_json ∅ []
    (JObj [("type", JStr "number"); ("minimum", JInt 3); ("default", JInt 8)])
  = Some (JInt 8).
Proof. vm_compute. reflexivity. Qed.

Example required_members_only :
  sample_json ∅ []
    (JObj [ ("type", JStr "object");
            ("required", JArr [JStr "a"; JStr "b"]);
            ("properties",
             JObj [ ("a", JObj [("type", JStr "boolean")]);
                    ("c", JObj [("type", JStr "string")]) ]) ])
  = Some (JObj [("a", JBool false); ("b", JObj [])]).
Proof. vm_compute. reflexivity. Qed.

Example array_min_items :
  sample_json ∅ []
    (JObj [ ("type", JStr "array"); ("minItems", JInt 2);
            ("items", JObj [("enum", JArr [JStr "u"; JStr "v"])]) ])
  = Some (JArr [JStr "u"; JStr "u"]).
Proof. vm_compute. reflexivity. Qed.

Example const_before_type :
  sample_json ∅ [] (JObj [("type", JStr "string"); ("const", JNull)])
  = Some JNull.
Proof. vm_compute. reflexivity. Qed.

Example reference_resolved :
  sample_json single_fs schemas_dir (JObj [("$ref", JStr "./AStreamingEvent.json")])
  = Some (JObj [("type", JStr "a")]).
Proof. vm_compute. reflexivity. Qed.

Example missing_reference :
  (schema <- load_json (JObj [("$ref", JStr "Absent.json")]) ;;
   sample_from_schema single_fs (fuel_for 0) schema schemas_dir 0) empty_state
  = Raise OSError.
Proof. vm_compute. reflexivity. Qed.

(** A member of an unexpected shape: [minItems] given as a string. *)
Example string_min_items_raises :
  (schema <- load_json (JObj [("type", JStr "array"); ("minItems", JStr "3")]) ;;
   sample_from_schema ∅ (fuel_for 0) schema [] 0) empty_state
  = Raise TypeError.
Proof. vm_compute. reflexivity. Qed.

(** A document that requires itself is sampled down to the depth bound. *)
Example self_reference_returns :
  exists j,
    sample_file self_fs a_event_path
    = Some (JObj [("self", JObj [("self", JObj [("self", j)])])]).
Proof. eexists. vm_compute. reflexivity. Qed.

(** A ring of three references bottoms out at the depth bound. *)
Example ring_returns_null : sample_file ring_fs a_event_path = Some JNull.
Proof. vm_compute. reflexivity. Qed.

(** ** Malformed and underspecified nodes *)

Section Degradation.

Variable fs : gmap path file.

(** C3, as the code has it.  A node that is not a mapping is returned as
    it is.  In a mapping node without [$ref] and [const], below the depth
    bound: an empty [oneOf] and an empty [allOf] give null, and a node
    with no keyword and no type the sampler knows gives a new empty
    mapping, all without an exception; an empty [enum] and an empty
    [anyOf] raise [IndexError]. *)
Theorem underspecified_schema_outcomes fuel schema l (d : dict) base depth s :
  depth <= 40 ->
  (is_dict schema = false ->
   sample_from_schema fs (S fuel) schema base depth s = Ret schema s)
  /\
  (heap_get (heap s) l = d ->
   dict_has d "$ref" = false ->
   dict_get d "const" = None ->
   (dict_get d "enum" = Some (VList []) ->
    sample_from_schema fs (S fuel) (VDict l) base depth s = Raise IndexError)
   /\
   (dict_get d "enum" = None ->
    (dict_get d "oneOf" = Some (VList []) ->
     sample_from_schema fs (S fuel) (VDict l) base depth s = Ret VNone s)
    /\
    (dict_get d "oneOf" = None ->
     (dict_get d "anyOf" = Some (VList []) ->
      sample_from_schema fs (S fuel) (VDict l) base depth s = Raise IndexError)
     /\
     (dict_get d "anyOf" = None ->
      (dict_get d "allOf" = Some (VList []) ->
       sample_from_schema fs (S fuel) (VDict l) base depth s = Ret VNone s)
      /\
      (dict_get d "allOf" = None ->
       dict_has d "properties" = false ->
       unrecognised_type d ->
       sample_from_schema fs (S fuel) (VDict l) base depth s =
       Ret (VDict (length (heap s)))
           (State (heap s ++ [[]]) (SCHEMA_CACHE s) (SAMPLE_CACHE s))))))).
Proof.
  intros Hdepth. split.
  { intros Hnd. simpl. unfold sample_body.
    rewrite (depth_guard_off _ Hdepth). by destruct schema. }
  intros Hd Href Hconst.
  assert (Hstep : sample_from_schema fs (S fuel) (VDict l) base depth s =
    (if dict_has d "$ref" then sample_ref fs (sample_from_schema fs fuel) base depth d
     else match dict_get d "const" with
     | Some c => ret c
     | None =>
     match dict_get d "enum" with
     | Some e => py_index0 e
     | None =>
     match dict_get d "oneOf" with
     | Some options => sample_oneOf (sample_from_schema fs fuel) base depth options
     | None =>
     match dict_get d "anyOf" with
     | Some options => sample_anyOf (sample_from_schema fs fuel) base depth options
     | None =>
     match dict_get d "allOf" with
     | Some options => sample_allOf (sample_from_schema fs fuel) base depth options
     | None =>
       if get_eq_str d "type" "object" || dict_has d "properties"
       then sample_object (sample_from_schema fs fuel) base depth l d
       else if get_eq_str d "type" "array"
            then sample_array (sample_from_schema fs fuel) base depth d
       else if get_eq_str d "type" "string" then sample_string d
       else if get_eq_str d "type" "integer" then sample_integer d
       else if get_eq_str d "type" "number" then sample_number d
       else if get_eq_str d "type" "boolean" then sample_boolean d
       else if get_eq_str d "type" "null" then ret VNone
       else new_dict
     end end end end end) s).
  { simpl. unfold sample_body. rewrite (depth_guard_off _ Hdepth).
    unfold bind at 1, read at 1. by rewrite Hd. }
  rewrite Hstep, Href, Hconst. clear Hstep.
  split; [intros ->; done|]. intros ->.
  split; [intros ->; done|]. intros ->.
  split; [intros ->; done|]. intros ->.
  split; [intros ->; done|]. intros -> Hprops Htype.
  rewrite Hprops.
  rewrite !Htype by (unfold recognised_types; simpl; tauto).
  done.
Qed.

End Degradation.

(** C3, refuted as stated: sampling [{"enum": []}] raises [IndexError],
    it returns neither null nor an empty mapping. *)
Lemma empty_enum_raises :
  sample_from_schema ∅ (fuel_for 0) (VDict 0%nat) [] 0 (empty_list_store "enum")
    = Raise IndexError
  /\ ~ (exists v s', sample_from_schema ∅ (fuel_for 0) (VDict 0%nat) [] 0
                       (empty_list_store "enum") = Ret v s').
Proof.
  split; [reflexivity|]. intros (v & s' & H). vm_compute in H. discriminate.
Qed.

Lemma underspecified_schema_witness :
  sample_from_schema ∅ 42 (VList [VInt 1]) [] 0 (empty_list_store "oneOf")
    = Ret (VList [VInt 1]) (empty_list_store "oneOf")
  /\ sample_from_schema ∅ 42 (VDict 0%nat) [] 0 (empty_list_store "enum")
    = Raise IndexError
  /\ sample_from_schema ∅ 42 (VDict 0%nat) [] 0 (empty_list_store "oneOf")
    = Ret VNone (empty_list_store "oneOf")
  /\ sample_from_schema ∅ 42 (VDict 0%nat) [] 0 (empty_list_store "anyOf")
    = Raise IndexError
  /\ sample_from_schema ∅ 42 (VDict 0%nat) [] 0 (empty_list_store "allOf")
    = Ret VNone (empty_list_store "allOf")
  /\ sample_from_schema ∅ 42 (VDict 0%nat) [] 0 (empty_list_store "title")
    = Ret (VDict 1%nat) (State [ [("title", VList [])]; [] ] ∅ ∅).
Proof.
  repeat match goal with |- _ /\ _ => split end.
  - exact (proj1 (underspecified_schema_outcomes ∅ 41 (VList [VInt 1]) 0%nat
             [] [] 0 (empty_list_store "oneOf") ltac:(lia)) eq_refl).
  - exact (proj1 (proj2 (underspecified_schema_outcomes ∅ 41 VNone 0%nat
             _ [] 0 (empty_list_store "enum") ltac:(lia))
             eq_refl eq_refl eq_refl) eq_refl).
  - exact (proj1 (proj2 (proj2 (underspecified_schema_outcomes ∅ 41 VNone 0%nat
             _ [] 0 (empty_list_store "oneOf") ltac:(lia))
             eq_refl eq_refl eq_refl) eq_refl) eq_refl).
  - exact (proj1 (proj2 (proj2 (proj2 (underspecified_schema_outcomes ∅ 41 VNone
             0%nat _ [] 0 (empty_list_store "anyOf") ltac:(lia))
             eq_refl eq_refl eq_refl) eq_refl) eq_refl) eq_refl).
  - exact (proj1 (proj2 (proj2 (proj2 (proj2 (underspecified_schema_outcomes ∅
             41 VNone 0%nat _ [] 0 (empty_list_store "allOf") ltac:(lia))
             eq_refl eq_refl eq_refl) eq_refl) eq_refl) eq_refl) eq_refl).
  - refine (proj2 (proj2 (proj2 (proj2 (proj2 (underspecified_schema_outcomes ∅
             41 VNone 0%nat _ [] 0 (empty_list_store "title") ltac:(lia))
             eq_refl eq_refl eq_refl) eq_refl) eq_refl) eq_refl)
             eq_refl eq_refl _).
    intros t Ht. reflexivity.
Defined.

(** ** The type backstop *)

(** C9, as the code has it.  An event that has a [type] member is left
    as it is.  For an event without one, when the schema's [properties]
    declare [type] by a mapping: an [enum] there gives the event its first
    element as [type]; without an [enum] (a [const] alone, say) the event
    stays without a [type].  Nothing else changes but the two default
    dictionaries built on the way. *)
Theorem ensure_type_field_recovers_enum event schema s :
  (dict_has (heap_get (heap s) event) "type" = true ->
   ensure_type_field event schema s = Ret tt s)
  /\
  (dict_has (heap_get (heap s) event) "type" = false ->
   forall ls lp lt,
   schema = VDict ls ->
   dict_get (heap_get (heap s) ls) "properties" = Some (VDict lp) ->
   dict_get (heap_get (heap s) lp) "type" = Some (VDict lt) ->
   (event < length (heap s))%nat ->
   (lp < length (heap s))%nat ->
   (lt < length (heap s))%nat ->
   (forall v rest,
    dict_get (heap_get (heap s) lt) "enum" = Some (VList (v :: rest)) ->
    ensure_type_field event schema s =
    Ret tt (State (<[event := dict_set (heap_get (heap s) event) "type" v]>
                     (heap s ++ [[]; []]))
                  (SCHEMA_CACHE s) (SAMPLE_CACHE s)))
   /\
   (dict_get (heap_get (heap s) lt) "enum" = None ->
    ensure_type_field event schema s =
    Ret tt (State (heap s ++ [[]; []]) (SCHEMA_CACHE s) (SAMPLE_CACHE s)))).
Proof.
  split.
  - intros Hty. unfold ensure_type_field. unfold_monad. by rewrite Hty.
  - intros Hty ls lp lt -> Hprops Htype Hev Hlp Hlt.
    assert (Hget : forall l, (l < length (heap s))%nat ->
              heap_get ((heap s ++ [[]]) ++ [[]]) l = heap_get (heap s) l).
    { intros l Hl. rewrite !heap_get_app_l; [done|done|].
      rewrite length_app. simpl. lia. }
    split.
    + intros v rest Henum. unfold ensure_type_field. unfold_monad. simpl.
      rewrite Hty, Hprops. simpl.
      rewrite heap_get_app_l, Htype by done. simpl.
      rewrite !Hget, Henum by done. simpl.
      rewrite Hget by done. by rewrite <- app_assoc.
    + intros Henum. unfold ensure_type_field. unfold_monad. simpl.
      rewrite Hty, Hprops. simpl.
      rewrite heap_get_app_l, Htype by done. simpl.
      rewrite !Hget, Henum by done. by rewrite <- app_assoc.
Qed.

(** C9, refuted as stated: with [type] declared by a constant, the event
    is left without a [type] member. *)
Lemma const_type_not_recovered :
  exists s',
    ensure_type_field 0%nat (VDict 3%nat) (backstop_store "const" (VStr "x"))
      = Ret tt s'
    /\ dict_get (heap_get (heap s') 0%nat) "type" = None.
Proof. eexists. split; reflexivity. Qed.

Lemma ensure_type_field_witness :
  ensure_type_field 0%nat (VDict 3%nat)
    (backstop_store "enum" (VList [VStr "x"; VStr "y"]))
  = Ret tt (State [ [("type", VStr "x")];
                    [("enum", VList [VStr "x"; VStr "y"])];
                    [("type", VDict 1%nat)]; [("properties", VDict 2%nat)];
                    []; [] ] ∅ ∅)
  /\ ensure_type_field 0%nat (VDict 3%nat) (backstop_store "const" (VStr "x"))
  = Ret tt (State [ []; [("const", VStr "x")];
                    [("type", VDict 1%nat)]; [("properties", VDict 2%nat)];
                    []; [] ] ∅ ∅)
  /\ ensure_type_field 2%nat (VDict 3%nat) (backstop_store "const" (VStr "x"))
  = Ret tt (backstop_store "const" (VStr "x")).
Proof.
  split; [|split].
  - exact (proj1 (proj2 (ensure_type_field_recovers_enum 0%nat (VDict 3%nat)
             (backstop_store "enum" (VList [VStr "x"; VStr "y"])))
             eq_refl 3%nat 2%nat 1%nat eq_refl eq_refl eq_refl
             ltac:(simpl; lia) ltac:(simpl; lia) ltac:(simpl; lia))
             (VStr "x") [VStr "y"] eq_refl).
  - exact (proj2 (proj2 (ensure_type_field_recovers_enum 0%nat (VDict 3%nat)
             (backstop_store "const" (VStr "x")))
             eq_refl 3%nat 2%nat 1%nat eq_refl eq_refl eq_refl
             ltac:(simpl; lia) ltac:(simpl; lia) ltac:(simpl; lia))
             eq_refl).
  - exact (proj1 (ensure_type_field_recovers_enum 2%nat (VDict 3%nat)
             (backstop_store "const" (VStr "x"))) eq_refl).
Defined.

(** ** Intersections *)

Section AllOf.

Variable rec : value -> path -> Z -> M value.
Variable base_dir : path.
Variable depth : Z.

Lemma allOf_loop_run opts : forall merged s v s',
  allOf_loop rec base_dir depth opts merged s = Ret v s' ->
  exists vals, allOf_run rec base_dir depth opts merged s vals v s'.
Proof.
  induction opts as [|opt rest IH]; intros merged s v s' Hrun; simpl in Hrun.
  - inversion Hrun; subst. exists []. constructor.
  - unfold bind in Hrun.
    destruct (rec opt base_dir (depth + 1) s) as [val s1| |] eqn:Hval; try done.
    destruct (allOf_merge merged val s1) as [merged' s2| |] eqn:Hmerge; try done.
    destruct (IH _ _ _ _ Hrun) as [vals Hvals].
    exists (val :: vals). econstructor; eauto.
Qed.

Lemma allOf_run_loop opts merged s vals v s' :
  allOf_run rec base_dir depth opts merged s vals v s' ->
  allOf_loop rec base_dir depth opts merged s = Ret v s'.
Proof.
  induction 1 as [|opt rest merged s val s1 merged' s2 vals v s' Hv Hm _ IH];
    simpl; [done|].
  unfold bind. by rewrite Hv, Hm.
Qed.

Lemma allOf_run_length opts merged s vals v s' :
  allOf_run rec base_dir depth opts merged s vals v s' -> length vals = length opts.
Proof. induction 1; simpl; congruence. Qed.

(** What one merge does to the store. *)
Lemma allOf_merge_spec merged val s :
  allOf_merge merged val s =
  match merged, val with
  | VNone, _ => Ret val s
  | VDict lm, VDict lv =>
      Ret merged
        (State (<[lm := dict_update (heap_get (heap s) lm) (heap_get (heap s) lv)]>
                  (heap s))
               (SCHEMA_CACHE s) (SAMPLE_CACHE s))
  | _, _ => Ret merged s
  end.
Proof. by destruct merged, val. Qed.

(** The accumulator is the first result that is not null, and stays. *)
Lemma allOf_run_result opts merged s vals v s' :
  allOf_run rec base_dir depth opts merged s vals v s' ->
  v = match merged with VNone => first_non_null vals | _ => merged end.
Proof.
  induction 1 as [merged s|opt rest merged s val s1 merged' s2 vals v s' _ Hm _ IH].
  - by destruct merged.
  - rewrite allOf_merge_spec in Hm. subst v.
    destruct merged; simpl;
      try (inversion Hm; subst; done);
      try (destruct val; inversion Hm; subst; done).
Qed.

End AllOf.

(** C1, as the code has it.  For a mapping node whose first applicable
    keyword is [allOf], sampling returns exactly when the loop over the
    branches runs through: every branch is sampled in listed order, one
    level down, in the state the previous turn left.  The result is the
    first branch result that is not null (null when there is none), and
    that object is the accumulator.  A later branch result is overlaid
    onto the accumulator, in place and with its keys winning, when both
    are mappings; in every other case it is dropped. *)
Theorem allOf_keeps_first_non_null fs fuel l (d : dict) opts base depth s :
  heap_get (heap s) l = d ->
  depth <= 40 ->
  dict_has d "$ref" = false ->
  dict_get d "const" = None ->
  dict_get d "enum" = None ->
  dict_get d "oneOf" = None ->
  dict_get d "anyOf" = None ->
  dict_get d "allOf" = Some (VList opts) ->
  (forall v s',
     sample_from_schema fs (S fuel) (VDict l) base depth s = Ret v s'
     <-> exists vals,
           allOf_run (sample_from_schema fs fuel) base depth opts VNone s
             vals v s')
  /\
  (forall vals v s',
     allOf_run (sample_from_schema fs fuel) base depth opts VNone s vals v s' ->
     length vals = length opts /\ v = first_non_null vals)
  /\
  (forall merged val s0,
     match merged, val with
     | VNone, _ => allOf_merge merged val s0 = Ret val s0
     | VDict lm, VDict lv =>
         exists s1,
           allOf_merge merged val s0 = Ret merged s1
           /\ SCHEMA_CACHE s1 = SCHEMA_CACHE s0
           /\ SAMPLE_CACHE s1 = SAMPLE_CACHE s0
           /\ (forall l', l' <> lm ->
                 heap_get (heap s1) l' = heap_get (heap s0) l')
           /\ ((lm < length (heap s0))%nat ->
               forall k,
                 dict_get (heap_get (heap s1) lm) k =
                 match dict_get (rev (heap_get (heap s0) lv)) k with
                 | Some x => Some x
                 | None => dict_get (heap_get (heap s0) lm) k
                 end)
     | _, _ => allOf_merge merged val s0 = Ret merged s0
     end).
Proof.
  intros Hd Hdepth Href Hconst Henum Hone Hany Hall.
  assert (Hstep : sample_from_schema fs (S fuel) (VDict l) base depth s
                  = allOf_loop (sample_from_schema fs fuel) base depth opts VNone s).
  { simpl. unfold sample_body. rewrite (depth_guard_off _ Hdepth).
    unfold bind at 1, read at 1.
    rewrite Hd, Href, Hconst, Henum, Hone, Hany, Hall. done. }
  split; [|split].
  - intros v s'. rewrite Hstep. split.
    + apply allOf_loop_run.
    + intros [vals Hvals]. eapply allOf_run_loop; eauto.
  - intros vals v s' Hvals. split.
    + eapply allOf_run_length; eauto.
    + apply (allOf_run_result _ _ _ _ _ _ _ _ _ Hvals).
  - intros merged val s0. rewrite allOf_merge_spec.
    destruct merged; try done. destruct val; try done.
    eexists. split; [done|]. simpl. split; [done|]. split; [done|]. split.
    + intros l' Hne. by apply heap_get_insert_ne.
    + intros Hlm k. rewrite heap_get_insert_eq by done. apply dict_get_update.
Qed.

(** C1, refuted as stated: the branches sample to the strings "a" then
    "b", neither a mapping; the last one produced is "b", the result
    is "a". *)
Lemma allOf_first_result_wins :
  sample_from_schema ∅ (fuel_for 1) (VDict 0%nat) [] 1
    (allOf_store (VStr "a") (VStr "b"))
    = Ret (VStr "a") (allOf_store (VStr "a") (VStr "b"))
  /\ sample_from_schema ∅ (fuel_for 1) (VDict 1%nat) [] 1
    (allOf_store (VStr "a") (VStr "b"))
    = Ret (VStr "b") (allOf_store (VStr "a") (VStr "b"))
  /\ spec_last_non_mapping [VStr "a"; VStr "b"] = Some (VStr "b")
  /\ sample_from_schema ∅ (fuel_for 0) (VDict 2%nat) [] 0
    (allOf_store (VStr "a") (VStr "b"))
    = Ret (VStr "a") (allOf_store (VStr "a") (VStr "b"))
  /\ VStr "a" <> VStr "b".
Proof.
  repeat match goal with |- _ /\ _ => split end;
    try (vm_compute; reflexivity).
  discriminate.
Qed.

Lemma allOf_witness :
  exists vals,
    allOf_run (sample_from_schema ∅ 41) [] 0 [VDict 0%nat; VDict 1%nat] VNone
      (allOf_store VNone (VInt 7)) vals (VInt 7) (allOf_store VNone (VInt 7)).
Proof.
  apply (proj1 (allOf_keeps_first_non_null ∅ 41 2%nat _
                  [VDict 0%nat; VDict 1%nat] [] 0 (allOf_store VNone (VInt 7))
                  eq_refl ltac:(lia) eq_refl eq_refl eq_refl eq_refl eq_refl
                  eq_refl)).
  vm_compute. reflexivity.
Defined.

(** The later branch wins on the shared key. *)
Example allOf_overlay_example :
  exists l s',
    (schema <- load_schema overlay_fs a_event_path ;;
     sample_from_schema overlay_fs (fuel_for 0) schema schemas_dir 0) empty_state
    = Ret (VDict l) s'
    /\ heap_get (heap s') l = [("a", VInt 1); ("b", VInt 3); ("c", VInt 4)].
Proof.
  exists 10%nat,
    (outcome_state
       ((schema <- load_schema overlay_fs a_event_path ;;
         sample_from_schema overlay_fs (fuel_for 0) schema schemas_dir 0)
          empty_state)).
  split; vm_compute; reflexivity.
Qed.

(** ** Stamping *)

(** What the stamping loop leaves behind: the caches and the number of
    objects are as before, no member other than [sequence_number]
    changes in any object, no object outside [events] changes, and an
    event that is not listed again further on carries its own number. *)
Lemma stamp_spec events : forall seq s,
  exists s',
    stamp events seq s = Ret tt s'
    /\ SCHEMA_CACHE s' = SCHEMA_CACHE s
    /\ SAMPLE_CACHE s' = SAMPLE_CACHE s
    /\ length (heap s') = length (heap s)
    /\ (forall l k, k <> "sequence_number" ->
          dict_get (heap_get (heap s') l) k = dict_get (heap_get (heap s) l) k)
    /\ (forall l, ~ In l events -> heap_get (heap s') l = heap_get (heap s) l)
    /\ (forall i l,
          events !! i = Some l ->
          ~ In l (drop (S i) events) ->
          (l < length (heap s))%nat ->
          dict_get (heap_get (heap s') l) "sequence_number"
            = Some (VInt (seq + Z.of_nat i))).
Proof.
  induction events as [|e rest IH]; intros seq s.
  - exists s. repeat split; try done.
  - simpl. unfold_monad. simpl.
    set (s1 := State (<[e := dict_set (heap_get (heap s) e) "sequence_number"
                              (VInt seq)]> (heap s))
                     (SCHEMA_CACHE s) (SAMPLE_CACHE s)).
    destruct (IH (seq + 1) s1) as (s' & Hrun & Hc1 & Hc2 & Hlen & Hframe & Hout & Hseq).
    exists s'. split; [done|]. split; [done|]. split; [done|].
    assert (Hlen1 : length (heap s1) = length (heap s)).
    { subst s1. simpl. apply length_insert. }
    split; [congruence|].
    assert (Hs1 : forall l k, k <> "sequence_number" ->
              dict_get (heap_get (heap s1) l) k = dict_get (heap_get (heap s) l) k).
    { intros l k Hk. subst s1. simpl.
      destruct (decide (e = l)) as [->|Hne].
      - destruct (decide (l < length (heap s))%nat) as [Hl|Hl].
        + rewrite heap_get_insert_eq by done. apply dict_get_set_ne. congruence.
        + rewrite list_insert_ge by lia. done.
      - by rewrite heap_get_insert_ne. }
    split; [|split].
    + intros l k Hk. rewrite Hframe by done. by apply Hs1.
    + intros l Hnin. rewrite Hout by (simpl in Hnin; tauto).
      subst s1. simpl. apply heap_get_insert_ne. simpl in Hnin. tauto.
    + intros i l Hi Hlater Hl. destruct i as [|i]; simpl in *.
      * inversion Hi; subst l. rewrite drop_0 in Hlater.
        rewrite Hout by done. subst s1. simpl.
        rewrite heap_get_insert_eq by done.
        rewrite dict_get_set_eq. do 2 f_equal. lia.
      * rewrite (Hseq i l Hi Hlater) by lia. do 2 f_equal. lia.
Qed.



(** ** Shared event objects *)

(** C10 at the failing input: over [shared_base_fs] with the allow-list
    ["a", "b"] the event emitted at position 1 ends with
    [sequence_number] 2, not with its position; so does the one emitted
    at position 1 for the allow-list ["a", "a"] over [single_fs]. *)
Theorem first_event_keeps_last_number :
  exists l s' l2 s2,
    generate_events shared_base_fs [VStr "a"; VStr "b"]
      [a_event_path; b_event_path] empty_state = Ret [l; l] s'
    /\ [l; l] !! 0%nat = Some l
    /\ dict_get (heap_get (heap s') l) "sequence_number" = Some (VInt 2)
    /\ generate_events single_fs [VStr "a"; VStr "a"] [a_event_path] empty_state
      = Ret [l2; l2] s2
    /\ [l2; l2] !! 0%nat = Some l2
    /\ dict_get (heap_get (heap s2) l2) "sequence_number" = Some (VInt 2)
    /\ VInt 2 <> VInt (Z.of_nat 1).
Proof.
  exists 5%nat,
    (outcome_state (generate_events shared_base_fs [VStr "a"; VStr "b"]
                      [a_event_path; b_event_path] empty_state)),
    4%nat,
    (outcome_state (generate_events single_fs [VStr "a"; VStr "a"]
                      [a_event_path] empty_state)).
  repeat match goal with |- _ /\ _ => split end;
    try (vm_compute; reflexivity).
  discriminate.
Qed.

(** C5 at the failing input: the allow-list ["a", "b"] over
    [shared_base_fs] emits one object twice; both events read
    [sequence_number] 2 and [type] "b". *)
Theorem shared_event_stamped_twice :
  exists l s',
    generate_events shared_base_fs [VStr "a"; VStr "b"]
      [a_event_path; b_event_path] empty_state = Ret [l; l] s'
    /\ sequence_numbers s' [l; l] = [Some (VInt 2); Some (VInt 2)]
    /\ sequence_numbers s' [l; l] <> [Some (VInt 1); Some (VInt 2)]
    /\ dict_get (heap_get (heap s') l) "type" = Some (VStr "b").
Proof.
  exists 5%nat, (outcome_state (generate_events shared_base_fs
                                  [VStr "a"; VStr "b"]
                                  [a_event_path; b_event_path] empty_state)).
  split; [vm_compute; reflexivity|].
  split; [vm_compute; reflexivity|].
  split; [vm_compute; discriminate|]. vm_compute; reflexivity.
Qed.

(** C2 at the failing input: once [AStreamingEvent.json] is indexed the
    sample cache holds, for [Base.json], a mapping whose [type] is "a";
    indexing [BStreamingEvent.json] turns that cached mapping's [type]
    into "b", and stamping adds a [sequence_number] to it. *)
Theorem cached_sample_mutated :
  exists index1 s1 index2 s2 s3 l,
    index_schema shared_base_fs [VStr "a"; VStr "b"] ∅ a_event_path empty_state
      = Ret index1 s1
    /\ index_schema shared_base_fs [VStr "a"; VStr "b"] index1 b_event_path s1
      = Ret index2 s2
    /\ stamp [l; l] 1 s2 = Ret tt s3
    /\ SAMPLE_CACHE s1 !! base_path = Some (VDict l)
    /\ SAMPLE_CACHE s2 !! base_path = Some (VDict l)
    /\ SAMPLE_CACHE s3 !! base_path = Some (VDict l)
    /\ heap_get (heap s1) l = [("type", VStr "a")]
    /\ heap_get (heap s2) l = [("type", VStr "b")]
    /\ heap_get (heap s3) l = [("type", VStr "b"); ("sequence_number", VInt 2)].
Proof.
  pose (r1 := index_schema shared_base_fs [VStr "a"; VStr "b"] ∅ a_event_path
                empty_state).
  pose (r2 := index_schema shared_base_fs [VStr "a"; VStr "b"]
                (outcome_value ∅ r1) b_event_path (outcome_state r1)).
  pose (r3 := stamp [5; 5]%nat 1 (outcome_state r2)).
  exists (outcome_value ∅ r1), (outcome_state r1),
         (outcome_value ∅ r2), (outcome_state r2), (outcome_state r3), 5%nat.
  subst r1 r2 r3.
  repeat match goal with |- _ /\ _ => split end; vm_compute; reflexivity.
Qed.

(** ** Coverage *)

Lemma find_missing_strs (index : gmap string loc) allowed s :
  find_missing index (map VStr allowed) s
  = Ret (map VStr (missing_types index allowed)) s.
Proof.
  induction allowed as [|t rest IH]; simpl; [done|].
  unfold bind, ret in *. simpl. rewrite IH.
  by destruct (index !! t).
Qed.

Lemma str_items_strs names : str_items (map VStr names) = Some names.
Proof. induction names as [|n rest IH]; simpl; [done|]. by rewrite IH. Qed.

Lemma lookup_events_covered (index : gmap string loc) allowed s :
  missing_types index allowed = [] ->
  exists events,
    lookup_events index (map VStr allowed) s = Ret events s
    /\ length events = length allowed.
Proof.
  induction allowed as [|t rest IH]; simpl.
  - intros _. by exists [].
  - destruct (index !! t) as [l|] eqn:Hl; [|done].
    intros Hrest. destruct (IH Hrest) as (events & Hev & Hlen).
    exists (l :: events). unfold bind, ret. rewrite Hev. simpl. by rewrite Hlen.
Qed.

Lemma assemble_outcome (index : gmap string loc) allowed s :
  match missing_types index allowed with
  | [] =>
      exists events s',
        assemble (map VStr allowed) index s = Ret events s'
        /\ length events = length allowed
  | missing =>
      assemble (map VStr allowed) index s
      = Raise (SystemExit (missing_message missing))
  end.
Proof.
  assert (Hasm : assemble (map VStr allowed) index s =
            match map VStr (missing_types index allowed) with
            | _ :: _ =>
                match str_items (map VStr (missing_types index allowed)) with
                | Some names => Raise (SystemExit (missing_message names))
                | None => Raise TypeError
                end
            | [] =>
                (events <- lookup_events index (map VStr allowed) ;;
                 stamp events 1 >> ret events) s
            end).
  { unfold assemble, bind at 1. rewrite find_missing_strs.
    destruct (map VStr (missing_types index allowed)) as [|v l]; [done|].
    by destruct (str_items (v :: l)). }
  rewrite Hasm, str_items_strs. clear Hasm.
  destruct (missing_types index allowed) as [|m ms] eqn:Hm; [|done].
  simpl. destruct (lookup_events_covered index allowed s Hm)
    as (events & Hev & Hlen).
  unfold bind at 1. rewrite Hev.
  destruct (stamp_spec events 1 s) as (s' & Hst & _).
  exists events, s'. unfold bind, ret. by rewrite Hst.
Qed.

(** C7 (coverage).  Once every schema file is processed, leaving the
    index [type_to_event]: if some allow-listed type strings have no
    event in it, the run ends in [SystemExit] with a non-zero status and
    the message that lists exactly those strings, in allow-list order;
    if none is missing, assembly returns one event per allow-list entry. *)
Theorem missing_coverage_aborts fs allowed paths s type_to_event s1 :
  index_schemas fs (map VStr allowed) paths ∅ s = Ret type_to_event s1 ->
  (missing_types type_to_event allowed <> [] ->
   generate_events fs (map VStr allowed) paths s
   = Raise (SystemExit
              ("missing schemas for types: "
               ++ String.concat ", " (missing_types type_to_event allowed)))
   /\ exit_status
        (SystemExit
           ("missing schemas for types: "
            ++ String.concat ", " (missing_types type_to_event allowed))) <> 0)
  /\
  (missing_types type_to_event allowed = [] ->
   exists events s2,
     generate_events fs (map VStr allowed) paths s = Ret events s2
     /\ length events = length allowed).
Proof.
  intros Hindex.
  assert (Hgen : generate_events fs (map VStr allowed) paths s
                 = assemble (map VStr allowed) type_to_event s1).
  { unfold generate_events, bind. by rewrite Hindex. }
  rewrite Hgen. clear Hgen.
  pose proof (assemble_outcome type_to_event allowed s1) as Hout.
  split.
  - intros Hmiss. split; [|done].
    destruct (missing_types type_to_event allowed); [done|]. exact Hout.
  - intros Hmiss. rewrite Hmiss in Hout. exact Hout.
Qed.

Lemma missing_coverage_witness :
  generate_events single_fs (map VStr ["a"; "b"; "c"]) [a_event_path] empty_state
  = Raise (SystemExit "missing schemas for types: b, c")
  /\ exists events s2,
       generate_events single_fs (map VStr ["a"]) [a_event_path] empty_state
       = Ret events s2
       /\ length events = 1%nat.
Proof.
  split.
  - refine (proj1 (proj1 (missing_coverage_aborts single_fs ["a"; "b"; "c"]
              [a_event_path] empty_state {[ "a" := 4%nat ]} _ _) _)).
    + vm_compute. reflexivity.
    + vm_compute. discriminate.
  - refine (proj2 (missing_coverage_aborts single_fs ["a"]
              [a_event_path] empty_state {[ "a" := 4%nat ]} _ _) _).
    + vm_compute. reflexivity.
    + vm_compute. reflexivity.
Defined.

(** ** Termination *)

Lemma terminates_ret {A} (a : A) : terminates (ret a).
Proof. done. Qed.

Lemma terminates_raise {A} e : terminates (@raise A e).
Proof. done. Qed.

Lemma terminates_bind {A B} (m : M A) (k : A -> M B) :
  terminates m -> (forall a, terminates (k a)) -> terminates (bind m k).
Proof.
  intros Hm Hk s. unfold bind. destruct (m s) eqn:E; [apply Hk|done|].
  by apply Hm in E.
Qed.

Lemma terminates_read l : terminates (read l).
Proof. done. Qed.

Lemma terminates_write l d : terminates (write l d).
Proof. done. Qed.

Lemma terminates_alloc d : terminates (alloc d).
Proof. done. Qed.

Lemma terminates_gets {A} (f : state -> A) : terminates (gets f).
Proof. done. Qed.

Lemma terminates_set_schema_cache p v : terminates (set_schema_cache p v).
Proof. done. Qed.

Lemma terminates_set_sample_cache p v : terminates (set_sample_cache p v).
Proof. done. Qed.

Create HintDb term.

#[local] Hint Resolve terminates_ret terminates_raise terminates_read
  terminates_write terminates_alloc terminates_gets
  terminates_set_schema_cache terminates_set_sample_cache : term.

(** One step through a computation: a bind, a case analysis, or a leaf. *)
Ltac term_step :=
  match goal with
  | |- terminates (bind _ _) => apply terminates_bind; [|intros ?]
  | |- terminates (match ?x with _ => _ end) => destruct x
  | |- terminates (if ?x then _ else _) => destruct x
  | |- terminates _ => solve [auto with term]
  end.

Ltac term := repeat term_step.

Lemma terminates_new_dict : terminates new_dict.
Proof. unfold new_dict. term. Qed.

Lemma terminates_setitem l k v : terminates (setitem l k v).
Proof. unfold setitem. term. Qed.

Lemma terminates_py_iter v : terminates (py_iter v).
Proof. unfold py_iter. term. Qed.

Lemma terminates_py_index0 v : terminates (py_index0 v).
Proof. unfold py_index0. term. Qed.

Lemma terminates_py_gt0 v : terminates (py_gt0 v).
Proof. unfold py_gt0. term. Qed.

Lemma terminates_py_range v : terminates (py_range v).
Proof. unfold py_range. term. Qed.

Lemma terminates_py_int v : terminates (py_int v).
Proof. unfold py_int. term. Qed.

Lemma terminates_truthy v : terminates (truthy v).
Proof. unfold truthy. term. Qed.

Lemma terminates_as_dict v : terminates (as_dict v).
Proof. unfold as_dict. term. Qed.

#[local] Hint Resolve terminates_new_dict terminates_setitem terminates_py_iter
  terminates_py_index0 terminates_py_gt0 terminates_py_range terminates_py_int
  terminates_truthy terminates_as_dict : term.

Lemma terminates_get_or_new d k : terminates (get_or_new d k).
Proof. unfold get_or_new. term. Qed.

#[local] Hint Resolve terminates_get_or_new : term.

Fixpoint terminates_load_json (j : json) : terminates (load_json j).
Proof.
  destruct j as [| | | | |js|kvs]; simpl; try solve [term].
  - apply terminates_bind; [|intros; term].
    induction js as [|j' js IH]; [term|].
    apply terminates_bind; [apply terminates_load_json|intros; term].
  - apply terminates_bind; [|intros; term].
    generalize (@nil (string * value)).
    induction kvs as [|[k j'] kvs IH]; intros acc; [term|].
    apply terminates_bind; [apply terminates_load_json|intros; apply IH].
Qed.

#[local] Hint Resolve terminates_load_json : term.

Section Termination.

Variable fs : gmap path file.

Lemma terminates_load_schema p : terminates (load_schema fs p).
Proof. unfold load_schema. term. Qed.

#[local] Hint Resolve terminates_load_schema : term.

Section BodyTerminates.

Variable rec : value -> path -> Z -> M value.
Variable base_dir : path.
Variable depth : Z.
Hypothesis rec_terminates : forall schema base, terminates (rec schema base (depth + 1)).

#[local] Hint Resolve rec_terminates : term.

Lemma terminates_sample_ref d : terminates (sample_ref fs rec base_dir depth d).
Proof. unfold sample_ref. term. Qed.

Lemma terminates_oneOf_loop opts : terminates (oneOf_loop rec base_dir depth opts).
Proof. induction opts as [|o opts IH]; simpl; term. Qed.

Lemma terminates_allOf_merge merged val : terminates (allOf_merge merged val).
Proof. unfold allOf_merge. term. Qed.

#[local] Hint Resolve terminates_allOf_merge : term.

Lemma terminates_allOf_loop opts : forall merged,
  terminates (allOf_loop rec base_dir depth opts merged).
Proof. induction opts as [|o opts IH]; intros merged; simpl; term. Qed.

Lemma terminates_props_get props name : terminates (props_get props name).
Proof. unfold props_get. term. Qed.

#[local] Hint Resolve terminates_props_get : term.

Lemma terminates_required_loop props obj names :
  terminates (required_loop rec base_dir depth props obj names).
Proof. induction names as [|n names IH]; simpl; term. Qed.

Lemma terminates_sample_items items n :
  terminates (sample_items rec base_dir depth items n).
Proof. induction n as [|n IH]; simpl; term. Qed.

#[local] Hint Resolve terminates_sample_ref terminates_oneOf_loop
  terminates_allOf_loop terminates_required_loop terminates_sample_items : term.

Lemma terminates_sample_body schema :
  terminates (sample_body fs rec base_dir depth schema).
Proof.
  unfold sample_body, sample_oneOf, sample_anyOf, sample_allOf, sample_object,
    sample_array, sample_string, sample_integer, sample_number, sample_boolean,
    py_repeat_x.
  term.
Qed.

End BodyTerminates.

(** Enough fuel: more than the levels left above the depth bound. *)
Lemma sample_enough_fuel fuel : forall depth schema base,
  (Z.to_nat (41 - depth) < fuel)%nat ->
  terminates (sample_from_schema fs fuel schema base depth).
Proof.
  induction fuel as [|fuel IH]; intros depth schema base Hfuel; [lia|].
  simpl. destruct (40 <? depth) eqn:Hguard.
  - intros s. unfold sample_body. by rewrite Hguard.
  - apply Z.ltb_ge in Hguard. apply terminates_sample_body.
    intros schema' base'. apply IH. lia.
Qed.

End Termination.

(** ** The fuel does not matter *)

Lemma agree_refl {A} (m : M A) : agree m m.
Proof. done. Qed.

Lemma agree_bind {A B} (m1 m2 : M A) (k1 k2 : A -> M B) :
  agree m1 m2 -> (forall a, agree (k1 a) (k2 a)) ->
  agree (bind m1 k1) (bind m2 k2).
Proof.
  intros Hm Hk s. unfold bind. rewrite Hm. destruct (m2 s); [apply Hk|done|done].
Qed.

Create HintDb agree.

Ltac agree_step :=
  match goal with
  | |- agree ?m ?m => apply agree_refl
  | |- agree (bind _ _) (bind _ _) => apply agree_bind; [|intros ?]
  | |- agree (match ?x with _ => _ end) (match ?x with _ => _ end) => destruct x
  | |- agree (if ?x then _ else _) (if ?x then _ else _) => destruct x
  | |- agree _ _ => solve [auto with agree]
  end.

Ltac agree_all := repeat agree_step.

Section Agreement.

Variable fs : gmap path file.
Variables rec1 rec2 : value -> path -> Z -> M value.
Variable base_dir : path.
Variable depth : Z.
Hypothesis rec_agree :
  forall schema base, agree (rec1 schema base (depth + 1)) (rec2 schema base (depth + 1)).

#[local] Hint Resolve rec_agree : agree.

Lemma agree_oneOf_loop opts :
  agree (oneOf_loop rec1 base_dir depth opts) (oneOf_loop rec2 base_dir depth opts).
Proof. induction opts as [|o opts IH]; simpl; agree_all. Qed.

Lemma agree_allOf_loop opts : forall merged,
  agree (allOf_loop rec1 base_dir depth opts merged)
        (allOf_loop rec2 base_dir depth opts merged).
Proof. induction opts as [|o opts IH]; intros merged; simpl; agree_all. Qed.

Lemma agree_required_loop props obj names :
  agree (required_loop rec1 base_dir depth props obj names)
        (required_loop rec2 base_dir depth props obj names).
Proof. induction names as [|n names IH]; simpl; agree_all. Qed.

Lemma agree_sample_items items n :
  agree (sample_items rec1 base_dir depth items n)
        (sample_items rec2 base_dir depth items n).
Proof. induction n as [|n IH]; simpl; agree_all. Qed.

#[local] Hint Resolve agree_oneOf_loop agree_allOf_loop agree_required_loop
  agree_sample_items : agree.

Lemma agree_sample_body schema :
  agree (sample_body fs rec1 base_dir depth schema)
        (sample_body fs rec2 base_dir depth schema).
Proof.
  unfold sample_body, sample_ref, sample_oneOf, sample_anyOf, sample_allOf,
    sample_object, sample_array.
  agree_all.
Qed.

End Agreement.

Lemma sample_fuel_irrelevant fs fuel1 : forall fuel2 depth schema base,
  (Z.to_nat (41 - depth) < fuel1)%nat ->
  (Z.to_nat (41 - depth) < fuel2)%nat ->
  agree (sample_from_schema fs fuel1 schema base depth)
        (sample_from_schema fs fuel2 schema base depth).
Proof.
  induction fuel1 as [|fuel1 IH]; intros fuel2 depth schema base H1 H2; [lia|].
  destruct fuel2 as [|fuel2]; [lia|].
  simpl. destruct (40 <? depth) eqn:Hguard.
  - intros s. unfold sample_body. by rewrite Hguard.
  - apply Z.ltb_ge in Hguard. apply agree_sample_body.
    intros schema' base'. apply IH; lia.
Qed.

(** C4, as the code has it.  With the fuel [fuel_for depth], or more, a
    call at [depth] comes to an end, whatever the schema, the files behind
    its references and the state, cyclic or not: it returns a value or
    raises an exception, and more fuel does not change its outcome.  A
    call at [depth] nests at most [42 - depth] calls, the deepest at depth
    41: the guard lets a call at depth 40 recurse, and a call above the
    bound of 40 returns null at once and leaves the state alone. *)
Theorem sample_terminates fs schema base depth fuel s :
  (fuel_for depth <= fuel)%nat ->
  ((exists v s', sample_from_schema fs fuel schema base depth s = Ret v s')
   \/ (exists e, sample_from_schema fs fuel schema base depth s = Raise e))
  /\ sample_from_schema fs fuel schema base depth s
     = sample_from_schema fs (fuel_for depth) schema base depth s
  /\ (0 <= depth -> (fuel_for depth <= 42)%nat)
  /\ (40 < depth ->
      sample_from_schema fs fuel schema base depth s = Ret VNone s).
Proof.
  unfold fuel_for. intros Hfuel. split; [|split; [|split]].
  - pose proof (sample_enough_fuel fs fuel depth schema base ltac:(lia) s) as H.
    destruct (sample_from_schema fs fuel schema base depth s) as [v s'|e|];
      [left; eauto|right; eauto|done].
  - apply sample_fuel_irrelevant; lia.
  - lia.
  - intros Hdeep. destruct fuel as [|fuel]; [lia|].
    simpl. unfold sample_body.
    by replace (40 <? depth) with true by (symmetry; apply Z.ltb_lt; lia).
Qed.

Lemma cycle_terminates_witness :
  exists l s',
    sample_from_schema cycle_fs 100 cycle_root schemas_dir 0 cycle_state
    = Ret (VDict l) s'.
Proof.
  destruct (sample_terminates cycle_fs cycle_root schemas_dir 0 100 cycle_state
              ltac:(vm_compute; lia)) as (_ & Hsame & _).
  rewrite Hsame. eexists _, _. vm_compute. reflexivity.
Defined.

(** C4, refuted as stated: the sample of a document that requires itself
    and a member with an empty [enum] is no value, the call ends in
    [IndexError] once the cycle has been followed down to the bound; and
    the depth of the calls does exceed 40: with fuel for 41 nested calls,
    depths 0 to 40, the sampling of a document that requires itself runs
    out of fuel, with fuel for 42 it returns. *)
Lemma cyclic_schema_raises :
  (schema <- load_schema faulty_cycle_fs a_event_path ;;
   sample_from_schema faulty_cycle_fs (fuel_for 0) schema schemas_dir 0)
    empty_state
  = Raise IndexError
  /\ (schema <- load_schema self_fs a_event_path ;;
      sample_from_schema self_fs 41 schema schemas_dir 0) empty_state
     = OutOfFuel
  /\ exists l s',
       (schema <- load_schema self_fs a_event_path ;;
        sample_from_schema self_fs 42 schema schemas_dir 0) empty_state
       = Ret (VDict l) s'.
Proof.
  split; [vm_compute; reflexivity|].
  split; [vm_compute; reflexivity|].
  eexists _, _. vm_compute. reflexivity.
Qed.

(** ** The two fixture files *)

Lemma no_line_break_app a b :
  no_line_break (a ++ b) = no_line_break a && no_line_break b.
Proof.
  induction a as [|c a IH]; simpl; [done|].
  rewrite IH. by destruct (line_break c).
Qed.

Lemma no_line_break_concat sep parts :
  no_line_break sep = true ->
  Forall (fun p => no_line_break p = true) parts ->
  no_line_break (String.concat sep parts) = true.
Proof.
  intros Hsep. induction 1 as [|p parts Hp Hparts IH]; simpl; [done|].
  destruct parts as [|q parts]; [done|].
  rewrite !no_line_break_app, Hp, Hsep. simpl. exact IH.
Qed.

(** A character that is no line break is neither of the two. *)
Lemma line_break_false c :
  negb (line_break c) = true ->
  Ascii.eqb c newline = false /\ Ascii.eqb c carriage_return = false.
Proof.
  unfold line_break. intros H. apply negb_true_iff in H.
  by apply orb_false_elim in H.
Qed.

Lemma split_on_nonempty sep s : split_on sep s <> [].
Proof.
  destruct s as [|c s]; simpl; [done|].
  destruct (Ascii.eqb c sep); [done|].
  by destruct (split_on sep s).
Qed.

(** A piece without a line break, then a line feed: the piece is a line. *)
Lemma split_on_line a b :
  no_line_break a = true ->
  split_on newline (a ++ String newline b) = a :: split_on newline b.
Proof.
  induction a as [|c a IH]; simpl.
  - intros _. done.
  - intros H. apply andb_prop in H as [Hc Ha].
    apply line_break_false in Hc as [Hc _]. rewrite Hc, (IH Ha). done.
Qed.

(** A text without a carriage return reads as it is written. *)
Lemma universal_newlines_line a b :
  no_line_break a = true ->
  universal_newlines (a ++ String newline b)
  = (a ++ String newline (universal_newlines b))%string.
Proof.
  induction a as [|c a IH]; intros H.
  - reflexivity.
  - simpl in H. apply andb_prop in H as [Hc Ha].
    apply line_break_false in Hc as [_ Hc].
    change (universal_newlines (String c (a ++ String newline b))
            = String c (a ++ String newline (universal_newlines b)))%string.
    simpl. rewrite Hc. by rewrite (IH Ha).
Qed.

Lemma text_lines_line a b :
  no_line_break a = true ->
  text_lines (a ++ String newline b) = a :: text_lines b.
Proof.
  intros Ha. unfold text_lines.
  rewrite (universal_newlines_line a b Ha), (split_on_line _ _ Ha).
  pose proof (split_on_nonempty newline (universal_newlines b)) as Hne.
  destruct (split_on newline (universal_newlines b)) as [|p ps] eqn:Hsplit;
    [done|].
  clear Hsplit Hne.
  change (last (a :: p :: ps)) with (last (p :: ps)).
  destruct (last (p :: ps)) as [[|]|]; try done.
Qed.

Lemma string_app_assoc (a b c : string) :
  ((a ++ b) ++ c = a ++ (b ++ c))%string.
Proof.
  induction a as [|x a IH]; [done|].
  change (String x ((a ++ b) ++ c) = String x (a ++ (b ++ c)))%string.
  by rewrite IH.
Qed.

Lemma string_app_nil_r (a : string) : (a ++ EmptyString = a)%string.
Proof.
  induction a as [|x a IH]; [done|].
  change (String x (a ++ EmptyString) = String x a)%string.
  by rewrite IH.
Qed.

(** The payloads of a text that starts with a full line. *)
Lemma data_payloads_line a b :
  no_line_break a = true ->
  data_payloads (a ++ String newline b) =
  match strip_prefix "data: " a with
  | Some p => p :: data_payloads b
  | None => data_payloads b
  end.
Proof.
  intros Ha. unfold data_payloads. rewrite (text_lines_line a b Ha). simpl.
  by destruct (strip_prefix "data: " a).
Qed.

Lemma strip_prefix_app p s : strip_prefix p (p ++ s) = Some s.
Proof.
  induction p as [|c p IH]; simpl; [by destruct s|].
  by rewrite Ascii.eqb_refl.
Qed.

Lemma escape_char_line c : no_line_break (escape_char c) = true.
Proof. destruct c as [[] [] [] [] [] [] [] []]; reflexivity. Qed.

Lemma escape_line s : no_line_break (escape s) = true.
Proof.
  induction s as [|c s IH]; simpl; [done|].
  by rewrite no_line_break_app, escape_char_line, IH.
Qed.

Lemma quoted_line s : no_line_break (quoted s) = true.
Proof.
  unfold quoted. simpl. by rewrite no_line_break_app, escape_line.
Qed.

Lemma string_of_uint_line d : no_line_break (NilEmpty.string_of_uint d) = true.
Proof. induction d; simpl; done. Qed.

Lemma str_int_line z : no_line_break (str_int z) = true.
Proof.
  unfold str_int, NilZero.string_of_int, NilZero.string_of_uint.
  destruct (Z.to_int z) as [d|d]; destruct d; simpl;
    try done; apply string_of_uint_line.
Qed.

(** [mapM] over computations that only read the state. *)
Lemma mapM_reads {A B} (f : A -> M B) (P : B -> Prop) l : forall s ys s',
  (forall x s0 y s1, In x l -> f x s0 = Ret y s1 -> P y /\ s1 = s0) ->
  mapM f l s = Ret ys s' ->
  Forall P ys /\ s' = s.
Proof.
  induction l as [|x l IH]; intros s ys s' Hf Hrun; simpl in Hrun.
  - inversion Hrun; subst. done.
  - unfold bind in Hrun. destruct (f x s) as [y s1| |] eqn:Hy; try done.
    destruct (Hf x s y s1 (or_introl eq_refl) Hy) as [Py ->].
    destruct (mapM f l s) as [ys' s2| |] eqn:Hys; try done.
    inversion Hrun; subst.
    destruct (IH s ys' s') as [Pys ->]; [|done|].
    + intros x0 s0 y0 s1 Hin. apply Hf. by right.
    + split; [by constructor|done].
Qed.

(** [truthy] reads the truth value off the store. *)
Lemma truthy_truth v s : truthy v s = Ret (truth (heap s) v) s.
Proof. destruct v as [| | |[]| | |l]; reflexivity. Qed.

Section WriterFacts.

Variable float_repr : spec_float -> string.
Variable py_format : list dict -> value -> string.
Hypothesis float_repr_line : forall f, no_line_break (float_repr f) = true.

(** The encoder writes no line break and leaves the state alone. *)
Lemma dumps_line fuel : forall seen v s line s',
  dumps float_repr fuel seen v s = Ret line s' ->
  no_line_break line = true /\ s' = s.
Proof.
  induction fuel as [|fuel IH]; intros seen v s line s' Hrun; [done|].
  simpl in Hrun. destruct v as [|[]|z|f|t|l|l].
  - inversion Hrun; subst. done.
  - inversion Hrun; subst. done.
  - inversion Hrun; subst. done.
  - inversion Hrun; subst. split; [apply str_int_line|done].
  - inversion Hrun; subst. split; [apply float_repr_line|done].
  - inversion Hrun; subst. split; [apply quoted_line|done].
  - unfold bind in Hrun.
    destruct (mapM (dumps float_repr fuel seen) l s) as [parts s1| |] eqn:Hparts;
      try done.
    inversion Hrun; subst.
    destruct (mapM_reads _ (fun p => no_line_break p = true) _ _ _ _
                (fun x s0 y s2 _ H => IH seen x s0 y s2 H) Hparts) as [Hall ->].
    split; [|done].
    rewrite !no_line_break_app, (no_line_break_concat "," parts eq_refl Hall).
    done.
  - destruct (existsb (Nat.eqb l) seen); [done|].
    unfold bind at 1, read at 1 in Hrun. unfold bind at 1 in Hrun.
    match type of Hrun with
    | match mapM ?f ?items ?st with _ => _ end = _ =>
        destruct (mapM f items st) as [parts s1| |] eqn:Hparts; try done;
        assert (Hitems : Forall (fun p => no_line_break p = true) parts /\ s1 = s)
    end.
    { eapply mapM_reads; [|exact Hparts].
      intros kv s0 y s2 _ H. simpl in H. unfold bind in H.
      destruct (dumps float_repr fuel (l :: seen) (snd kv) s0)
        as [part s3| |] eqn:Hpart; try done.
      inversion H; subst. destruct (IH _ _ _ _ _ Hpart) as [Hp ->].
      split; [|done].
      rewrite !no_line_break_app, quoted_line, Hp. done. }
    destruct Hitems as [Hall ->]. inversion Hrun; subst.
    split; [|done].
    rewrite !no_line_break_app, (no_line_break_concat "," parts eq_refl Hall).
    done.
Qed.

Variable encoder_fuel : nat.

(** The [event:] line is written exactly when the event has a type text,
    and holds that text; writing it leaves the state alone. *)
Lemma event_line_reads e s h s' :
  event_line py_format e s = Ret h s' ->
  s' = s
  /\ h = match type_text py_format (heap s) e with
         | Some t => ("event: " ++ t ++ nl)%string
         | None => EmptyString
         end.
Proof.
  unfold event_line, type_text.
  destruct (dict_get e "type") as [v|]; [|by inversion 1].
  destruct v as [|b|z|f|t|l|l];
    try (unfold bind at 1; rewrite truthy_truth;
         destruct (truth (heap s) _); unfold bind, gets, ret;
         inversion 1; subst; done).
  destruct (String.eqb t EmptyString); by inversion 1.
Qed.

Lemma write_event_reads out event s out' s' :
  write_event float_repr py_format encoder_fuel out event s = Ret out' s' ->
  exists line,
    dumps float_repr encoder_fuel [] (VDict event) s = Ret line s
    /\ no_line_break line = true
    /\ s' = s
    /\ out' = ((fst out ++ line ++ nl)%string,
               (snd out
                ++ sse_record (type_text py_format (heap s)
                                 (heap_get (heap s) event)) line)%string).
Proof.
  unfold write_event. unfold bind at 1.
  destruct (dumps float_repr encoder_fuel [] (VDict event) s)
    as [line s1| |] eqn:Hline; try done.
  destruct (dumps_line _ _ _ _ _ _ Hline) as [Hnl ->].
  unfold bind at 1, read at 1. unfold bind at 1.
  destruct (event_line py_format (heap_get (heap s) event) s)
    as [h s2| |] eqn:Hh; try done.
  destruct (event_line_reads _ _ _ _ Hh) as [-> ->].
  unfold ret. inversion 1; subst. exists line.
  split; [done|]. split; [done|]. split; [done|].
  unfold sse_record. by rewrite ?string_app_assoc.
Qed.

Lemma write_events_reads events : forall out s out' s',
  write_events float_repr py_format encoder_fuel events out s = Ret out' s' ->
  exists lines,
    Forall2 (fun event line =>
               dumps float_repr encoder_fuel [] (VDict event) s = Ret line s)
            events lines
    /\ Forall (fun line => no_line_break line = true) lines
    /\ s' = s
    /\ out' = ((fst out ++ jsonl_text lines)%string,
               (snd out
                ++ sse_text (zip (map (fun event =>
                                         type_text py_format (heap s)
                                           (heap_get (heap s) event))
                                      events) lines))%string).
Proof.
  induction events as [|event rest IH]; intros out s out' s' Hrun; simpl in Hrun.
  - inversion Hrun; subst. exists []. simpl.
    rewrite !string_app_nil_r. by destruct out'.
  - unfold bind in Hrun.
    destruct (write_event float_repr py_format encoder_fuel out event s)
      as [out1 s1| |] eqn:Hone; try done.
    destruct (write_event_reads _ _ _ _ _ Hone) as (line & Hline & Hnl & -> & ->).
    destruct (IH _ _ _ _ Hrun) as (lines & Hall & Hnls & -> & ->).
    exists (line :: lines). simpl.
    split; [by constructor|]. split; [by constructor|]. split; [done|].
    by rewrite !string_app_assoc.
Qed.

#[local] Arguments String.append !s1 s2 / : simpl nomatch.

Lemma text_lines_jsonl lines :
  Forall (fun line => no_line_break line = true) lines ->
  text_lines (jsonl_text lines) = lines.
Proof.
  induction 1 as [|line rest Hline _ IH]; simpl; [done|].
  unfold nl. rewrite string_app_assoc. simpl.
  by rewrite (text_lines_line _ _ Hline), IH.
Qed.

Lemma data_payloads_sse (recs : list (option string * string)) tail :
  Forall (fun r => (forall t, fst r = Some t -> no_line_break t = true)
                   /\ no_line_break (snd r) = true) recs ->
  data_payloads (sse_text recs ++ tail) = map snd recs ++ data_payloads tail.
Proof.
  induction 1 as [|[t line] rest [Ht Hline] _ IH]; simpl in *; [done|].
  assert (Hdata : forall rest' : string,
            data_payloads (("data: " ++ line ++ nl ++ nl) ++ rest')
            = line :: data_payloads rest').
  { intros rest'. unfold nl.
    replace ((("data: " ++ line ++ String newline EmptyString
               ++ String newline EmptyString) ++ rest')%string)
      with ((("data: " ++ line)
             ++ String newline (EmptyString ++ String newline rest'))%string).
    2:{ rewrite ?string_app_assoc. simpl. by rewrite ?string_app_assoc. }
    rewrite data_payloads_line by (simpl; exact Hline).
    rewrite strip_prefix_app.
    by rewrite (data_payloads_line EmptyString rest' eq_refl). }
  unfold sse_record. rewrite ?string_app_assoc.
  destruct t as [t|].
  - unfold nl at 1.
    replace ((("event: " ++ t ++ String newline EmptyString)
              ++ "data: " ++ line ++ nl ++ nl ++ sse_text rest ++ tail)%string)
      with ((("event: " ++ t)
             ++ String newline (("data: " ++ line ++ nl ++ nl)
                                ++ sse_text rest ++ tail))%string).
    2:{ rewrite ?string_app_assoc. simpl. by rewrite ?string_app_assoc. }
    rewrite data_payloads_line by (simpl; exact (Ht t eq_refl)).
    simpl strip_prefix. rewrite Hdata. by rewrite IH.
  - simpl. rewrite <- IH.
    rewrite <- (Hdata (sse_text rest ++ tail)%string).
    by rewrite ?string_app_assoc.
Qed.

End WriterFacts.

Lemma zip_lines_ok (types : list (option string)) (lines : list string) :
  Forall (fun ot => forall t, ot = Some t -> no_line_break t = true) types ->
  Forall (fun line => no_line_break line = true) lines ->
  Forall (fun r => (forall t, fst r = Some t -> no_line_break t = true)
                   /\ no_line_break (snd r) = true)
         (zip types lines).
Proof.
  intros Ht. revert lines.
  induction Ht as [|t types Ht _ IH]; intros lines Hl; simpl; [constructor|].
  destruct Hl as [|line lines Hline Hl]; constructor; [done|by apply IH].
Qed.

Lemma map_snd_zip_types {A B} (f : A -> B) (events : list A)
    (lines : list string) :
  length events = length lines ->
  map snd (zip (map f events) lines) = lines.
Proof.
  revert lines. induction events as [|e events IH]; intros [|l lines];
    simpl; try done.
  intros Hlen. f_equal. apply IH. lia.
Qed.

(** C8, as the code has it.  When the type text written for an event
    never holds a line feed or a carriage return, the payloads of the
    [data:] lines of the text-streaming file, read with either character
    or the pair of them ending a line, are the lines of the line-delimited
    file followed by the marker [[DONE]], so that decoding the former
    without the marker gives what decoding the latter gives, with any
    decoder.  Each event contributes its encoding as one line of the
    first file and one record of the second, the record starting with an
    [event:] line exactly when the type is a true value (a string that is
    not empty, or another value that counts as true, written as an
    f-string formats it), and the second file ends with the record
    [data: [DONE]] and an empty line. *)
Theorem fixture_formats_agree float_repr py_format encoder_fuel events s
    jsonl sse s' :
  (forall f, no_line_break (float_repr f) = true) ->
  (forall event t, In event events ->
     type_text py_format (heap s) (heap_get (heap s) event) = Some t ->
     no_line_break t = true) ->
  write_fixtures float_repr py_format encoder_fuel events s
    = Ret (jsonl, sse) s' ->
  (forall (X : Type) (decode : string -> X),
     map decode (removelast (data_payloads sse)) = map decode (text_lines jsonl))
  /\ data_payloads sse = text_lines jsonl ++ ["[DONE]"]
  /\ exists lines,
       Forall2 (fun event line =>
                  dumps float_repr encoder_fuel [] (VDict event) s = Ret line s)
               events lines
       /\ jsonl = jsonl_text lines
       /\ sse = (sse_text (zip (map (fun event =>
                                       type_text py_format (heap s)
                                         (heap_get (heap s) event))
                                    events) lines)
                 ++ "data: [DONE]" ++ nl ++ nl)%string.
Proof.
  intros Hfloat Htypes Hrun. unfold write_fixtures, bind in Hrun.
  destruct (write_events float_repr py_format encoder_fuel events
              (EmptyString, EmptyString) s) as [out s1| |] eqn:Hout; try done.
  destruct (write_events_reads float_repr py_format Hfloat encoder_fuel
              _ _ _ _ _ Hout)
    as (lines & Hall & Hnl & -> & ->).
  unfold ret in Hrun. simpl in Hrun. inversion Hrun; subst. clear Hrun.
  repeat match goal with
         | |- context [String.append EmptyString ?x] =>
             change (String.append EmptyString x) with x
         end.
  assert (Hpay : data_payloads
            (sse_text (zip (map (fun event =>
                                   type_text py_format (heap s')
                                     (heap_get (heap s') event))
                                events) lines)
             ++ "data: [DONE]" ++ nl ++ nl)
          = text_lines (jsonl_text lines) ++ ["[DONE]"]).
  { rewrite data_payloads_sse.
    - rewrite text_lines_jsonl by done.
      rewrite map_snd_zip_types by (eapply Forall2_length; eauto).
      reflexivity.
    - apply zip_lines_ok; [|done].
      apply List.Forall_forall. intros ot Hin. apply in_map_iff in Hin.
      destruct Hin as (event & <- & Hin). intros t Ht. by eapply Htypes. }
  split; [|split].
  - intros X decode. rewrite Hpay. by rewrite removelast_last.
  - exact Hpay.
  - exists lines. done.
Qed.

(** C8, refuted as stated: for an event whose type string holds a line
    feed the text-streaming file has one [data:] line more than the
    line-delimited file has lines, whatever the decoder; and so it is for
    a type string that holds a carriage return. *)
Lemma type_with_line_feed_adds_payload :
  (exists jsonl sse s',
     main (fun _ => "0.0") show_int 100 two_line_fs [VStr two_line_type]
       [a_event_path] empty_state = Ret (jsonl, sse) s'
     /\ length (text_lines jsonl) = 1%nat
     /\ length (removelast (data_payloads sse)) = 2%nat
     /\ forall (X : Type) (decode : string -> X),
          map decode (removelast (data_payloads sse))
          <> map decode (text_lines jsonl))
  /\ (exists jsonl sse s',
        main (fun _ => "0.0") show_int 100 return_fs [VStr return_type]
          [a_event_path] empty_state = Ret (jsonl, sse) s'
        /\ length (text_lines jsonl) = 1%nat
        /\ length (removelast (data_payloads sse)) = 2%nat
        /\ forall (X : Type) (decode : string -> X),
             map decode (removelast (data_payloads sse))
             <> map decode (text_lines jsonl)).
Proof.
  split.
  - eexists _, _, _. split; [vm_compute; reflexivity|].
    split; [reflexivity|]. split; [reflexivity|].
    intros X decode H. apply (f_equal length) in H.
    rewrite !length_map in H. vm_compute in H. discriminate.
  - eexists _, _, _. split; [vm_compute; reflexivity|].
    split; [reflexivity|]. split; [reflexivity|].
    intros X decode H. apply (f_equal length) in H.
    rewrite !length_map in H. vm_compute in H. discriminate.
Qed.

Lemma fixture_formats_witness :
  exists jsonl sse,
    write_fixtures (fun _ => "0.0") show_int 10 [0; 1; 3]%nat fixture_store
      = Ret (jsonl, sse) fixture_store
    /\ data_payloads sse = text_lines jsonl ++ ["[DONE]"]
    /\ length (text_lines jsonl) = 3%nat.
Proof.
  eexists _, _. split; [vm_compute; reflexivity|].
  split; [|reflexivity].
  refine (proj1 (proj2 (fixture_formats_agree (fun _ => "0.0") show_int
            10 [0; 1; 3]%nat
            fixture_store _ _ fixture_store (fun _ => eq_refl) _ _))).
  - intros event t [<-|[<-|[<-|[]]]] Ht; vm_compute in Ht;
      try discriminate; inversion Ht; reflexivity.
  - vm_compute. reflexivity.
Defined.

(** ** Distinct event objects *)

Lemma NoDup_not_later (events : list loc) : forall i l,
  List.NoDup events -> events !! i = Some l -> ~ In l (drop (S i) events).
Proof.
  induction events as [|e rest IH]; intros i l Hnd Hi; [done|].
  inversion Hnd as [|? ? Hnotin Hnd']; subst.
  destruct i as [|i]; simpl in *.
  - inversion Hi; subst. by rewrite drop_0.
  - by apply IH.
Qed.

(** When the emitted events are distinct objects of the store, their
    [sequence_number] members are 1, 2, ... in order. *)
Lemma stamp_distinct_events events s :
  List.NoDup events ->
  (forall l, In l events -> (l < length (heap s))%nat) ->
  exists s',
    stamp events 1 s = Ret tt s'
    /\ sequence_numbers s' events
       = map (fun i => Some (VInt (Z.of_nat (S i)))) (seq 0 (length events)).
Proof.
  intros Hnd Hvalid.
  destruct (stamp_spec events 1 s) as (s' & Hrun & _ & _ & _ & _ & _ & Hseq).
  exists s'. split; [done|].
  apply list_eq. intros i. unfold sequence_numbers.
  rewrite !list_lookup_fmap.
  match goal with |- _ <$> ?x = _ => destruct x as [l|] eqn:Hi end.
  - rewrite lookup_seq_lt by (eapply lookup_lt_Some; eauto).
    simpl. f_equal.
    rewrite (Hseq i l Hi).
    + do 2 f_equal. lia.
    + by apply NoDup_not_later.
    + apply Hvalid. apply list_elem_of_In. eapply list_elem_of_lookup_2; eauto.
  - rewrite lookup_seq_ge; [done|]. by apply lookup_ge_None.
Qed.

(** * Further properties of the script *)

(** ** Reading a run backwards *)

Lemma bind_ret_inv {A B} (m : M A) (k : A -> M B) s b s' :
  bind m k s = Ret b s' ->
  exists a s1, m s = Ret a s1 /\ k a s1 = Ret b s'.
Proof.
  unfold bind. destruct (m s) as [a s1| |]; [|done|done].
  intros H. by exists a, s1.
Qed.

Ltac bind_inv H :=
  let a := fresh "a" in
  let s1 := fresh "s" in
  let Ha := fresh "Hrun" in
  apply bind_ret_inv in H as (a & s1 & Ha & H).

Lemma ret_inv {A} (a b : A) s s' : ret a s = Ret b s' -> a = b /\ s = s'.
Proof. unfold ret. by inversion 1. Qed.

(** ** The index of sampled events *)

Lemma setdefault_lookup (m : gmap string loc) k l t :
  setdefault m k l !! t =
  match m !! t with
  | Some l' => Some l'
  | None => if String.eqb k t then Some l else None
  end.
Proof.
  unfold setdefault. destruct (m !! k) as [l0|] eqn:Hk.
  - destruct (m !! t) as [l'|] eqn:Ht; [done|].
    destruct (String.eqb k t) eqn:E; [|done].
    apply String.eqb_eq in E. congruence.
  - destruct (String.eqb k t) eqn:E.
    + apply String.eqb_eq in E. subst t. rewrite Hk. apply lookup_insert_eq.
    + apply String.eqb_neq in E.
      rewrite (lookup_insert_ne m k t l E). by destruct (m !! t).
Qed.

(** One schema file: the entries of the index stay, and a new entry is
    an allow-listed string, the [type] of the event it maps to. *)
Lemma index_schema_step fs allowed (index : gmap string loc) p s index' s' :
  index_schema fs allowed index p s = Ret index' s' ->
  (forall t l, index !! t = Some l -> index' !! t = Some l)
  /\ (forall t l, index' !! t = Some l ->
        index !! t = Some l
        \/ (in_allowed t allowed = true
            /\ dict_get (heap_get (heap s') l) "type" = Some (VStr t))).
Proof.
  unfold index_schema. intros H.
  apply bind_ret_inv in H as (schema & s1 & _ & H).
  apply bind_ret_inv in H as (sampled & s2 & _ & H).
  apply bind_ret_inv in H as (event & s3 & _ & H).
  apply bind_ret_inv in H as ([] & s4 & _ & H).
  apply bind_ret_inv in H as (e & s5 & Hread & H).
  unfold read in Hread. inversion Hread; subst. clear Hread.
  assert (Hkeep : index' = index -> 
    (forall t l, index !! t = Some l -> index' !! t = Some l)
    /\ (forall t l, index' !! t = Some l ->
        index !! t = Some l
        \/ (in_allowed t allowed = true
            /\ dict_get (heap_get (heap s') l) "type" = Some (VStr t)))).
  { intros ->. split; [done|]. intros t l Ht. by left. }
  destruct (dict_get (heap_get (heap s5) event) "type") as [[| | | |t| |]|] eqn:Hty;
    try (apply ret_inv in H as [<- <-]; by apply Hkeep).
  destruct (in_allowed t allowed) eqn:Hin;
    [|apply ret_inv in H as [<- <-]; by apply Hkeep].
  apply ret_inv in H as [<- <-]. split.
  - intros t0 l Ht0. by rewrite setdefault_lookup, Ht0.
  - intros t0 l. rewrite setdefault_lookup.
    destruct (index !! t0) as [l'|]; [intros; by left|].
    destruct (String.eqb t t0) eqn:E; [|done].
    apply String.eqb_eq in E. subst t0. intros [= <-]. by right.
Qed.

(** X1.  Whatever the schema files hold, the index built over them keeps
    every entry it starts with (the first event seen for a type string
    stays), and every key it gains is a string of the allow-list. *)
Theorem index_first_seen_wins fs allowed paths : forall (index : gmap string loc) s index' s',
  index_schemas fs allowed paths index s = Ret index' s' ->
  (forall t l, index !! t = Some l -> index' !! t = Some l)
  /\ (forall t, is_Some (index' !! t) ->
        is_Some (index !! t) \/ in_allowed t allowed = true).
Proof.
  induction paths as [|p rest IH]; intros index s index' s' H; simpl in H.
  - apply ret_inv in H as [<- <-]. split; [done|]. intros t Ht. by left.
  - bind_inv H.
    destruct (index_schema_step _ _ _ _ _ _ _ Hrun) as [Hkeep Hnew].
    destruct (IH _ _ _ _ H) as [Hkeep' Hnew'].
    split.
    + intros t l Ht. by apply Hkeep', Hkeep.
    + intros t Ht. destruct (Hnew' t Ht) as [[l Hl]|Hin]; [|by right].
      destruct (Hnew t l Hl) as [Hold|[Hin _]]; [left; eauto|by right].
Qed.

Lemma index_first_seen_witness :
  exists index' s',
    index_schemas shared_base_fs [VStr "a"; VStr "b"]
      [a_event_path; b_event_path] {[ "b" := 0%nat ]} seeded_store
    = Ret index' s'
    /\ index' !! "b" = Some 0%nat.
Proof.
  pose (r := index_schemas shared_base_fs [VStr "a"; VStr "b"]
               [a_event_path; b_event_path] {[ "b" := 0%nat ]} seeded_store).
  assert (Hrun : r = Ret (outcome_value ∅ r) (outcome_state r))
    by (vm_compute; reflexivity).
  exists (outcome_value ∅ r), (outcome_state r).
  split; [exact Hrun|].
  apply (proj1 (index_first_seen_wins _ _ _ _ _ _ _ Hrun)).
  vm_compute. reflexivity.
Defined.

(** ** What the type backstop leaves alone *)

(** The store after [ensure_type_field]: as before, or with the two
    default dictionaries, or with them and the event's [type] set. *)
Lemma ensure_type_field_shapes event schema s s' :
  ensure_type_field event schema s = Ret tt s' ->
  SCHEMA_CACHE s' = SCHEMA_CACHE s
  /\ SAMPLE_CACHE s' = SAMPLE_CACHE s
  /\ (heap s' = heap s
      \/ (dict_has (heap_get (heap s) event) "type" = false
          /\ (heap s' = (heap s ++ [[]]) ++ [[]]
              \/ exists v,
                   heap s'
                   = <[event := dict_set (heap_get ((heap s ++ [[]]) ++ [[]]) event)
                                  "type" v]> ((heap s ++ [[]]) ++ [[]])))).
Proof.
  unfold ensure_type_field. unfold bind at 1, read at 1.
  destruct (dict_has (heap_get (heap s) event) "type") eqn:Hty.
  { intros H. apply ret_inv in H as [_ <-]. auto. }
  intros H.
  apply bind_ret_inv in H as (sd & s1 & Hsd & H).
  assert (s1 = s) as ->.
  { destruct schema; try done. unfold as_dict, read in Hsd. by inversion Hsd. }
  clear Hsd.
  apply bind_ret_inv in H as (props & s2 & Hprops & H).
  assert (s2 = State (heap s ++ [[]]) (SCHEMA_CACHE s) (SAMPLE_CACHE s)) as ->.
  { unfold get_or_new, new_dict, bind, alloc, ret in Hprops. by inversion Hprops. }
  clear Hprops.
  apply bind_ret_inv in H as (pd & s3 & Hpd & H).
  assert (s3 = State (heap s ++ [[]]) (SCHEMA_CACHE s) (SAMPLE_CACHE s)) as ->.
  { destruct props; try done. unfold as_dict, read in Hpd. by inversion Hpd. }
  clear Hpd.
  apply bind_ret_inv in H as (type_schema & s4 & Htype & H).
  assert (s4 = State ((heap s ++ [[]]) ++ [[]]) (SCHEMA_CACHE s) (SAMPLE_CACHE s))
    as ->.
  { unfold get_or_new, new_dict, bind, alloc, ret in Htype. by inversion Htype. }
  clear Htype.
  destruct type_schema as [| | | | | |lt];
    try (apply ret_inv in H as [_ <-]; simpl;
         split; [done|]; split; [done|]; right; split; [done|]; by left).
  unfold bind at 1, read at 1 in H. simpl in H.
  destruct (dict_get (heap_get ((heap s ++ [[]]) ++ [[]]) lt) "enum") as [en|];
    [|apply ret_inv in H as [_ <-]; simpl;
      split; [done|]; split; [done|]; right; split; [done|]; by left].
  apply bind_ret_inv in H as (v & s5 & Hv & H).
  assert (s5 = State ((heap s ++ [[]]) ++ [[]]) (SCHEMA_CACHE s) (SAMPLE_CACHE s))
    as ->.
  { destruct en as [| | | | [|c t] | [|x l] |]; try done;
      unfold py_index0, ret in Hv; by inversion Hv. }
  unfold setitem, bind, read, write in H. simpl in H. inversion H; subst. simpl.
  split; [done|]. split; [done|]. right. split; [done|]. right. by exists v.
Qed.

(** X2.  Whatever the shapes of the event and of the schema, a call of
    [ensure_type_field] on an existing event that returns has changed
    neither cache, no object other than the event, and no member of the
    event other than [type]; an event that had a [type] is as it was.
    The store has gained at most the two default dictionaries. *)
Theorem ensure_type_field_frame event schema s s' :
  (event < length (heap s))%nat ->
  ensure_type_field event schema s = Ret tt s' ->
  SCHEMA_CACHE s' = SCHEMA_CACHE s
  /\ SAMPLE_CACHE s' = SAMPLE_CACHE s
  /\ (length (heap s) <= length (heap s') <= length (heap s) + 2)%nat
  /\ (forall l, (l < length (heap s))%nat -> l <> event ->
        heap_get (heap s') l = heap_get (heap s) l)
  /\ (forall k, k <> "type" ->
        dict_get (heap_get (heap s') event) k
        = dict_get (heap_get (heap s) event) k)
  /\ (dict_has (heap_get (heap s) event) "type" = true ->
      heap_get (heap s') event = heap_get (heap s) event).
Proof.
  intros Hev Hrun.
  destruct (ensure_type_field_shapes _ _ _ _ Hrun) as (Hc1 & Hc2 & Hshape).
  split; [done|]. split; [done|].
  assert (Hold : forall l, (l < length (heap s))%nat ->
            heap_get ((heap s ++ [[]]) ++ [[]]) l = heap_get (heap s) l).
  { intros l Hl. rewrite !heap_get_app_l; [done|done|].
    rewrite length_app. simpl. lia. }
  destruct Hshape as [Heq|[Hty [Heq|[v Heq]]]]; rewrite Heq.
  - repeat split; try done; lia.
  - rewrite !length_app. simpl. split; [lia|].
    split; [intros; by apply Hold|]. split; [intros; by rewrite Hold|].
    congruence.
  - rewrite length_insert, !length_app. simpl. split; [lia|]. split; [|split].
    + intros l Hl Hne. rewrite heap_get_insert_ne by done. by apply Hold.
    + intros k Hk. rewrite heap_get_insert_eq.
      * rewrite dict_get_set_ne by done. by rewrite Hold.
      * rewrite !length_app. simpl. lia.
    + congruence.
Qed.

Lemma ensure_type_field_frame_witness :
  exists s',
    ensure_type_field 0%nat (VDict 3%nat) member_store = Ret tt s'
    /\ dict_get (heap_get (heap s') 0%nat) "id" = Some (VInt 7)
    /\ heap_get (heap s') 3%nat = [("properties", VDict 2%nat)].
Proof.
  pose (r := ensure_type_field 0%nat (VDict 3%nat) member_store).
  assert (Hrun : r = Ret tt (outcome_state r)) by (vm_compute; reflexivity).
  exists (outcome_state r). split; [exact Hrun|].
  destruct (ensure_type_field_frame 0%nat (VDict 3%nat) member_store
              (outcome_state r) ltac:(simpl; lia) Hrun)
    as (_ & _ & _ & Hothers & Hmembers & _).
  split.
  - rewrite Hmembers by discriminate. reflexivity.
  - rewrite Hothers; [reflexivity|simpl; lia|discriminate].
Defined.

(** ** Loading schema documents *)

Lemma appended_refl s : appended s s.
Proof. repeat split. exists []. by rewrite app_nil_r. Qed.

Lemma appended_trans s1 s2 s3 : appended s1 s2 -> appended s2 s3 -> appended s1 s3.
Proof.
  intros (Ha & Hb & new1 & H1) (Hc & Hd & new2 & H2).
  split; [congruence|]. split; [congruence|].
  exists (new1 ++ new2). by rewrite H2, H1, app_assoc.
Qed.

Lemma appended_alloc d s : appended s (outcome_state (alloc d s)).
Proof. repeat split. by exists [d]. Qed.

(** [json.load] only creates objects. *)
Fixpoint load_json_appends (j : json) : forall s v s',
  load_json j s = Ret v s' -> appended s s'.
Proof.
  destruct j as [|b|z|f|t|js|kvs]; intros s v s' H; simpl in H;
    try (apply ret_inv in H as [_ <-]; apply appended_refl).
  - apply bind_ret_inv in H as (vs & s1 & Hvs & H).
    apply ret_inv in H as [_ <-]. clear v.
    revert s vs s1 Hvs. induction js as [|j' js IH]; intros s vs s1 Hvs.
    + apply ret_inv in Hvs as [_ <-]. apply appended_refl.
    + apply bind_ret_inv in Hvs as (v & s2 & Hv & Hvs).
      apply bind_ret_inv in Hvs as (vs' & s3 & Hvs' & Hvs).
      apply ret_inv in Hvs as [_ <-].
      eapply appended_trans; [eapply load_json_appends; eauto|eapply IH; eauto].
  - apply bind_ret_inv in H as (d & s1 & Hd & H).
    apply bind_ret_inv in H as (l & s2 & Hl & H).
    apply ret_inv in H as [_ <-].
    assert (appended s s1) as Hs1.
    { clear Hl. revert Hd. generalize (@nil (string * value)). revert s.
      induction kvs as [|[k j'] kvs IH]; intros s0 acc Hd.
      - apply ret_inv in Hd as [_ <-]. apply appended_refl.
      - apply bind_ret_inv in Hd as (v0 & s3 & Hv0 & Hd).
        eapply appended_trans; [eapply load_json_appends; eauto|eapply IH; eauto]. }
    eapply appended_trans; [exact Hs1|].
    unfold alloc in Hl. inversion Hl; subst. repeat split. by eexists.
Qed.

Lemma load_schema_binds fs p s v s' :
  load_schema fs p s = Ret v s' -> SCHEMA_CACHE s' !! p = Some v.
Proof.
  unfold load_schema. unfold bind at 1, gets at 1.
  destruct (SCHEMA_CACHE s !! p) as [data|] eqn:Hhit.
  - intros H. by apply ret_inv in H as [<- <-].
  - destruct (fs !! p) as [[|j]|]; try done.
    intros H. apply bind_ret_inv in H as (data & s1 & _ & H).
    apply bind_ret_inv in H as ([] & s2 & Hset & H).
    apply ret_inv in H as [<- <-].
    unfold set_schema_cache in Hset. inversion Hset; subst. simpl.
    apply lookup_insert_eq.
Qed.

(** X3.  A document that [load_schema] has returned is bound to its path
    in the schema cache, so that loading the path again returns the same
    object without reading a file and without changing anything.  The
    first load only creates objects: the sample cache, the other entries
    of the schema cache and the objects already in the store are as
    before. *)
Theorem load_schema_cached fs p s v s' :
  load_schema fs p s = Ret v s' ->
  SCHEMA_CACHE s' !! p = Some v
  /\ (forall fs', load_schema fs' p s' = Ret v s')
  /\ SAMPLE_CACHE s' = SAMPLE_CACHE s
  /\ (forall q, q <> p -> SCHEMA_CACHE s' !! q = SCHEMA_CACHE s !! q)
  /\ (exists new, heap s' = heap s ++ new).
Proof.
  unfold load_schema. unfold bind at 1, gets at 1.
  destruct (SCHEMA_CACHE s !! p) as [data|] eqn:Hhit.
  - intros H. apply ret_inv in H as [<- <-].
    split; [done|]. split.
    + intros fs'. unfold bind, gets. by rewrite Hhit.
    + split; [done|]. split; [done|]. exists []. by rewrite app_nil_r.
  - destruct (fs !! p) as [[|j]|]; try done.
    intros H. apply bind_ret_inv in H as (data & s1 & Hdata & H).
    apply bind_ret_inv in H as ([] & s2 & Hset & H).
    apply ret_inv in H as [<- <-].
    destruct (load_json_appends _ _ _ _ Hdata) as (Hc1 & Hc2 & Hnew).
    unfold set_schema_cache in Hset. inversion Hset; subst. simpl.
    split; [apply lookup_insert_eq|]. split.
    + intros fs'. unfold bind, gets. simpl. by rewrite lookup_insert_eq.
    + split; [done|]. split; [|done].
      intros q Hq. rewrite lookup_insert_ne by done. by rewrite Hc1.
Qed.

Lemma load_schema_cached_witness :
  exists v s',
    load_schema single_fs a_event_path empty_state = Ret v s'
    /\ load_schema ∅ a_event_path s' = Ret v s'.
Proof.
  pose (r := load_schema single_fs a_event_path empty_state).
  assert (Hrun : r = Ret (outcome_value VNone r) (outcome_state r))
    by (vm_compute; reflexivity).
  exists (outcome_value VNone r), (outcome_state r).
  split; [exact Hrun|].
  apply (proj1 (proj2 (load_schema_cached single_fs a_event_path empty_state
                         _ _ Hrun))).
Defined.

(** ** References *)

(** X4.  Once a reference node has been sampled, the sample is bound to
    the resolved path in the sample cache, and sampling the node again
    (at any depth below the bound, whatever the files hold by then)
    returns that very object and changes nothing: the two uses share one
    object. *)
Theorem sample_ref_memoised fs fuel l (d : dict) r base depth s v s' :
  depth <= 40 ->
  heap_get (heap s) l = d ->
  dict_get d "$ref" = Some (VStr r) ->
  sample_from_schema fs (S fuel) (VDict l) base depth s = Ret v s' ->
  SAMPLE_CACHE s' !! resolve_ref r base = Some v
  /\ (forall fs' fuel' depth',
        depth' <= 40 ->
        heap_get (heap s') l = d ->
        sample_from_schema fs' (S fuel') (VDict l) base depth' s' = Ret v s').
Proof.
  intros Hdepth Hd Hr Hrun.
  assert (Hhas : dict_has d "$ref" = true) by (unfold dict_has; by rewrite Hr).
  assert (Hhit : forall fs' fuel' depth' s0 v0,
            depth' <= 40 ->
            heap_get (heap s0) l = d ->
            SAMPLE_CACHE s0 !! resolve_ref r base = Some v0 ->
            sample_from_schema fs' (S fuel') (VDict l) base depth' s0 = Ret v0 s0).
  { intros fs' fuel' depth' s0 v0 Hdepth' Hd0 Hcache. simpl. unfold sample_body.
    rewrite (depth_guard_off _ Hdepth'). unfold bind at 1, read at 1.
    rewrite Hd0, Hhas. unfold sample_ref. rewrite Hr.
    unfold bind, gets. by rewrite Hcache. }
  assert (Hcache : SAMPLE_CACHE s' !! resolve_ref r base = Some v).
  { simpl in Hrun. unfold sample_body in Hrun.
    rewrite (depth_guard_off _ Hdepth) in Hrun.
    unfold bind at 1, read at 1 in Hrun. rewrite Hd, Hhas in Hrun.
    unfold sample_ref in Hrun. rewrite Hr in Hrun.
    unfold bind at 1, gets at 1 in Hrun.
    destruct (SAMPLE_CACHE s !! resolve_ref r base) as [v0|] eqn:Hc.
    - apply ret_inv in Hrun as [<- <-]. done.
    - apply bind_ret_inv in Hrun as (ref_schema & s1 & _ & Hrun).
      apply bind_ret_inv in Hrun as (value & s2 & _ & Hrun).
      apply bind_ret_inv in Hrun as ([] & s3 & Hset & Hrun).
      apply ret_inv in Hrun as [<- <-].
      unfold set_sample_cache in Hset. inversion Hset; subst. simpl.
      apply lookup_insert_eq. }
  split; [done|]. intros fs' fuel' depth' Hdepth' Hd'. by apply Hhit.
Qed.

Lemma sample_ref_memoised_witness :
  exists v s',
    (schema <- load_schema shared_base_fs a_event_path ;;
     sample_from_schema shared_base_fs (fuel_for 0) schema schemas_dir 0)
      empty_state = Ret v s'
    /\ SAMPLE_CACHE s' !! base_path = Some v
    /\ sample_from_schema ∅ 1 (VDict 0%nat) schemas_dir 40 s' = Ret v s'.
Proof.
  pose (r0 := load_schema shared_base_fs a_event_path empty_state).
  pose (r := sample_from_schema shared_base_fs (fuel_for 0) (VDict 0%nat)
               schemas_dir 0 (outcome_state r0)).
  assert (Hrun : sample_from_schema shared_base_fs (S 41) (VDict 0%nat)
                   schemas_dir 0 (outcome_state r0)
                 = Ret (outcome_value VNone r) (outcome_state r))
    by (vm_compute; reflexivity).
  exists (outcome_value VNone r), (outcome_state r).
  split; [vm_compute; reflexivity|].
  destruct (sample_ref_memoised shared_base_fs 41 0%nat _ "Base.json"
              schemas_dir 0 (outcome_state r0) _ _
              ltac:(lia) eq_refl eq_refl Hrun) as [Hcache Hagain].
  split; [exact Hcache|].
  apply Hagain; [lia|vm_compute; reflexivity].
Defined.

Lemma split_on_free sep s : free_of sep s = true -> split_on sep s = [s].
Proof.
  induction s as [|c s IH]; simpl; [done|].
  intros H. apply andb_prop in H as [Hc Hs].
  apply negb_true_iff in Hc. by rewrite Hc, (IH Hs).
Qed.

Lemma file_name_push base r :
  file_name r = true -> push_component base r = base ++ [r].
Proof.
  unfold file_name, push_component. intros H.
  repeat (apply andb_prop in H as [H ?]).
  repeat match goal with
         | Hn : negb _ = true |- _ => apply negb_true_iff in Hn; rewrite Hn
         end.
  done.
Qed.

(** X5.  A reference that is a plain file name resolves to that name in
    the base directory, whose parent is the base directory again, so the
    references of the referenced document resolve against the same
    directory; writing the name with a leading [./] gives the same path,
    hence the same cache entries. *)
Theorem resolve_ref_file_name r base :
  file_name r = true ->
  resolve_ref r base = base ++ [r]
  /\ parent (resolve_ref r base) = base
  /\ resolve_ref (String "." (String "/" r)) base = resolve_ref r base.
Proof.
  intros Hname.
  assert (Hfree : free_of "/" r = true).
  { unfold file_name in Hname. repeat (apply andb_prop in Hname as [Hname ?]).
    done. }
  assert (Hres : resolve_ref r base = base ++ [r]).
  { unfold resolve_ref. rewrite (split_on_free _ _ Hfree). simpl.
    rewrite (file_name_push _ _ Hname).
    destruct r as [|c r']; [done|].
    destruct (Ascii.eqb c "/") eqn:Hc.
    - simpl in Hfree. by rewrite Hc in Hfree.
    - destruct c as [[] [] [] [] [] [] [] []]; try done. }
  split; [done|]. split.
  - rewrite Hres. unfold parent. apply removelast_last.
  - rewrite Hres. unfold resolve_ref. simpl.
    rewrite (split_on_free _ _ Hfree). simpl.
    apply file_name_push. done.
Qed.

Lemma resolve_ref_file_name_witness :
  resolve_ref "Base.json" schemas_dir = base_path
  /\ parent (resolve_ref "Base.json" schemas_dir) = schemas_dir
  /\ resolve_ref "./Base.json" schemas_dir = resolve_ref "Base.json" schemas_dir.
Proof. exact (resolve_ref_file_name "Base.json" schemas_dir eq_refl). Defined.

(** ** The writer only reads *)

Lemma dumps_reads float_repr fuel : forall seen v s line s',
  dumps float_repr fuel seen v s = Ret line s' -> s' = s.
Proof.
  induction fuel as [|fuel IH]; intros seen v s line s' Hrun; [done|].
  simpl in Hrun. destruct v as [|[]|z|f|t|l|l];
    try (apply ret_inv in Hrun as [_ <-]; done).
  - apply bind_ret_inv in Hrun as (parts & s1 & Hparts & Hrun).
    apply ret_inv in Hrun as [_ <-].
    eapply (mapM_reads _ (fun _ => True)); [|exact Hparts].
    intros x s0 y s2 _ H. split; [done|]. eapply IH; eauto.
  - destruct (existsb (Nat.eqb l) seen); [done|].
    apply bind_ret_inv in Hrun as (d & s1 & Hd & Hrun).
    unfold read in Hd. inversion Hd; subst. clear Hd.
    apply bind_ret_inv in Hrun as (parts & s2 & Hparts & Hrun).
    apply ret_inv in Hrun as [_ <-].
    eapply (mapM_reads _ (fun _ => True)); [|exact Hparts].
    intros kv s0 y s3 _ H. split; [done|].
    apply bind_ret_inv in H as (part & s4 & Hpart & H).
    apply ret_inv in H as [_ <-]. eapply IH; eauto.
Qed.

Lemma write_events_read_only float_repr py_format fuel events :
  forall out s out' s',
    write_events float_repr py_format fuel events out s = Ret out' s' -> s' = s.
Proof.
  induction events as [|event rest IH]; intros out s out' s' H; simpl in H.
  - by apply ret_inv in H as [_ <-].
  - apply bind_ret_inv in H as (out1 & s1 & Hone & H).
    unfold write_event in Hone.
    apply bind_ret_inv in Hone as (line & s2 & Hline & Hone).
    apply dumps_reads in Hline as ->.
    apply bind_ret_inv in Hone as (e & s3 & He & Hone).
    unfold read in He. inversion He; subst. clear He.
    apply bind_ret_inv in Hone as (h & s4 & Hh & Hone).
    apply event_line_reads in Hh as [-> _].
    apply ret_inv in Hone as [_ <-]. eapply IH; eauto.
Qed.

(** X6.  Writing the two files changes neither the store nor the caches,
    with any encoder of floats, any formatting of a type that is not a
    string, and any nesting bound: the state [main] ends in is the state
    [generate_events] left, the events as they were stamped. *)
Theorem writer_reads_only float_repr py_format fuel fs allowed paths s out s' :
  main float_repr py_format fuel fs allowed paths s = Ret out s' ->
  exists events,
    generate_events fs allowed paths s = Ret events s'
    /\ write_fixtures float_repr py_format fuel events s' = Ret out s'.
Proof.
  unfold main. intros H.
  apply bind_ret_inv in H as (events & s1 & Hgen & H).
  exists events.
  assert (s' = s1) as ->.
  { unfold write_fixtures in H.
    apply bind_ret_inv in H as (out1 & s2 & Hw & H).
    apply ret_inv in H as [_ <-].
    eapply write_events_read_only; eauto. }
  done.
Qed.

Lemma writer_reads_only_witness :
  exists events out s',
    generate_events single_fs [VStr "a"] [a_event_path] empty_state
      = Ret events s'
    /\ write_fixtures (fun _ => "0.0") show_int 10 events s' = Ret out s'.
Proof.
  pose (r := main (fun _ => "0.0") show_int 10 single_fs [VStr "a"]
               [a_event_path] empty_state).
  assert (Hrun : r = Ret (outcome_value (EmptyString, EmptyString) r)
                         (outcome_state r))
    by (vm_compute; reflexivity).
  destruct (writer_reads_only (fun _ => "0.0") show_int 10 single_fs
              [VStr "a"] [a_event_path] empty_state _ _ Hrun)
    as (events & Hgen & Hw).
  exists events, (outcome_value (EmptyString, EmptyString) r), (outcome_state r).
  split; [exact Hgen|exact Hw].
Defined.

(** ** The assembler terminates *)

Lemma terminates_ensure_type_field event schema :
  terminates (ensure_type_field event schema).
Proof. unfold ensure_type_field. term. Qed.

Lemma terminates_stamp events : forall seq, terminates (stamp events seq).
Proof.
  induction events as [|e rest IH]; intros seq; simpl; term.
Qed.

Lemma terminates_find_missing (index : gmap string loc) allowed :
  terminates (find_missing index allowed).
Proof.
  induction allowed as [|t rest IH]; simpl; [term|].
  apply terminates_bind; [unfold not_indexed; term|intros; term].
Qed.

Lemma terminates_lookup_events (index : gmap string loc) allowed :
  terminates (lookup_events index allowed).
Proof. induction allowed as [|t rest IH]; simpl; term. Qed.

(** X7.  [generate_events] always comes to an end, with the events or
    with an exception: the fuel it gives the sampler is enough for every
    schema corpus, allow-list and starting state. *)
Theorem generate_events_terminates fs allowed paths s :
  generate_events fs allowed paths s <> OutOfFuel.
Proof.
  revert s. change (terminates (generate_events fs allowed paths)).
  unfold generate_events. apply terminates_bind.
  - generalize (∅ : gmap string loc).
    induction paths as [|p rest IH]; intros index; simpl; [term|].
    apply terminates_bind; [|intros; apply IH].
    unfold index_schema.
    apply terminates_bind; [apply terminates_load_schema|intros schema].
    apply terminates_bind.
    { apply sample_enough_fuel. unfold fuel_for. lia. }
    intros sampled.
    apply terminates_bind; [term|intros event].
    apply terminates_bind; [apply terminates_ensure_type_field|intros _].
    term.
  - intros index. unfold assemble.
    apply terminates_bind; [apply terminates_find_missing|intros missing].
    destruct missing; [|term].
    apply terminates_bind; [apply terminates_lookup_events|intros events].
    apply terminates_bind; [apply terminates_stamp|intros; term].
Qed.

(** ** The rules on the declared type *)

Lemma get_eq_str_true (d : dict) k t :
  get_eq_str d k t = true -> dict_get d k = Some (VStr t).
Proof.
  unfold get_eq_str, eq_str.
  destruct (dict_get d k) as [[| | | |t'| |]|]; try done.
  intros H. apply String.eqb_eq in H. by subst.
Qed.

Lemma get_eq_str_other (d : dict) k t t' :
  get_eq_str d k t = true -> t <> t' -> get_eq_str d k t' = false.
Proof.
  intros H Hne. apply get_eq_str_true in H.
  unfold get_eq_str, eq_str. rewrite H. by apply String.eqb_neq.
Qed.

(** A plain node goes to the rules on its type. *)
Lemma sample_plain_node fs fuel l (d : dict) base depth s :
  depth <= 40 ->
  heap_get (heap s) l = d ->
  plain_node d ->
  sample_from_schema fs (S fuel) (VDict l) base depth s =
  (if get_eq_str d "type" "object" || dict_has d "properties"
   then sample_object (sample_from_schema fs fuel) base depth l d
   else if get_eq_str d "type" "array"
        then sample_array (sample_from_schema fs fuel) base depth d
   else if get_eq_str d "type" "string" then sample_string d
   else if get_eq_str d "type" "integer" then sample_integer d
   else if get_eq_str d "type" "number" then sample_number d
   else if get_eq_str d "type" "boolean" then sample_boolean d
   else if get_eq_str d "type" "null" then ret VNone
   else new_dict) s.
Proof.
  intros Hdepth Hd (Href & Hconst & Henum & Hone & Hany & Hall).
  simpl. unfold sample_body. rewrite (depth_guard_off _ Hdepth).
  unfold bind at 1, read at 1.
  by rewrite Hd, Href, Hconst, Henum, Hone, Hany, Hall.
Qed.

Lemma repeat_x_length n : String.length (repeat_x n) = n.
Proof. induction n as [|n IH]; simpl; [done|]. by rewrite IH. Qed.

(** X8.  For a plain node of declared type "string" without
    [properties]: a [default] is returned as it is, whatever [minLength]
    holds; without a [default], when [int(minLength)] is [z], the sample
    is the letter x repeated [z] times (the empty string for [z <= 0])
    if [z] fits the machine index of the interpreter, that is
    [- 2^63 <= z < 2^63], and the sampler raises [OverflowError] if it
    does not; when [int(minLength)] raises so does the sampler; with
    neither member the sample is the empty string.  The state is never
    changed.  (The memory that a long string needs is not part of the
    embedding.) *)
Theorem string_rule fs fuel l (d : dict) base depth s :
  depth <= 40 ->
  heap_get (heap s) l = d ->
  plain_node d ->
  dict_has d "properties" = false ->
  get_eq_str d "type" "string" = true ->
  (forall v, dict_get d "default" = Some v ->
     sample_from_schema fs (S fuel) (VDict l) base depth s = Ret v s)
  /\
  (dict_get d "default" = None ->
   forall m, dict_get d "minLength" = Some m ->
     (forall z, py_int m s = Ret z s ->
        (- 2 ^ 63 <= z < 2 ^ 63 ->
         sample_from_schema fs (S fuel) (VDict l) base depth s
           = Ret (VStr (repeat_x (Z.to_nat z))) s
         /\ String.length (repeat_x (Z.to_nat z)) = Z.to_nat (Z.max z 0))
        /\ (z < - 2 ^ 63 \/ 2 ^ 63 <= z ->
            sample_from_schema fs (S fuel) (VDict l) base depth s
              = Raise OverflowError))
     /\ (forall e, py_int m s = Raise e ->
           sample_from_schema fs (S fuel) (VDict l) base depth s = Raise e))
  /\
  (dict_get d "default" = None -> dict_get d "minLength" = None ->
   sample_from_schema fs (S fuel) (VDict l) base depth s
     = Ret (VStr EmptyString) s).
Proof.
  intros Hdepth Hd Hplain Hprops Hty.
  rewrite (sample_plain_node _ _ _ _ _ _ _ Hdepth Hd Hplain).
  rewrite (get_eq_str_other _ _ _ "object" Hty) by done.
  rewrite (get_eq_str_other _ _ _ "array" Hty) by done.
  rewrite Hprops, Hty. simpl. unfold sample_string.
  split; [|split].
  - intros v ->. done.
  - intros -> m ->. split.
    + intros z Hz. unfold bind. rewrite Hz. unfold py_repeat_x, index_sized.
      split.
      * intros Hfit.
        replace (- 2 ^ 63 <=? z) with true by (symmetry; apply Z.leb_le; lia).
        replace (z <? 2 ^ 63) with true by (symmetry; apply Z.ltb_lt; lia).
        split; [done|]. rewrite repeat_x_length. lia.
      * intros [Hlow|Hhigh].
        -- replace (- 2 ^ 63 <=? z) with false
             by (symmetry; apply Z.leb_gt; lia). done.
        -- replace (z <? 2 ^ 63) with false
             by (symmetry; apply Z.ltb_ge; lia).
           by destruct (- 2 ^ 63 <=? z).
    + intros e He. unfold bind. by rewrite He.
  - intros -> ->. done.
Qed.

Lemma string_rule_witness :
  sample_from_schema ∅ 1 (VDict 0%nat) [] 40
    (node_store [("type", VStr "string"); ("minLength", VStr " +1_2 ")])
  = Ret (VStr "xxxxxxxxxxxx")
        (node_store [("type", VStr "string"); ("minLength", VStr " +1_2 ")])
  /\ sample_from_schema ∅ 1 (VDict 0%nat) [] 40
    (node_store [("type", VStr "string"); ("minLength", VInt (-4))])
  = Ret (VStr EmptyString)
        (node_store [("type", VStr "string"); ("minLength", VInt (-4))])
  /\ sample_from_schema ∅ 1 (VDict 0%nat) [] 40
    (node_store [("type", VStr "string");
                 ("minLength", VInt 9223372036854775808)])
  = Raise OverflowError
  /\ sample_from_schema ∅ 1 (VDict 0%nat) [] 40
    (node_store [("type", VStr "string"); ("minLength", VNone)])
  = Raise TypeError.
Proof.
  split; [|split; [|split]].
  - refine (proj1 (proj1 (proj1 (proj1 (proj2 (string_rule ∅ 0 0%nat _ [] 40
             (node_store [("type", VStr "string"); ("minLength", VStr " +1_2 ")])
             ltac:(lia) eq_refl
             ltac:(repeat split) eq_refl eq_refl)) eq_refl _ eq_refl) 12 eq_refl)
             _)).
    lia.
  - refine (proj1 (proj1 (proj1 (proj1 (proj2 (string_rule ∅ 0 0%nat _ [] 40
             (node_store [("type", VStr "string"); ("minLength", VInt (-4))])
             ltac:(lia) eq_refl
             ltac:(repeat split) eq_refl eq_refl)) eq_refl _ eq_refl)
             (-4) eq_refl) _)).
    lia.
  - refine (proj2 (proj1 (proj1 (proj2 (string_rule ∅ 0 0%nat _ [] 40
             (node_store [("type", VStr "string");
                          ("minLength", VInt 9223372036854775808)])
             ltac:(lia) eq_refl
             ltac:(repeat split) eq_refl eq_refl)) eq_refl _ eq_refl)
             9223372036854775808 eq_refl) _).
    right. lia.
  - exact (proj2 (proj1 (proj2 (string_rule ∅ 0 0%nat _ [] 40
             (node_store [("type", VStr "string"); ("minLength", VNone)])
             ltac:(lia) eq_refl
             ltac:(repeat split) eq_refl eq_refl)) eq_refl _ eq_refl)
             TypeError eq_refl).
Defined.

Lemma sample_items_length rec base depth items n : forall s vs s',
  sample_items rec base depth items n s = Ret vs s' -> length vs = n.
Proof.
  induction n as [|n IH]; intros s vs s' H; simpl in H.
  - by apply ret_inv in H as [<- _].
  - apply bind_ret_inv in H as (v & s1 & _ & H).
    apply bind_ret_inv in H as (vs' & s2 & Hvs & H).
    apply ret_inv in H as [<- _]. simpl. f_equal. eapply IH; eauto.
Qed.

(** X9.  For a plain node of declared type "array" without [properties]:
    with an integer [minItems] above zero, a sample that is returned is a
    list of exactly [minItems] elements; with [minItems] absent or an
    integer not above zero, the sample is the empty list, and the only
    change of state is the default dictionary built for [items]. *)
Theorem array_rule fs fuel l (d : dict) base depth s :
  depth <= 40 ->
  heap_get (heap s) l = d ->
  plain_node d ->
  dict_has d "properties" = false ->
  get_eq_str d "type" "array" = true ->
  (forall n v s',
     dict_get d "minItems" = Some (VInt n) -> 0 < n ->
     sample_from_schema fs (S fuel) (VDict l) base depth s = Ret v s' ->
     exists vs, v = VList vs /\ length vs = Z.to_nat n)
  /\
  (dict_get d "minItems" = None
   \/ (exists n, dict_get d "minItems" = Some (VInt n) /\ n <= 0) ->
   sample_from_schema fs (S fuel) (VDict l) base depth s
     = Ret (VList [])
           (State (heap s ++ [[]]) (SCHEMA_CACHE s) (SAMPLE_CACHE s))).
Proof.
  intros Hdepth Hd Hplain Hprops Hty.
  rewrite (sample_plain_node _ _ _ _ _ _ _ Hdepth Hd Hplain).
  rewrite (get_eq_str_other _ _ _ "object" Hty) by done.
  rewrite Hprops, Hty. simpl. unfold sample_array.
  split.
  - intros n v s' Hmin Hpos H. rewrite Hmin in H. simpl in H.
    apply bind_ret_inv in H as (items & s1 & _ & H).
    unfold bind at 1, py_gt0, ret at 1 in H.
    replace (0 <? n) with true in H by (symmetry; by apply Z.ltb_lt).
    unfold bind at 1, py_range, ret at 1 in H.
    apply bind_ret_inv in H as (vs & s2 & Hvs & H).
    apply ret_inv in H as [<- _]. exists vs. split; [done|].
    eapply sample_items_length; eauto.
  - intros Hmin. unfold get_or_new, new_dict, bind, alloc, ret.
    destruct Hmin as [->|(n & -> & Hn)]; simpl; [done|].
    by replace (0 <? n) with false by (symmetry; apply Z.ltb_ge; lia).
Qed.

Lemma array_rule_witness :
  (exists vs s',
     sample_from_schema ∅ 2 (VDict 0%nat) [] 0
       (node_store [("type", VStr "array"); ("minItems", VInt 3)])
     = Ret (VList vs) s'
     /\ length vs = 3%nat)
  /\ sample_from_schema ∅ 2 (VDict 0%nat) [] 0
       (node_store [("type", VStr "array"); ("minItems", VInt 0)])
     = Ret (VList [])
           (State [ [("type", VStr "array"); ("minItems", VInt 0)]; [] ] ∅ ∅).
Proof.
  split.
  - pose (r := sample_from_schema ∅ 2 (VDict 0%nat) [] 0
                 (node_store [("type", VStr "array"); ("minItems", VInt 3)])).
    assert (Hrun : sample_from_schema ∅ 2 (VDict 0%nat) [] 0
                     (node_store [("type", VStr "array"); ("minItems", VInt 3)])
                   = Ret (outcome_value VNone r) (outcome_state r))
      by (vm_compute; reflexivity).
    destruct (proj1 (array_rule ∅ 1 0%nat _ [] 0
                (node_store [("type", VStr "array"); ("minItems", VInt 3)])
                ltac:(lia) eq_refl ltac:(repeat split) eq_refl eq_refl)
                3 _ _ eq_refl ltac:(lia) Hrun) as (vs & Hv & Hlen).
    exists vs, (outcome_state r). rewrite <- Hv. split; [exact Hrun|exact Hlen].
  - apply (proj2 (array_rule ∅ 1 0%nat _ [] 0
             (node_store [("type", VStr "array"); ("minItems", VInt 0)])
             ltac:(lia) eq_refl ltac:(repeat split) eq_refl eq_refl)).
    right. exists 0. split; [reflexivity|lia].
Defined.

(** ** Assembly over distinct events *)

Lemma missing_types_covered (index : gmap string loc) allowed :
  (forall t, In t allowed -> is_Some (index !! t)) ->
  missing_types index allowed = [].
Proof.
  induction allowed as [|t rest IH]; intros Hcov; simpl; [done|].
  destruct (Hcov t (or_introl eq_refl)) as [l Hl]. rewrite Hl.
  apply IH. intros t' Ht'. apply Hcov. by right.
Qed.

Lemma lookup_events_listed (index : gmap string loc) allowed s :
  (forall t, In t allowed -> is_Some (index !! t)) ->
  exists events,
    lookup_events index (map VStr allowed) s = Ret events s
    /\ Forall2 (fun t l => index !! t = Some l) allowed events.
Proof.
  induction allowed as [|t rest IH]; intros Hcov; simpl.
  - exists []. split; [done|constructor].
  - destruct (Hcov t (or_introl eq_refl)) as [l Hl]. rewrite Hl.
    destruct IH as (events & Hev & Hall).
    { intros t' Ht'. apply Hcov. by right. }
    exists (l :: events). unfold bind, ret. rewrite Hev.
    split; [done|]. by constructor.
Qed.

Lemma listed_events_distinct (index : gmap string loc) allowed events :
  List.NoDup allowed ->
  (forall t1 t2 l, In t1 allowed -> In t2 allowed ->
     index !! t1 = Some l -> index !! t2 = Some l -> t1 = t2) ->
  Forall2 (fun t l => index !! t = Some l) allowed events ->
  List.NoDup events.
Proof.
  intros Hnd Hinj Hall. revert Hnd Hinj.
  induction Hall as [|t l allowed events Htl Hall IH]; intros Hnd Hinj.
  - constructor.
  - inversion Hnd as [|? ? Hnotin Hnd']; subst. constructor.
    + intros Hin. apply Hnotin.
      assert (exists t', In t' allowed /\ index !! t' = Some l) as (t' & Hin' & Ht').
      { clear -Hall Hin. induction Hall as [|t0 l0 a e H0 Hall IH]; [done|].
        destruct Hin as [->|Hin].
        - exists t0. split; [by left|done].
        - destruct (IH Hin) as (t' & Hin' & Ht'). exists t'. split; [by right|done]. }
      rewrite (Hinj t t' l); [done|by left|by right|done|done].
    + apply IH; [done|]. intros t1 t2 l0 H1 H2. apply Hinj; by right.
Qed.

(** X10.  When the allow-list names each type once, every name has an
    event in the index, and distinct names have distinct event objects,
    assembly returns the events of the names in allow-list order,
    carrying the sequence numbers 1, 2, ..., N in that order, and no
    other member of any object has changed. *)
Theorem assemble_distinct_contiguous (index : gmap string loc) allowed s :
  List.NoDup allowed ->
  (forall t, In t allowed ->
     exists l, index !! t = Some l /\ (l < length (heap s))%nat) ->
  (forall t1 t2 l, In t1 allowed -> In t2 allowed ->
     index !! t1 = Some l -> index !! t2 = Some l -> t1 = t2) ->
  exists events s',
    assemble (map VStr allowed) index s = Ret events s'
    /\ Forall2 (fun t l => index !! t = Some l) allowed events
    /\ sequence_numbers s' events
       = map (fun i => Some (VInt (Z.of_nat (S i)))) (seq 0 (length allowed))
    /\ (forall l k, k <> "sequence_number" ->
          dict_get (heap_get (heap s') l) k = dict_get (heap_get (heap s) l) k).
Proof.
  intros Hnd Hcov Hinj.
  assert (Hsome : forall t, In t allowed -> is_Some (index !! t)).
  { intros t Ht. destruct (Hcov t Ht) as (l & Hl & _). eauto. }
  destruct (lookup_events_listed index allowed s Hsome) as (events & Hev & Hall).
  pose proof (listed_events_distinct _ _ _ Hnd Hinj Hall) as Hdistinct.
  assert (Hvalid : forall l, In l events -> (l < length (heap s))%nat).
  { clear -Hall Hcov. induction Hall as [|t l a e Htl Hall IH]; [done|].
    intros l0 [<-|Hin].
    - destruct (Hcov t (or_introl eq_refl)) as (l' & Hl' & Hlt).
      assert (Some l = Some l') as Heq
        by (etransitivity; [symmetry; exact Htl|exact Hl']).
      by inversion Heq.
    - apply IH; [|done]. intros t' Ht'. apply Hcov. by right. }
  destruct (stamp_distinct_events events s Hdistinct Hvalid) as (s' & Hrun & Hnums).
  destruct (stamp_spec events 1 s) as (s'' & Hrun' & _ & _ & _ & Hframe & _).
  assert (s'' = s') as -> by congruence.
  exists events, s'. split; [|split; [done|split; [|done]]].
  - unfold assemble, bind at 1. rewrite find_missing_strs.
    rewrite (missing_types_covered _ _ Hsome). simpl.
    unfold bind, ret. by rewrite Hev, Hrun.
  - rewrite Hnums. by rewrite (Forall2_length _ _ _ Hall).
Qed.

Lemma assemble_distinct_witness :
  exists s',
    assemble (map VStr ["c"; "a"; "b"]) three_events_index three_events_store
      = Ret [2; 0; 1]%nat s'
    /\ sequence_numbers s' [2; 0; 1]%nat
       = [Some (VInt 1); Some (VInt 2); Some (VInt 3)].
Proof.
  destruct (assemble_distinct_contiguous three_events_index ["c"; "a"; "b"]
              three_events_store) as (events & s' & Hrun & Hall & Hnums & _).
  - repeat constructor; simpl; intuition discriminate.
  - intros t [<-|[<-|[<-|[]]]]; eexists; (split; [reflexivity|simpl; lia]).
  - intros t1 t2 l [<-|[<-|[<-|[]]]] [<-|[<-|[<-|[]]]] H1 H2;
      try reflexivity; vm_compute in H1, H2; congruence.
  - assert (events = [2; 0; 1]%nat) as ->.
    { vm_compute in Hrun. congruence. }
    exists s'. split; [exact Hrun|exact Hnums].
Defined.

(** ** The caches only grow *)

Lemma settled_refl s : settled s s.
Proof. repeat split; auto. Qed.

Lemma settled_trans s1 s2 s3 : settled s1 s2 -> settled s2 s3 -> settled s1 s3.
Proof.
  intros [(Ha & Hb & Hc) Hi] [(Ha' & Hb' & Hc') Hi'].
  split; [split; [lia|split]|]; auto.
Qed.

(** A step that leaves the caches alone and does not shrink the store. *)
Lemma settled_store s s' :
  (length (heap s) <= length (heap s'))%nat ->
  SCHEMA_CACHE s' = SCHEMA_CACHE s ->
  SAMPLE_CACHE s' = SAMPLE_CACHE s ->
  settled s s'.
Proof.
  intros Hlen Hc1 Hc2. unfold settled, grown, samples_of_loaded.
  rewrite Hc1, Hc2. repeat split; auto.
Qed.

Lemma keeps_ret {A} (a : A) : keeps settled (ret a).
Proof. intros s b s' H. apply ret_inv in H as [_ <-]. apply settled_refl. Qed.

Lemma keeps_raise {A} e : keeps settled (@raise A e).
Proof. intros s b s' H. done. Qed.

Lemma keeps_bind {A B} (m : M A) (k : A -> M B) :
  keeps settled m -> (forall a, keeps settled (k a)) -> keeps settled (bind m k).
Proof.
  intros Hm Hk s b s' H. apply bind_ret_inv in H as (a & s1 & Ha & H).
  eapply settled_trans; [eapply Hm; eauto|eapply Hk; eauto].
Qed.

Lemma keeps_read l : keeps settled (read l).
Proof. intros s b s' H. inversion H; subst. apply settled_refl. Qed.

Lemma keeps_gets {A} (f : state -> A) : keeps settled (gets f).
Proof. intros s b s' H. inversion H; subst. apply settled_refl. Qed.

Lemma keeps_write l d : keeps settled (write l d).
Proof.
  intros s b s' H. inversion H; subst.
  apply settled_store; simpl; [|done|done]. by rewrite length_insert.
Qed.

Lemma keeps_alloc d : keeps settled (alloc d).
Proof.
  intros s b s' H. inversion H; subst.
  apply settled_store; simpl; [|done|done]. rewrite length_app. lia.
Qed.

Create HintDb keeps.

#[local] Hint Resolve keeps_ret keeps_raise keeps_read keeps_gets keeps_write
  keeps_alloc : keeps.

Ltac keeps_step :=
  match goal with
  | |- keeps _ (bind _ _) => apply keeps_bind; [|intros ?]
  | |- keeps _ (match ?x with _ => _ end) => destruct x
  | |- keeps _ (if ?x then _ else _) => destruct x
  | |- keeps _ _ => solve [auto with keeps]
  end.

Ltac keeps_all := repeat keeps_step.

Lemma keeps_new_dict : keeps settled new_dict.
Proof. unfold new_dict. keeps_all. Qed.

Lemma keeps_setitem l k v : keeps settled (setitem l k v).
Proof. unfold setitem. keeps_all. Qed.

Lemma keeps_py_iter v : keeps settled (py_iter v).
Proof. unfold py_iter. keeps_all. Qed.

Lemma keeps_py_index0 v : keeps settled (py_index0 v).
Proof. unfold py_index0. keeps_all. Qed.

Lemma keeps_py_gt0 v : keeps settled (py_gt0 v).
Proof. unfold py_gt0. keeps_all. Qed.

Lemma keeps_py_range v : keeps settled (py_range v).
Proof. unfold py_range. keeps_all. Qed.

Lemma keeps_py_int v : keeps settled (py_int v).
Proof. unfold py_int. keeps_all. Qed.

Lemma keeps_truthy v : keeps settled (truthy v).
Proof. unfold truthy. keeps_all. Qed.

Lemma keeps_as_dict v : keeps settled (as_dict v).
Proof. unfold as_dict. keeps_all. Qed.

#[local] Hint Resolve keeps_new_dict keeps_setitem keeps_py_iter keeps_py_index0
  keeps_py_gt0 keeps_py_range keeps_py_int keeps_truthy keeps_as_dict : keeps.

Lemma keeps_get_or_new d k : keeps settled (get_or_new d k).
Proof. unfold get_or_new. keeps_all. Qed.

#[local] Hint Resolve keeps_get_or_new : keeps.

Lemma appended_settled s s' : appended s s' -> settled s s'.
Proof.
  intros (Hc1 & Hc2 & new & Hnew).
  apply settled_store; [|done|done]. rewrite Hnew, length_app. lia.
Qed.

(** Loading binds one more path, and only when it was not bound. *)
Lemma keeps_load_schema fs p : keeps settled (load_schema fs p).
Proof.
  intros s v s' H. unfold load_schema in H.
  unfold bind at 1, gets at 1 in H.
  destruct (SCHEMA_CACHE s !! p) as [data|] eqn:Hmiss.
  { apply ret_inv in H as [_ <-]. apply settled_refl. }
  destruct (fs !! p) as [[|j]|]; try done.
  apply bind_ret_inv in H as (data & s1 & Hdata & H).
  apply bind_ret_inv in H as ([] & s2 & Hset & H).
  apply ret_inv in H as [_ <-].
  destruct (load_json_appends _ _ _ _ Hdata) as (Hc1 & Hc2 & new & Hnew).
  unfold set_schema_cache in Hset. inversion Hset; subst. clear Hset.
  unfold settled, grown, samples_of_loaded. simpl. rewrite Hc1, Hc2.
  split; [split; [|split]|].
  - rewrite Hnew, length_app. lia.
  - intros q v0 Hq. rewrite lookup_insert_ne; [done|]. congruence.
  - done.
  - intros Hinv q Hq. destruct (decide (p = q)) as [->|Hne].
    + rewrite lookup_insert_eq. eauto.
    + rewrite lookup_insert_ne by done. by apply Hinv.
Qed.

#[local] Hint Resolve keeps_load_schema : keeps.

Section SettledBody.

Variable fs : gmap path file.
Variable rec : value -> path -> Z -> M value.
Variable base_dir : path.
Variable depth : Z.
Hypothesis rec_keeps : forall schema base, keeps settled (rec schema base (depth + 1)).

#[local] Hint Resolve rec_keeps : keeps.

(** The sample is cached for a path whose document is cached. *)
Lemma keeps_sample_ref d : keeps settled (sample_ref fs rec base_dir depth d).
Proof.
  unfold sample_ref.
  destruct (dict_get d "$ref") as [[| | | |ref| |]|]; try apply keeps_raise.
  intros s v s' H.
  unfold bind at 1, gets at 1 in H.
  destruct (SAMPLE_CACHE s !! resolve_ref ref base_dir) as [v0|].
  { apply ret_inv in H as [_ <-]. apply settled_refl. }
  apply bind_ret_inv in H as (ref_schema & s1 & Hload & H).
  apply bind_ret_inv in H as (value & s2 & Hrec & H).
  apply bind_ret_inv in H as ([] & s3 & Hset & H).
  apply ret_inv in H as [_ <-].
  pose proof (keeps_load_schema _ _ _ _ _ Hload) as Hs1.
  pose proof (rec_keeps _ _ _ _ _ Hrec) as Hs2.
  pose proof (load_schema_binds _ _ _ _ _ Hload) as Hbound.
  eapply settled_trans; [exact Hs1|]. eapply settled_trans; [exact Hs2|].
  destruct Hs2 as [(_ & Hschema & _) _]. apply Hschema in Hbound.
  unfold set_sample_cache in Hset. inversion Hset; subst. clear Hset.
  unfold settled, grown, samples_of_loaded. simpl.
  split; [split; [lia|split; [done|]]|].
  - intros q Hq. destruct (decide (resolve_ref ref base_dir = q)) as [->|Hne].
    + rewrite lookup_insert_eq. eauto.
    + by rewrite lookup_insert_ne.
  - intros Hinv q. destruct (decide (resolve_ref ref base_dir = q)) as [<-|Hne].
    + intros _. eauto.
    + rewrite lookup_insert_ne by done. apply Hinv.
Qed.

Lemma keeps_oneOf_loop opts : keeps settled (oneOf_loop rec base_dir depth opts).
Proof. induction opts as [|o opts IH]; simpl; keeps_all. Qed.

Lemma keeps_allOf_merge merged val : keeps settled (allOf_merge merged val).
Proof. unfold allOf_merge. keeps_all. Qed.

#[local] Hint Resolve keeps_allOf_merge : keeps.

Lemma keeps_allOf_loop opts : forall merged,
  keeps settled (allOf_loop rec base_dir depth opts merged).
Proof. induction opts as [|o opts IH]; intros merged; simpl; keeps_all. Qed.

Lemma keeps_props_get props name : keeps settled (props_get props name).
Proof. unfold props_get. keeps_all. Qed.

#[local] Hint Resolve keeps_props_get : keeps.

Lemma keeps_required_loop props obj names :
  keeps settled (required_loop rec base_dir depth props obj names).
Proof. induction names as [|n names IH]; simpl; keeps_all. Qed.

Lemma keeps_sample_items items n :
  keeps settled (sample_items rec base_dir depth items n).
Proof. induction n as [|n IH]; simpl; keeps_all. Qed.

#[local] Hint Resolve keeps_sample_ref keeps_oneOf_loop keeps_allOf_loop
  keeps_required_loop keeps_sample_items : keeps.

Lemma keeps_sample_body schema :
  keeps settled (sample_body fs rec base_dir depth schema).
Proof.
  unfold sample_body, sample_oneOf, sample_anyOf, sample_allOf, sample_object,
    sample_array, sample_string, sample_integer, sample_number, sample_boolean,
    py_repeat_x.
  keeps_all.
Qed.

End SettledBody.

Lemma keeps_sample fs fuel : forall schema base depth,
  keeps settled (sample_from_schema fs fuel schema base depth).
Proof.
  induction fuel as [|fuel IH]; intros schema base depth; [done|].
  simpl. apply keeps_sample_body. intros schema' base'. apply IH.
Qed.

Lemma keeps_ensure_type_field event schema :
  keeps settled (ensure_type_field event schema).
Proof. unfold ensure_type_field. keeps_all. Qed.

Lemma keeps_stamp events : forall seq, keeps settled (stamp events seq).
Proof.
  induction events as [|e rest IH]; intros seq; simpl; keeps_all.
Qed.

Lemma keeps_find_missing (index : gmap string loc) allowed :
  keeps settled (find_missing index allowed).
Proof.
  induction allowed as [|t rest IH]; simpl; [keeps_all|].
  apply keeps_bind; [unfold not_indexed; keeps_all|intros; keeps_all].
Qed.

Lemma keeps_lookup_events (index : gmap string loc) allowed :
  keeps settled (lookup_events index allowed).
Proof. induction allowed as [|t rest IH]; simpl; keeps_all. Qed.

Lemma keeps_index_schemas fs allowed paths : forall index,
  keeps settled (index_schemas fs allowed paths index).
Proof.
  induction paths as [|p rest IH]; intros index; simpl; [keeps_all|].
  apply keeps_bind; [|intros; apply IH].
  unfold index_schema.
  apply keeps_bind; [apply keeps_load_schema|intros schema].
  apply keeps_bind; [apply keeps_sample|intros sampled].
  apply keeps_bind; [keeps_all|intros event].
  apply keeps_bind; [apply keeps_ensure_type_field|intros _].
  keeps_all.
Qed.

(** X11.  Over a call of the sampler that returns, and over a run of
    [generate_events] that returns, the store does not shrink, the schema
    cache keeps every binding it had, unchanged, and the sample cache
    keeps every path it had; and if every path with a cached sample had a
    cached document before, so it is after. *)
Theorem caches_only_grow fs :
  (forall fuel schema base depth s v s',
     sample_from_schema fs fuel schema base depth s = Ret v s' ->
     grown s s' /\ (samples_of_loaded s -> samples_of_loaded s'))
  /\
  (forall allowed paths s events s',
     generate_events fs allowed paths s = Ret events s' ->
     grown s s' /\ (samples_of_loaded s -> samples_of_loaded s')).
Proof.
  split.
  - intros fuel schema base depth s v s' H. eapply keeps_sample; eauto.
  - intros allowed paths s events s' H. revert s events s' H.
    change (keeps settled (generate_events fs allowed paths)).
    unfold generate_events.
    apply keeps_bind; [apply keeps_index_schemas|intros index].
    unfold assemble.
    apply keeps_bind; [apply keeps_find_missing|intros missing].
    destruct missing; [|keeps_all].
    apply keeps_bind; [apply keeps_lookup_events|intros events].
    apply keeps_bind; [apply keeps_stamp|intros; keeps_all].
Qed.

Lemma caches_only_grow_witness :
  exists events s',
    generate_events shared_base_fs [VStr "a"; VStr "b"]
      [a_event_path; b_event_path] empty_state = Ret events s'
    /\ grown empty_state s'
    /\ samples_of_loaded s'.
Proof.
  pose (r := generate_events shared_base_fs [VStr "a"; VStr "b"]
               [a_event_path; b_event_path] empty_state).
  assert (Hrun : generate_events shared_base_fs [VStr "a"; VStr "b"]
                   [a_event_path; b_event_path] empty_state
                 = Ret (outcome_value [] r) (outcome_state r))
    by (vm_compute; reflexivity).
  destruct (proj2 (caches_only_grow shared_base_fs) _ _ _ _ _ Hrun)
    as [Hgrown Hinv].
  exists (outcome_value [] r), (outcome_state r).
  split; [exact Hrun|]. split; [exact Hgrown|].
  apply Hinv. intros p [v Hp]. simpl in Hp.
  rewrite (lookup_empty (M:=gmap path)) in Hp. discriminate.
Defined.

(** ** Objects out of reach *)

Lemma avoids_list a vs : avoids a (VList vs) <-> Forall (avoids a) vs.
Proof.
  induction vs as [|v vs IH]; simpl.
  - split; [constructor|done].
  - split.
    + intros [Hv Hvs]. constructor; [done|]. by apply IH.
    + intros H. inversion H; subst. split; [done|]. by apply IH.
Qed.

Lemma dict_get_avoids a (d : dict) k v :
  dict_avoids a d -> dict_get d k = Some v -> avoids a v.
Proof.
  induction 1 as [|[k' v'] d Hv Hd IH]; simpl; [done|].
  destruct (String.eqb k' k); [|done]. by intros [= <-].
Qed.

Lemma dict_set_avoids a (d : dict) k v :
  dict_avoids a d -> avoids a v -> dict_avoids a (dict_set d k v).
Proof.
  intros Hd Hv. induction Hd as [|[k' v'] d Hv' Hd IH]; simpl.
  - by repeat constructor.
  - destruct (String.eqb k' k); constructor; done.
Qed.

Lemma dict_update_avoids a (d2 : dict) : forall d : dict,
  dict_avoids a d -> dict_avoids a d2 -> dict_avoids a (dict_update d d2).
Proof.
  unfold dict_update.
  induction d2 as [|[k v] d2 IH]; intros d Hd Hd2; simpl; [done|].
  inversion Hd2; subst. apply IH; [|done]. by apply dict_set_avoids.
Qed.

Lemma default_avoids a (d : dict) k dflt :
  dict_avoids a d -> avoids a dflt -> avoids a (default dflt (dict_get d k)).
Proof.
  intros Hd Hdflt. destruct (dict_get d k) as [v|] eqn:E; simpl; [|done].
  eapply dict_get_avoids; eauto.
Qed.

Lemma heap_get_avoids a (h : list dict) l :
  Forall (dict_avoids a) h -> dict_avoids a (heap_get h l).
Proof.
  intros Hh. unfold heap_get. destruct (h !! l) as [d|] eqn:E; simpl.
  - eapply (proj1 (Forall_lookup _ _) Hh); eauto.
  - constructor.
Qed.

Lemma chars_avoid a t : Forall (avoids a) (chars t).
Proof.
  unfold chars. induction (list_ascii_of_string t); simpl; constructor; done.
Qed.

Lemma keys_avoid a (d : dict) : Forall (avoids a) (map VStr (dict_keys d)).
Proof. unfold dict_keys. induction d; simpl; constructor; done. Qed.

(** *** The rules of [spares] *)

Lemma spares_ret {A} a (ok : A -> Prop) x : ok x -> spares a ok (ret x).
Proof. intros Hx s y s' Hs H. apply ret_inv in H as [<- <-]. done. Qed.

Lemma spares_raise {A} a (ok : A -> Prop) e : spares a ok (raise e).
Proof. intros s y s' Hs H. done. Qed.

Lemma spares_bind {A B} a (ok1 : A -> Prop) (ok2 : B -> Prop) m k :
  spares a ok1 m ->
  (forall x, ok1 x -> spares a ok2 (k x)) ->
  spares a ok2 (bind m k).
Proof.
  intros Hm Hk s y s' Hs H. apply bind_ret_inv in H as (x & s1 & Hx & H).
  destruct (Hm _ _ _ Hs Hx) as (Hok & Hs1 & Heq1).
  destruct (Hk _ Hok _ _ _ Hs1 H) as (Hok2 & Hs2 & Heq2).
  split; [done|]. split; [done|]. congruence.
Qed.

Lemma spares_weaken {A} a (ok1 ok2 : A -> Prop) m :
  (forall x, ok1 x -> ok2 x) -> spares a ok1 m -> spares a ok2 m.
Proof.
  intros Hok Hm s y s' Hs H. destruct (Hm _ _ _ Hs H) as (H1 & H2 & H3). auto.
Qed.

Lemma spares_read a l : spares a (dict_avoids a) (read l).
Proof.
  intros s y s' Hs H. inversion H; subst. split; [|done].
  destruct Hs as (_ & Hh & _). by apply heap_get_avoids.
Qed.

Lemma spares_gets_heap a : spares a (Forall (dict_avoids a)) (gets heap).
Proof.
  intros s y s' Hs H. inversion H; subst. split; [|done]. by destruct Hs as (_ & Hh & _).
Qed.

Lemma spares_gets_samples a :
  spares a (fun c : gmap path value => forall p v, c !! p = Some v -> avoids a v)
    (gets SAMPLE_CACHE).
Proof.
  intros s y s' Hs H. inversion H; subst. split; [|done].
  by destruct Hs as (_ & _ & _ & Hc).
Qed.

Lemma spares_gets_schemas a :
  spares a (fun c : gmap path value => forall p v, c !! p = Some v -> avoids a v)
    (gets SCHEMA_CACHE).
Proof.
  intros s y s' Hs H. inversion H; subst. split; [|done].
  by destruct Hs as (_ & _ & Hc & _).
Qed.

Lemma spares_write a l d :
  l <> a -> dict_avoids a d -> spares a (fun _ => True) (write l d).
Proof.
  intros Hl Hd s y s' (Ha & Hh & Hc1 & Hc2) H. inversion H; subst.
  unfold unreachable. cbn [heap SCHEMA_CACHE SAMPLE_CACHE].
  split; [done|]. split.
  - split; [by rewrite length_insert|]. split; [|done].
    by apply Forall_insert.
  - by apply heap_get_insert_ne.
Qed.

Lemma spares_alloc a d :
  dict_avoids a d -> spares a (fun l => l <> a) (alloc d).
Proof.
  intros Hd s y s' (Ha & Hh & Hc1 & Hc2) H. inversion H; subst.
  unfold unreachable. cbn [heap SCHEMA_CACHE SAMPLE_CACHE].
  split; [lia|]. split.
  - split; [rewrite length_app; simpl; lia|]. split; [|done].
    apply Forall_app. split; [done|]. by repeat constructor.
  - by apply heap_get_app_l.
Qed.

Lemma spares_set_schema_cache a p v :
  avoids a v -> spares a (fun _ => True) (set_schema_cache p v).
Proof.
  intros Hv s y s' (Ha & Hh & Hc1 & Hc2) H. inversion H; subst.
  unfold unreachable. cbn [heap SCHEMA_CACHE SAMPLE_CACHE].
  split; [done|]. split; [|done]. split; [done|]. split; [done|]. split; [|done].
  intros q w. destruct (decide (p = q)) as [->|Hne].
  - rewrite lookup_insert_eq. by intros [= <-].
  - rewrite lookup_insert_ne by done. apply Hc1.
Qed.

Lemma spares_set_sample_cache a p v :
  avoids a v -> spares a (fun _ => True) (set_sample_cache p v).
Proof.
  intros Hv s y s' (Ha & Hh & Hc1 & Hc2) H. inversion H; subst.
  unfold unreachable. cbn [heap SCHEMA_CACHE SAMPLE_CACHE].
  split; [done|]. split; [|done]. split; [done|]. split; [done|]. split; [done|].
  intros q w. destruct (decide (p = q)) as [->|Hne].
  - rewrite lookup_insert_eq. by intros [= <-].
  - rewrite lookup_insert_ne by done. apply Hc2.
Qed.

Lemma spares_new_dict a : spares a (avoids a) new_dict.
Proof.
  unfold new_dict. eapply spares_bind; [apply spares_alloc; constructor|].
  intros l Hl. by apply spares_ret.
Qed.

Lemma spares_setitem a l k v :
  l <> a -> avoids a v -> spares a (fun _ => True) (setitem l k v).
Proof.
  intros Hl Hv. unfold setitem. eapply spares_bind; [apply spares_read|].
  intros d Hd. apply spares_write; [done|]. by apply dict_set_avoids.
Qed.

Lemma spares_py_iter a v :
  avoids a v -> spares a (Forall (avoids a)) (py_iter v).
Proof.
  intros Hv. destruct v; simpl; try apply spares_raise.
  - apply spares_ret. apply chars_avoid.
  - apply spares_ret. by apply avoids_list.
  - eapply spares_bind; [apply spares_read|]. intros d _.
    apply spares_ret. apply keys_avoid.
Qed.

Lemma spares_py_index0 a v :
  avoids a v -> spares a (avoids a) (py_index0 v).
Proof.
  intros Hv. destruct v as [| | | |[|c t]|[|x l]|]; simpl;
    try apply spares_raise; apply spares_ret; [done|].
  by destruct Hv.
Qed.

(** A computation that only looks at its argument. *)
Lemma spares_pure {A} a (m : M A) :
  (forall s, m s = Raise TypeError \/ m s = Raise ValueError
             \/ m s = Raise OverflowError \/ exists x, m s = Ret x s) ->
  spares a (fun _ => True) m.
Proof.
  intros Hm s y s' Hs H.
  destruct (Hm s) as [E|[E|[E|[x E]]]]; rewrite E in H; try done.
  inversion H; subst. done.
Qed.

Lemma spares_py_gt0 a v : spares a (fun _ => True) (py_gt0 v).
Proof. apply spares_pure. intros s. destruct v; simpl; eauto. Qed.

Lemma spares_py_range a v : spares a (fun _ => True) (py_range v).
Proof. apply spares_pure. intros s. destruct v; simpl; eauto. Qed.

Lemma spares_py_int a v : spares a (fun _ => True) (py_int v).
Proof.
  apply spares_pure. intros s.
  destruct v as [| | |[]|t| |]; simpl; eauto.
  destruct (int_of_str t); simpl; eauto.
  destruct (max_str_digits <? digit_count t)%nat; eauto.
Qed.

Lemma spares_truthy a v : spares a (fun _ => True) (truthy v).
Proof.
  destruct v as [| | |[]| | |l]; simpl; try (apply spares_ret; done).
  eapply spares_bind; [apply spares_read|]. intros d _. by apply spares_ret.
Qed.

Lemma spares_as_dict a v : spares a (dict_avoids a) (as_dict v).
Proof. destruct v; simpl; try apply spares_raise. apply spares_read. Qed.

Lemma spares_get_or_new a d k :
  dict_avoids a d -> spares a (avoids a) (get_or_new d k).
Proof.
  intros Hd. unfold get_or_new.
  eapply spares_bind; [apply spares_new_dict|].
  intros dflt Hdflt. apply spares_ret. by apply default_avoids.
Qed.

Fixpoint load_json_spares a (j : json) : spares a (avoids a) (load_json j).
Proof.
  destruct j as [|b|z|f|t|js|kvs]; simpl; try (by apply spares_ret).
  - eapply spares_bind with (ok1 := Forall (avoids a)).
    + induction js as [|j' js IH].
      * apply spares_ret. constructor.
      * eapply spares_bind; [apply (load_json_spares a j')|]. intros v Hv.
        eapply spares_bind; [apply IH|]. intros vs Hvs.
        apply spares_ret. by constructor.
    + intros vs Hvs. apply spares_ret. by apply avoids_list.
  - eapply spares_bind with (ok1 := dict_avoids a).
    + assert (dict_avoids a []) as Hacc by constructor.
      revert Hacc. generalize (@nil (string * value)).
      induction kvs as [|[k j'] kvs IH]; intros acc Hacc.
      * by apply spares_ret.
      * eapply spares_bind; [apply (load_json_spares a j')|]. intros v Hv.
        apply IH. by apply dict_set_avoids.
    + intros d Hd. eapply spares_bind; [by apply spares_alloc|].
      intros l Hl. by apply spares_ret.
Qed.

Lemma spares_load_schema a fs p : spares a (avoids a) (load_schema fs p).
Proof.
  unfold load_schema. eapply spares_bind; [apply spares_gets_schemas|].
  intros cache Hcache. destruct (cache !! p) as [data|] eqn:Hhit.
  - apply spares_ret. eauto.
  - destruct (fs !! p) as [[|j]|]; try apply spares_raise.
    eapply spares_bind; [apply load_json_spares|]. intros data Hdata.
    eapply spares_bind; [by apply spares_set_schema_cache|]. intros _ _.
    by apply spares_ret.
Qed.

Section SparesBody.

Variable fs : gmap path file.
Variable a : loc.
Variable rec : value -> path -> Z -> M value.
Variable base_dir : path.
Variable depth : Z.

Hypothesis rec_spares : forall schema base,
  avoids a schema -> spares a (avoids a) (rec schema base (depth + 1)).

Lemma spares_sample_ref d :
  spares a (avoids a) (sample_ref fs rec base_dir depth d).
Proof.
  unfold sample_ref.
  destruct (dict_get d "$ref") as [[| | | |ref| |]|]; try apply spares_raise.
  eapply spares_bind; [apply spares_gets_samples|]. intros cache Hcache.
  destruct (cache !! resolve_ref ref base_dir) as [v|] eqn:Hhit.
  - apply spares_ret. eauto.
  - eapply spares_bind; [apply spares_load_schema|]. intros ref_schema Href.
    eapply spares_bind; [by apply rec_spares|]. intros value Hvalue.
    eapply spares_bind; [by apply spares_set_sample_cache|]. intros _ _.
    by apply spares_ret.
Qed.

Lemma spares_oneOf_loop opts :
  Forall (avoids a) opts ->
  spares a (avoids a) (oneOf_loop rec base_dir depth opts).
Proof.
  induction 1 as [|o opts Ho Hopts IH]; simpl; [by apply spares_ret|].
  eapply spares_bind; [apply spares_gets_heap|]. intros h _.
  destruct (null_typed h o); [done|]. by apply rec_spares.
Qed.

Lemma spares_sample_oneOf options :
  avoids a options ->
  spares a (avoids a) (sample_oneOf rec base_dir depth options).
Proof.
  intros Ho. unfold sample_oneOf.
  eapply spares_bind; [by apply spares_py_iter|]. apply spares_oneOf_loop.
Qed.

Lemma spares_sample_anyOf options :
  avoids a options ->
  spares a (avoids a) (sample_anyOf rec base_dir depth options).
Proof.
  intros Ho. unfold sample_anyOf.
  eapply spares_bind; [by apply spares_py_iter|]. intros opts _.
  eapply spares_bind; [apply spares_gets_heap|]. intros h _.
  destruct (existsb (null_typed h) opts); [by apply spares_ret|].
  eapply spares_bind; [by apply spares_py_index0|]. intros first Hfirst.
  by apply rec_spares.
Qed.

Lemma spares_allOf_merge merged val :
  avoids a merged -> avoids a val ->
  spares a (avoids a) (allOf_merge merged val).
Proof.
  intros Hm Hv. unfold allOf_merge.
  destruct merged as [| | | | | |lm]; try (by apply spares_ret).
  destruct val as [| | | | | |lv]; try (by apply spares_ret).
  eapply spares_bind; [apply spares_read|]. intros dm Hdm.
  eapply spares_bind; [apply spares_read|]. intros dv Hdv.
  eapply spares_bind; [apply spares_write; [done|by apply dict_update_avoids]|].
  intros _ _. by apply spares_ret.
Qed.

Lemma spares_allOf_loop opts : forall merged,
  Forall (avoids a) opts -> avoids a merged ->
  spares a (avoids a) (allOf_loop rec base_dir depth opts merged).
Proof.
  induction opts as [|o opts IH]; intros merged Hopts Hm; simpl;
    [by apply spares_ret|].
  inversion Hopts; subst.
  eapply spares_bind; [by apply rec_spares|]. intros val Hval.
  eapply spares_bind; [by apply spares_allOf_merge|]. intros merged' Hm'.
  by apply IH.
Qed.

Lemma spares_sample_allOf options :
  avoids a options ->
  spares a (avoids a) (sample_allOf rec base_dir depth options).
Proof.
  intros Ho. unfold sample_allOf.
  eapply spares_bind; [by apply spares_py_iter|]. intros opts Hopts.
  by apply spares_allOf_loop.
Qed.

Lemma spares_props_get props name :
  spares a (avoids a) (props_get props name).
Proof.
  unfold props_get. eapply spares_bind; [apply spares_as_dict|]. intros pd Hpd.
  eapply spares_bind; [apply spares_new_dict|]. intros dflt Hdflt.
  destruct name; try apply spares_raise; try (by apply spares_ret).
  apply spares_ret. by apply default_avoids.
Qed.

Lemma spares_required_loop props obj names :
  obj <> a ->
  spares a (fun _ => True) (required_loop rec base_dir depth props obj names).
Proof.
  intros Hobj. induction names as [|name names IH]; simpl; [by apply spares_ret|].
  eapply spares_bind; [apply spares_props_get|]. intros sub Hsub.
  eapply spares_bind; [by apply rec_spares|]. intros v Hv.
  eapply spares_bind with (ok1 := fun _ => True); [|intros _ _; exact IH].
  destruct name; try apply spares_raise. by apply spares_setitem.
Qed.

Lemma spares_sample_object l d :
  dict_avoids a d ->
  spares a (avoids a) (sample_object rec base_dir depth l d).
Proof.
  intros Hd. unfold sample_object.
  eapply spares_bind; [by apply spares_get_or_new|]. intros props Hprops.
  eapply spares_bind; [apply spares_alloc; constructor|]. intros obj Hobj.
  eapply spares_bind;
    [apply spares_py_iter; by apply default_avoids|]. intros names _.
  eapply spares_bind; [by apply spares_required_loop|]. intros _ _.
  eapply spares_bind; [apply spares_read|]. intros o _.
  destruct o; [|by apply spares_ret].
  eapply spares_bind; [apply spares_read|]. intros d' _.
  eapply spares_bind; [apply spares_truthy|]. intros extra _.
  destruct extra; [apply spares_new_dict|by apply spares_ret].
Qed.

Lemma spares_sample_items items n :
  avoids a items ->
  spares a (Forall (avoids a)) (sample_items rec base_dir depth items n).
Proof.
  intros Hitems. induction n as [|n IH]; simpl; [apply spares_ret; constructor|].
  eapply spares_bind; [by apply rec_spares|]. intros v Hv.
  eapply spares_bind; [exact IH|]. intros vs Hvs.
  apply spares_ret. by constructor.
Qed.

Lemma spares_sample_array d :
  dict_avoids a d ->
  spares a (avoids a) (sample_array rec base_dir depth d).
Proof.
  intros Hd. unfold sample_array.
  eapply spares_bind; [by apply spares_get_or_new|]. intros items Hitems.
  eapply spares_bind; [apply spares_py_gt0|]. intros positive _.
  destruct positive; [|by apply spares_ret].
  eapply spares_bind; [apply spares_py_range|]. intros n _.
  eapply spares_bind; [by apply spares_sample_items|]. intros vs Hvs.
  apply spares_ret. by apply avoids_list.
Qed.

Lemma spares_scalar_rules d :
  dict_avoids a d ->
  spares a (avoids a) (sample_string d)
  /\ spares a (avoids a) (sample_integer d)
  /\ spares a (avoids a) (sample_number d)
  /\ spares a (avoids a) (sample_boolean d).
Proof.
  intros Hd.
  unfold sample_string, sample_integer, sample_number, sample_boolean.
  destruct (dict_get d "default") as [v|] eqn:Hdef.
  { pose proof (dict_get_avoids _ _ _ _ Hd Hdef).
    split; [|split; [|split]]; by apply spares_ret. }
  split; [|split; [|split]]; try (by apply spares_ret).
  - destruct (dict_get d "minLength"); [|by apply spares_ret].
    eapply spares_bind; [apply spares_py_int|]. intros z _.
    unfold py_repeat_x. destruct (index_sized z);
      [by apply spares_ret|apply spares_raise].
  - destruct (dict_get d "minimum"); [|by apply spares_ret].
    eapply spares_bind; [apply spares_py_int|]. intros z _. by apply spares_ret.
  - destruct (dict_get d "minimum") as [n|] eqn:Hmin; [|by apply spares_ret].
    apply spares_ret. eapply dict_get_avoids; eauto.
Qed.

Lemma spares_sample_body schema :
  avoids a schema ->
  spares a (avoids a) (sample_body fs rec base_dir depth schema).
Proof.
  intros Hschema. unfold sample_body.
  destruct (40 <? depth); [by apply spares_ret|].
  destruct schema as [| | | | | |l]; try (by apply spares_ret).
  eapply spares_bind; [apply spares_read|]. intros d Hd.
  destruct (dict_has d "$ref"); [apply spares_sample_ref|].
  destruct (dict_get d "const") as [c|] eqn:Hconst.
  { apply spares_ret. eapply dict_get_avoids; eauto. }
  destruct (dict_get d "enum") as [e|] eqn:Henum.
  { apply spares_py_index0. eapply dict_get_avoids; eauto. }
  destruct (dict_get d "oneOf") as [o1|] eqn:HoneOf.
  { apply spares_sample_oneOf. eapply dict_get_avoids; eauto. }
  destruct (dict_get d "anyOf") as [o2|] eqn:HanyOf.
  { apply spares_sample_anyOf. eapply dict_get_avoids; eauto. }
  destruct (dict_get d "allOf") as [o3|] eqn:HallOf.
  { apply spares_sample_allOf. eapply dict_get_avoids; eauto. }
  destruct (spares_scalar_rules d Hd) as (Hstr & Hint & Hnum & Hbool).
  destruct (get_eq_str d "type" "object" || dict_has d "properties");
    [by apply spares_sample_object|].
  destruct (get_eq_str d "type" "array"); [by apply spares_sample_array|].
  destruct (get_eq_str d "type" "string"); [done|].
  destruct (get_eq_str d "type" "integer"); [done|].
  destruct (get_eq_str d "type" "number"); [done|].
  destruct (get_eq_str d "type" "boolean"); [done|].
  destruct (get_eq_str d "type" "null"); [by apply spares_ret|].
  apply spares_new_dict.
Qed.

End SparesBody.

Lemma spares_sample fs a fuel : forall schema base depth,
  avoids a schema ->
  spares a (avoids a) (sample_from_schema fs fuel schema base depth).
Proof.
  induction fuel as [|fuel IH]; intros schema base depth Hschema.
  - intros s v s' _ H. done.
  - simpl. apply spares_sample_body; [|done]. intros sch b Hsch. by apply IH.
Qed.

(** X12.  The sampler leaves alone what it cannot reach: an object that
    no object, no cached document and no cached sample refers to, and that
    the schema argument does not refer to either, has the same members
    after the call, is not (and is not part of) the sample returned, and
    is still referred to by nothing.  In-place changes (the [allOf]
    overlay, the cached samples) only ever hit objects reachable from the
    schema or the caches. *)
Theorem sampling_spares_unreachable fs fuel schema base depth a s v s' :
  unreachable a s ->
  avoids a schema ->
  sample_from_schema fs fuel schema base depth s = Ret v s' ->
  heap_get (heap s') a = heap_get (heap s) a
  /\ avoids a v
  /\ unreachable a s'.
Proof.
  intros Hs Hschema H.
  destruct (spares_sample fs a fuel schema base depth Hschema s v s' Hs H)
    as (Hv & Hs' & Heq).
  done.
Qed.

Lemma sampling_spares_witness :
  exists o s',
    sample_from_schema ∅ 3 (VDict 7%nat) [] 0 bystander_store = Ret (VDict o) s'
    /\ heap_get (heap s') o = [("t", VStr "a"); ("u", VStr "b")]
    /\ heap_get (heap s') 0%nat = [("id", VInt 7)]
    /\ o <> 0%nat
    /\ unreachable 0%nat s'.
Proof.
  pose (r := sample_from_schema ∅ 3 (VDict 7%nat) [] 0 bystander_store).
  assert (Hrun : sample_from_schema ∅ 3 (VDict 7%nat) [] 0 bystander_store
                 = Ret (VDict 9%nat) (outcome_state r))
    by (vm_compute; reflexivity).
  assert (Hstart : unreachable 0%nat bystander_store).
  { split; [simpl; lia|]. split.
    - repeat constructor; simpl; lia.
    - split; intros p w Hp; simpl in Hp;
        rewrite (lookup_empty (M:=gmap path)) in Hp; discriminate. }
  assert (Hschema : avoids 0%nat (VDict 7%nat)) by (simpl; lia).
  destruct (sampling_spares_unreachable ∅ 3 (VDict 7%nat) [] 0 0%nat
              bystander_store (VDict 9%nat) (outcome_state r)
              Hstart Hschema Hrun) as (Hsame & Hv & Hend).
  exists 9%nat, (outcome_state r).
  split; [exact Hrun|]. split; [vm_compute; reflexivity|].
  split; [rewrite Hsame; reflexivity|]. split; [exact Hv|exact Hend].
Defined.

(** ** The object rule *)

Lemma dict_has_set (d : dict) k0 v k :
  dict_has (dict_set d k0 v) k = true <-> k0 = k \/ dict_has d k = true.
Proof.
  unfold dict_has. rewrite dict_get_set.
  destruct (String.eqb k0 k) eqn:E.
  - apply String.eqb_eq in E. tauto.
  - apply String.eqb_neq in E. destruct (dict_get d k); intuition congruence.
Qed.

(** An assignment to a member of the unreachable object itself. *)
Lemma setitem_own a k v s u s' :
  unreachable a s ->
  avoids a v ->
  setitem a k v s = Ret u s' ->
  unreachable a s'
  /\ heap_get (heap s') a = dict_set (heap_get (heap s) a) k v.
Proof.
  intros (Ha & Hh & Hc1 & Hc2) Hv H. unfold setitem in H.
  apply bind_ret_inv in H as (d & s1 & Hd & H).
  unfold read in Hd. inversion Hd; subst. clear Hd.
  unfold write in H. inversion H; subst. clear H.
  unfold unreachable. cbn [heap SCHEMA_CACHE SAMPLE_CACHE].
  split; [|by apply heap_get_insert_eq].
  split; [by rewrite length_insert|]. split; [|done].
  apply Forall_insert; [done|].
  apply dict_set_avoids; [|done]. by apply heap_get_avoids.
Qed.

Lemma required_loop_keys fs fuel base depth props obj ks : forall s u s',
  unreachable obj s ->
  required_loop (sample_from_schema fs fuel) base depth props obj
    (map VStr ks) s = Ret u s' ->
  unreachable obj s'
  /\ forall k, dict_has (heap_get (heap s') obj) k = true <->
               (dict_has (heap_get (heap s) obj) k = true \/ In k ks).
Proof.
  induction ks as [|k0 ks IH]; intros s u s' Hs H; simpl in H.
  - apply ret_inv in H as [_ <-]. split; [done|]. intros k. simpl. tauto.
  - apply bind_ret_inv in H as (sub & s1 & Hsub & H).
    apply bind_ret_inv in H as (v & s2 & Hv & H).
    apply bind_ret_inv in H as ([] & s3 & Hset & H).
    destruct (spares_props_get obj props (VStr k0) _ _ _ Hs Hsub)
      as (Hsub_ok & Hs1 & Heq1).
    destruct (spares_sample fs obj fuel sub base (depth + 1) Hsub_ok _ _ _ Hs1 Hv)
      as (Hv_ok & Hs2 & Heq2).
    destruct (setitem_own _ _ _ _ _ _ Hs2 Hv_ok Hset) as (Hs3 & Heq3).
    destruct (IH _ _ _ Hs3 H) as (Hs' & Hkeys).
    split; [done|]. intros k. rewrite Hkeys, Heq3, dict_has_set, Heq2, Heq1.
    simpl. tauto.
Qed.

Lemma truthy_state v s b s' : truthy v s = Ret b s' -> s' = s.
Proof.
  destruct v as [| | |[]| | |l]; simpl; intros H;
    by apply ret_inv in H as [_ <-].
Qed.

(** X13.  For a plain node under the object rule (declared type "object",
    or a [properties] member) whose [required] member is absent or a list
    of strings, in a store without dangling references: a sample that is
    returned is an object created by this call, and its members are
    exactly the required names.  A property that is declared but not
    required is never sampled into it. *)
Theorem object_rule fs fuel l (d : dict) names base depth s v s' :
  closed s ->
  depth <= 40 ->
  heap_get (heap s) l = d ->
  plain_node d ->
  get_eq_str d "type" "object" || dict_has d "properties" = true ->
  default (VList []) (dict_get d "required") = VList (map VStr names) ->
  sample_from_schema fs (S fuel) (VDict l) base depth s = Ret v s' ->
  exists o,
    v = VDict o
    /\ (length (heap s) <= o)%nat
    /\ forall k, dict_has (heap_get (heap s') o) k = true <-> In k names.
Proof.
  intros Hclosed Hdepth Hd Hplain Hrule Hreq H.
  rewrite (sample_plain_node _ _ _ _ _ _ _ Hdepth Hd Hplain), Hrule in H.
  unfold sample_object in H.
  apply bind_ret_inv in H as (props & s1 & Hprops & H).
  apply bind_ret_inv in H as (obj & s2 & Hobj & H).
  rewrite Hreq in H. simpl py_iter in H.
  apply bind_ret_inv in H as (names' & s2' & Hnames & H).
  apply ret_inv in Hnames as [<- <-].
  apply bind_ret_inv in H as ([] & s3 & Hloop & H).
  apply bind_ret_inv in H as (o & s3' & Ho & H).
  unfold read in Ho. inversion Ho; subst o s3'. clear Ho.
  unfold get_or_new, new_dict in Hprops.
  apply bind_ret_inv in Hprops as (dflt & s0 & Hdflt & Hprops).
  apply bind_ret_inv in Hdflt as (l0 & s0' & Hl0 & Hdflt).
  apply ret_inv in Hdflt as [<- <-]. apply ret_inv in Hprops as [_ <-].
  unfold alloc in Hl0. inversion Hl0; subst l0 s0'. clear Hl0.
  unfold alloc in Hobj. cbn [heap SCHEMA_CACHE SAMPLE_CACHE] in Hobj.
  assert (Hnew : obj = length (heap s ++ [[]])) by (by inversion Hobj).
  assert (s2 = State ((heap s ++ [[]]) ++ [[]]) (SCHEMA_CACHE s) (SAMPLE_CACHE s))
    as -> by (by inversion Hobj).
  clear Hobj.
  assert (Hobj : obj = S (length (heap s)))
    by (rewrite Hnew, length_app; simpl; lia).
  assert (Hstart : unreachable obj
            (State ((heap s ++ [[]]) ++ [[]]) (SCHEMA_CACHE s) (SAMPLE_CACHE s))).
  { destruct (Hclosed obj ltac:(lia)) as (Hh & Hc1 & Hc2).
    unfold unreachable. cbn [heap SCHEMA_CACHE SAMPLE_CACHE].
    split; [rewrite !length_app; simpl; lia|]. split; [|done].
    repeat (apply Forall_app; split); try done; by repeat constructor. }
  destruct (required_loop_keys _ _ _ _ _ _ _ _ _ _ Hstart Hloop) as (Hend & Hkeys).
  cbn [heap] in Hkeys.
  assert (Hempty : heap_get ((heap s ++ [[]]) ++ [[]]) obj = [])
    by (rewrite Hnew; apply heap_get_app_new).
  assert (Hkeys' : forall k, dict_has (heap_get (heap s3) obj) k = true <-> In k names).
  { intros k. rewrite Hkeys, Hempty. unfold dict_has. simpl. intuition congruence. }
  clear Hkeys.
  destruct (heap_get (heap s3) obj) as [|kv o] eqn:Eo.
  - apply bind_ret_inv in H as (d' & s4 & Hd' & H).
    unfold read in Hd'. inversion Hd'; subst d' s4. clear Hd'.
    apply bind_ret_inv in H as (extra & s5 & Hextra & H).
    apply truthy_state in Hextra. subst s5.
    destruct extra.
    + unfold new_dict in H. apply bind_ret_inv in H as (l1 & s6 & Hl1 & H).
      apply ret_inv in H as [<- <-]. unfold alloc in Hl1.
      inversion Hl1; subst l1 s6. clear Hl1.
      exists (length (heap s3)). split; [done|].
      destruct Hend as (Hlt & _). split; [lia|].
      intros k. cbn [heap]. rewrite heap_get_app_new. apply Hkeys'.
    + apply ret_inv in H as [<- <-]. exists obj. split; [done|].
      split; [lia|]. intros k. rewrite Eo. apply Hkeys'.
  - apply ret_inv in H as [<- <-]. exists obj. split; [done|].
    split; [lia|]. intros k. rewrite Eo. apply Hkeys'.
Qed.

Lemma object_rule_witness :
  exists o s',
    sample_from_schema ∅ 2 (VDict 0%nat) [] 0 object_store = Ret (VDict o) s'
    /\ (3 <= o)%nat
    /\ forall k, dict_has (heap_get (heap s') o) k = true <-> In k ["a"; "b"; "a"].
Proof.
  pose (r := sample_from_schema ∅ 2 (VDict 0%nat) [] 0 object_store).
  assert (Hrun : sample_from_schema ∅ 2 (VDict 0%nat) [] 0 object_store
                 = Ret (outcome_value VNone r) (outcome_state r))
    by (vm_compute; reflexivity).
  assert (Hclosed : closed object_store).
  { intros a Ha. simpl in Ha. split.
    - repeat constructor; simpl; try tauto; lia.
    - split; intros p w Hp; simpl in Hp;
        rewrite (lookup_empty (M:=gmap path)) in Hp; discriminate. }
  destruct (object_rule ∅ 1 0%nat _ ["a"; "b"; "a"] [] 0 object_store _ _
              Hclosed ltac:(lia) eq_refl ltac:(repeat split) eq_refl eq_refl Hrun)
    as (o & Hv & Hfresh & Hkeys).
  exists o, (outcome_state r).
  split; [rewrite Hrun; by rewrite Hv|]. split; [exact Hfresh|exact Hkeys].
Defined.

(** ** The order of insertion does not show in the files *)

Lemma string_compare_trans : forall a b c : string,
  String.compare a b <> Gt -> String.compare b c <> Gt -> String.compare a c <> Gt.
Proof.
  induction a as [|x a IH]; intros [|y b] [|z c]; simpl; try congruence.
  unfold Ascii.compare.
  destruct (N.compare_spec (N_of_ascii x) (N_of_ascii y));
    destruct (N.compare_spec (N_of_ascii y) (N_of_ascii z));
    destruct (N.compare_spec (N_of_ascii x) (N_of_ascii z));
    try lia; try congruence; eauto.
Qed.

Lemma string_leb_trans (a b c : string) :
  String.leb a b = true -> String.leb b c = true -> String.leb a c = true.
Proof.
  unfold String.leb. intros Hab Hbc.
  pose proof (string_compare_trans a b c) as H.
  destruct (String.compare a b); destruct (String.compare b c);
    destruct (String.compare a c); try done; exfalso; apply H; congruence.
Qed.

Lemma insert_item_comm (a b : string * value) : forall l : dict,
  fst a <> fst b ->
  insert_item a (insert_item b l) = insert_item b (insert_item a l).
Proof.
  intros l Hne. induction l as [|c l IH]; simpl.
  - destruct (String.leb (fst a) (fst b)) eqn:Eab;
      destruct (String.leb (fst b) (fst a)) eqn:Eba; try done.
    + exfalso. apply Hne. by apply String.leb_antisym.
    + destruct (String.leb_total (fst a) (fst b)); congruence.
  - destruct (String.leb (fst b) (fst c)) eqn:Ebc;
      destruct (String.leb (fst a) (fst c)) eqn:Eac; simpl;
      rewrite ?Ebc, ?Eac.
    + destruct (String.leb (fst a) (fst b)) eqn:Eab;
        destruct (String.leb (fst b) (fst a)) eqn:Eba; simpl;
        rewrite ?Ebc, ?Eac; try done.
      * exfalso. apply Hne. by apply String.leb_antisym.
      * destruct (String.leb_total (fst a) (fst b)); congruence.
    + destruct (String.leb (fst a) (fst b)) eqn:Eab.
      * pose proof (string_leb_trans _ _ _ Eab Ebc). congruence.
      * simpl. rewrite ?Eac, ?Ebc. done.
    + destruct (String.leb (fst b) (fst a)) eqn:Eba.
      * pose proof (string_leb_trans _ _ _ Eba Eac). congruence.
      * simpl. rewrite ?Eac, ?Ebc. done.
    + by rewrite IH.
Qed.

(** [sorted(d.items())] is the same for every order of insertion. *)
Lemma sort_items_perm (d d' : dict) :
  Permutation d d' -> List.NoDup (dict_keys d) -> sort_items d = sort_items d'.
Proof.
  unfold sort_items, dict_keys.
  induction 1 as [|kv d d' Hp IH|kv1 kv2 d|d1 d2 d3 H12 IH12 H23 IH23];
    intros Hnd; simpl.
  - done.
  - inversion Hnd; subst. by rewrite IH.
  - inversion Hnd as [|? ? Hnotin Hnd']; subst. apply insert_item_comm.
    intros Heq. apply Hnotin. left. done.
  - rewrite IH12 by done. apply IH23.
    eapply Permutation_NoDup; [|exact Hnd]. by apply Permutation_map.
Qed.

Lemma dict_get_perm (d d' : dict) k :
  Permutation d d' -> List.NoDup (dict_keys d) -> dict_get d k = dict_get d' k.
Proof.
  unfold dict_keys.
  induction 1 as [|[k0 v0] d d' Hp IH|[k1 v1] [k2 v2] d|d1 d2 d3 H12 IH12 H23 IH23];
    intros Hnd; simpl.
  - done.
  - inversion Hnd; subst. by rewrite IH.
  - inversion Hnd as [|? ? Hnotin Hnd']; subst. simpl in Hnotin.
    destruct (String.eqb k2 k) eqn:E2; destruct (String.eqb k1 k) eqn:E1; try done.
    apply String.eqb_eq in E1, E2. subst. tauto.
  - rewrite IH12 by done. apply IH23.
    eapply Permutation_NoDup; [|exact Hnd]. by apply Permutation_map.
Qed.

Lemma mapM_transfer {A B} (f g : A -> M B) (s s' : state) l : forall ys s1,
  (forall x s0 y s2, f x s0 = Ret y s2 -> s2 = s0) ->
  (forall x y, In x l -> f x s = Ret y s -> g x s' = Ret y s') ->
  mapM f l s = Ret ys s1 ->
  mapM g l s' = Ret ys s'.
Proof.
  induction l as [|x l IH]; intros ys s1 Hf Hfg H; simpl in *.
  - by apply ret_inv in H as [<- _].
  - apply bind_ret_inv in H as (y & s2 & Hy & H).
    apply bind_ret_inv in H as (ys' & s3 & Hys & H).
    apply ret_inv in H as [<- _].
    pose proof (Hf _ _ _ _ Hy) as ->.
    unfold bind. rewrite (Hfg x y (or_introl eq_refl) Hy).
    rewrite (IH ys' s3 Hf (fun x0 y0 Hin => Hfg x0 y0 (or_intror Hin)) Hys).
    done.
Qed.

Lemma dumps_same_members float_repr s s' fuel :
  same_members s s' ->
  forall seen v line s1,
    dumps float_repr fuel seen v s = Ret line s1 ->
    dumps float_repr fuel seen v s' = Ret line s'.
Proof.
  intros Hsame.
  induction fuel as [|fuel IH]; intros seen v line s1 Hrun; [done|].
  simpl in Hrun. simpl. destruct v as [|[]|z|f|t|l|l];
    try (apply ret_inv in Hrun as [<- _]; done).
  - apply bind_ret_inv in Hrun as (parts & s2 & Hparts & Hrun).
    apply ret_inv in Hrun as [<- _].
    unfold bind.
    rewrite (mapM_transfer (dumps float_repr fuel seen)
               (dumps float_repr fuel seen) s s' l parts s2); [done| |  |done].
    + intros x s0 y s3 H. eapply dumps_reads; eauto.
    + intros x y _ H. eapply IH; eauto.
  - destruct (existsb (Nat.eqb l) seen); [done|].
    apply bind_ret_inv in Hrun as (d & s2 & Hd & Hrun).
    unfold read in Hd. inversion Hd; subst d s2. clear Hd.
    apply bind_ret_inv in Hrun as (parts & s2 & Hparts & Hrun).
    apply ret_inv in Hrun as [<- _].
    destruct (Hsame l) as [Hperm Hnd].
    unfold bind at 1, read at 1.
    rewrite <- (sort_items_perm _ _ Hperm Hnd).
    unfold bind at 1.
    erewrite (mapM_transfer _ _ s s' _ parts s2); [done| | |exact Hparts].
    + intros kv s0 y s3 H. apply bind_ret_inv in H as (part & s4 & Hpart & H).
      apply ret_inv in H as [_ <-]. eapply dumps_reads; eauto.
    + intros kv y _ H. apply bind_ret_inv in H as (part & s4 & Hpart & H).
      apply ret_inv in H as [<- _].
      unfold bind. by rewrite (IH _ _ _ _ Hpart).
Qed.

Lemma truth_same_members s s' v :
  same_members s s' -> truth (heap s') v = truth (heap s) v.
Proof.
  intros Hsame. destruct v as [| | | | | |l]; try done. simpl.
  destruct (Hsame l) as [Hperm _].
  destruct (heap_get (heap s) l) as [|kv d] eqn:E.
  - apply Permutation_nil in Hperm. by rewrite Hperm.
  - destruct (heap_get (heap s') l) as [|kv' d'] eqn:E'; [|done].
    symmetry in Hperm. by apply Permutation_nil in Hperm.
Qed.

(** The [event:] line is always written or left out, never refused. *)
Lemma event_line_writes py_format e s :
  event_line py_format e s
  = Ret match type_text py_format (heap s) e with
        | Some t => ("event: " ++ t ++ nl)%string
        | None => EmptyString
        end s.
Proof.
  unfold event_line, type_text.
  destruct (dict_get e "type") as [v|]; [|done].
  destruct v as [|b|z|f|t|l|l];
    try (unfold bind at 1; rewrite truthy_truth;
         by destruct (truth (heap s) _)).
  by destruct (String.eqb t EmptyString).
Qed.

(** With a type that is a string, absent or false, the type text does not
    look at the order of the members. *)
Lemma type_text_same_members py_format s s' l :
  same_members s s' ->
  string_typed (heap s) (heap_get (heap s) l) = true ->
  type_text py_format (heap s') (heap_get (heap s') l)
  = type_text py_format (heap s) (heap_get (heap s) l).
Proof.
  intros Hsame. destruct (Hsame l) as [Hperm Hnd].
  unfold type_text, string_typed.
  rewrite <- (dict_get_perm _ _ "type" Hperm Hnd).
  destruct (dict_get (heap_get (heap s) l) "type") as [v|]; [|done].
  destruct v as [|b|z|f|t|vs|l0]; try done;
    rewrite (truth_same_members s s' _ Hsame);
    intros H; apply negb_true_iff in H; by rewrite H.
Qed.

Lemma write_event_run float_repr py_format fuel out event s line :
  dumps float_repr fuel [] (VDict event) s = Ret line s ->
  write_event float_repr py_format fuel out event s
  = Ret ((fst out ++ line ++ nl)%string,
         (snd out
          ++ match type_text py_format (heap s) (heap_get (heap s) event) with
             | Some t => "event: " ++ t ++ nl
             | None => EmptyString
             end ++ "data: " ++ line ++ nl ++ nl)%string) s.
Proof.
  intros Hline. unfold write_event. unfold bind at 1. rewrite Hline.
  unfold bind at 1, read at 1. unfold bind at 1.
  by rewrite event_line_writes.
Qed.

Lemma write_events_same_members float_repr py_format fuel s s' events :
  same_members s s' ->
  forall out out2 out' s1,
    fst out2 = fst out ->
    write_events float_repr py_format fuel events out s = Ret out' s1 ->
    exists out2',
      write_events float_repr py_format fuel events out2 s' = Ret out2' s'
      /\ fst out2' = fst out'
      /\ (snd out2 = snd out ->
          (forall event, In event events ->
             string_typed (heap s) (heap_get (heap s) event) = true) ->
          snd out2' = snd out').
Proof.
  intros Hsame. induction events as [|event rest IH];
    intros out out2 out' s1 Hfst H; simpl in *.
  - apply ret_inv in H as [<- _]. exists out2. done.
  - destruct out as [j1 e1], out2 as [j2 e2]. cbn [fst snd] in *. subst j2.
    apply bind_ret_inv in H as (out1 & s2 & Hone & H).
    unfold write_event in Hone.
    apply bind_ret_inv in Hone as (line & s3 & Hline & Hone).
    pose proof (dumps_reads _ _ _ _ _ _ _ Hline) as ->.
    apply bind_ret_inv in Hone as (e & s4 & He & Hone).
    unfold read in He. inversion He; subst e s4. clear He.
    apply bind_ret_inv in Hone as (h & s5 & Hh & Hone).
    rewrite event_line_writes in Hh. inversion Hh; subst h s5. clear Hh.
    unfold ret in Hone. inversion Hone; subst out1 s2. clear Hone.
    unfold bind at 1.
    rewrite (write_event_run _ _ _ _ _ _ _
               (dumps_same_members _ _ _ _ Hsame _ _ _ _ Hline)).
    match goal with
    | |- exists o, write_events _ _ _ _ ?o2 _ = _ /\ _ =>
        match type of H with
        | write_events _ _ _ _ ?o1 _ = _ =>
            destruct (IH o1 o2 _ _ eq_refl H) as (out2' & Hrun & Hfst' & Hsnd')
        end
    end.
    exists out2'. split; [exact Hrun|]. split; [exact Hfst'|].
    intros Hsnd Htyped. apply Hsnd'.
    + cbn [snd]. rewrite Hsnd.
      rewrite (type_text_same_members _ _ _ _ Hsame
                 (Htyped event (or_introl eq_refl))).
      done.
    + intros event' Hin. apply Htyped. by right.
Qed.

(** X14.  The line-delimited file does not depend on the order in which
    the members of an object were inserted ([sort_keys=True]): when two
    stores hold the same objects up to that order, and the writer
    produces the two files from one, it produces the same line-delimited
    file from the other.  The text-streaming file is the same too when
    the type of every event is a string, absent or a false value; a type
    that is another true value is written on the [event:] line as an
    f-string formats it, which for a mapping follows the order of
    insertion. *)
Theorem fixtures_ignore_insertion_order float_repr py_format fuel events
    s s' jsonl sse s1 :
  same_members s s' ->
  write_fixtures float_repr py_format fuel events s = Ret (jsonl, sse) s1 ->
  exists sse',
    write_fixtures float_repr py_format fuel events s' = Ret (jsonl, sse') s'
    /\ ((forall event, In event events ->
           string_typed (heap s) (heap_get (heap s) event) = true) ->
        sse' = sse).
Proof.
  intros Hsame H. unfold write_fixtures in *.
  apply bind_ret_inv in H as (out1 & s2 & Hw & H).
  apply ret_inv in H as [H _]. inversion H; subst jsonl sse. clear H.
  destruct (write_events_same_members _ _ _ _ _ _ Hsame _
              (EmptyString, EmptyString) _ _ eq_refl Hw)
    as (out2' & Hrun & Hfst & Hsnd).
  exists (snd out2' ++ "data: [DONE]" ++ nl ++ nl)%string.
  split.
  - unfold bind. rewrite Hrun. unfold ret. by rewrite Hfst.
  - intros Htyped. by rewrite (Hsnd eq_refl Htyped).
Qed.

Lemma fixtures_ignore_insertion_order_witness :
  exists jsonl sse,
    write_fixtures (fun _ => "0.0") show_int 10 [0%nat] forward_store
      = Ret (jsonl, sse) forward_store
    /\ write_fixtures (fun _ => "0.0") show_int 10 [0%nat] backward_store
      = Ret (jsonl, sse) backward_store
    /\ heap forward_store <> heap backward_store.
Proof.
  pose (r := write_fixtures (fun _ => "0.0") show_int 10 [0%nat] forward_store).
  assert (Hrun : write_fixtures (fun _ => "0.0") show_int 10 [0%nat] forward_store
                 = Ret (fst (outcome_value (EmptyString, EmptyString) r),
                        snd (outcome_value (EmptyString, EmptyString) r))
                       forward_store)
    by (vm_compute; reflexivity).
  assert (Hsame : same_members forward_store backward_store).
  { intros [|[|l]].
    - split.
      + change (Permutation
                  [("type", VStr "a"); ("sequence_number", VInt 1); ("item", VDict 1%nat)]
                  (rev [("type", VStr "a"); ("sequence_number", VInt 1);
                        ("item", VDict 1%nat)])).
        apply Permutation_rev.
      + repeat constructor; simpl; intuition discriminate.
    - split.
      + apply perm_swap.
      + repeat constructor; simpl; intuition discriminate.
    - split; [apply perm_nil|constructor]. }
  destruct (fixtures_ignore_insertion_order (fun _ => "0.0") show_int 10
              [0%nat] forward_store backward_store _ _ _ Hsame Hrun)
    as (sse' & Hrun' & Hsse).
  eexists _, _. split; [exact Hrun|]. split; [|discriminate].
  rewrite Hrun'. rewrite Hsse; [reflexivity|].
  intros event [<-|[]]. reflexivity.
Defined.

(** ** The line-delimited file is plain ASCII *)

Lemma ascii_only_app a b : ascii_only (a ++ b) = ascii_only a && ascii_only b.
Proof.
  induction a as [|c a IH]; simpl; [done|].
  rewrite IH. by destruct (printable c).
Qed.

Lemma ascii_lines_app a b : ascii_lines (a ++ b) = ascii_lines a && ascii_lines b.
Proof.
  induction a as [|c a IH]; simpl; [done|].
  rewrite IH. by destruct (printable c || Ascii.eqb c newline).
Qed.

Lemma ascii_only_lines a : ascii_only a = true -> ascii_lines a = true.
Proof.
  induction a as [|c a IH]; simpl; [done|].
  destruct (printable c); simpl; [exact IH|done].
Qed.

Lemma ascii_only_concat sep parts :
  ascii_only sep = true ->
  Forall (fun p => ascii_only p = true) parts ->
  ascii_only (String.concat sep parts) = true.
Proof.
  intros Hsep. induction 1 as [|p parts Hp Hparts IH]; simpl; [done|].
  destruct parts as [|q parts]; [done|].
  rewrite !ascii_only_app, Hp, Hsep. simpl. exact IH.
Qed.

Lemma escape_char_ascii c : ascii_only (escape_char c) = true.
Proof. destruct c as [[] [] [] [] [] [] [] []]; reflexivity. Qed.

Lemma escape_ascii s : ascii_only (escape s) = true.
Proof.
  induction s as [|c s IH]; simpl; [done|].
  by rewrite ascii_only_app, escape_char_ascii, IH.
Qed.

Lemma quoted_ascii s : ascii_only (quoted s) = true.
Proof.
  unfold quoted. simpl. by rewrite ascii_only_app, escape_ascii.
Qed.

Lemma string_of_uint_ascii d : ascii_only (NilEmpty.string_of_uint d) = true.
Proof. induction d; simpl; done. Qed.

Lemma str_int_ascii z : ascii_only (str_int z) = true.
Proof.
  unfold str_int, NilZero.string_of_int, NilZero.string_of_uint.
  destruct (Z.to_int z) as [d|d]; destruct d; simpl;
    try done; apply string_of_uint_ascii.
Qed.

Section AsciiOutput.

Variable float_repr : spec_float -> string.
Hypothesis float_repr_ascii : forall f, ascii_only (float_repr f) = true.

Lemma dumps_ascii fuel : forall seen v s line s',
  dumps float_repr fuel seen v s = Ret line s' ->
  ascii_only line = true.
Proof.
  induction fuel as [|fuel IH]; intros seen v s line s' Hrun; [done|].
  simpl in Hrun. destruct v as [|[]|z|f|t|l|l];
    try (apply ret_inv in Hrun as [<- _];
         first [done|apply str_int_ascii|apply float_repr_ascii|apply quoted_ascii]).
  - apply bind_ret_inv in Hrun as (parts & s1 & Hparts & Hrun).
    apply ret_inv in Hrun as [<- _].
    assert (Forall (fun p => ascii_only p = true) parts) as Hall.
    { eapply (mapM_reads _ (fun p => ascii_only p = true)); [|exact Hparts].
      intros x s0 y s2 _ H. split; [eapply IH; eauto|].
      eapply dumps_reads; eauto. }
    rewrite !ascii_only_app, (ascii_only_concat "," parts eq_refl Hall). done.
  - destruct (existsb (Nat.eqb l) seen); [done|].
    apply bind_ret_inv in Hrun as (d & s1 & Hd & Hrun).
    unfold read in Hd. inversion Hd; subst d s1. clear Hd.
    apply bind_ret_inv in Hrun as (parts & s2 & Hparts & Hrun).
    apply ret_inv in Hrun as [<- _].
    assert (Forall (fun p => ascii_only p = true) parts) as Hall.
    { eapply (mapM_reads _ (fun p => ascii_only p = true)); [|exact Hparts].
      intros kv s0 y s3 _ H.
      apply bind_ret_inv in H as (part & s4 & Hpart & H).
      apply ret_inv in H as [<- <-]. split; [|eapply dumps_reads; eauto].
      rewrite !ascii_only_app, quoted_ascii.
      rewrite (IH _ _ _ _ _ Hpart). done. }
    rewrite !ascii_only_app, (ascii_only_concat "," parts eq_refl Hall). done.
Qed.

Lemma write_events_ascii py_format fuel events : forall out s out' s',
  write_events float_repr py_format fuel events out s = Ret out' s' ->
  ascii_lines (fst out) = true ->
  ascii_lines (fst out') = true.
Proof.
  induction events as [|event rest IH]; intros out s out' s' H Hout; simpl in H.
  - by apply ret_inv in H as [<- _].
  - apply bind_ret_inv in H as (out1 & s1 & Hone & H).
    eapply IH; [exact H|].
    unfold write_event in Hone.
    apply bind_ret_inv in Hone as (line & s2 & Hline & Hone).
    apply bind_ret_inv in Hone as (e & s3 & _ & Hone).
    apply bind_ret_inv in Hone as (h & s4 & _ & Hone).
    apply ret_inv in Hone as [<- _]. cbn [fst].
    rewrite !ascii_lines_app, Hout.
    rewrite (ascii_only_lines _ (dumps_ascii _ _ _ _ _ _ Hline)). done.
Qed.

End AsciiOutput.

(** X15.  The line-delimited file holds printable ASCII characters and
    line feeds only, whatever the strings of the events hold (the encoder
    escapes every other character), provided the text the encoder gives
    for a float does. *)
Theorem jsonl_is_ascii float_repr py_format fuel events s jsonl sse s' :
  (forall f, ascii_only (float_repr f) = true) ->
  write_fixtures float_repr py_format fuel events s = Ret (jsonl, sse) s' ->
  ascii_lines jsonl = true.
Proof.
  intros Hfloat H. unfold write_fixtures in H.
  apply bind_ret_inv in H as (out & s1 & Hw & H).
  apply ret_inv in H as [H _]. inversion H; subst.
  eapply write_events_ascii; eauto.
Qed.

Lemma jsonl_is_ascii_witness :
  exists jsonl sse,
    write_fixtures (fun _ => "0.0") show_int 10 [0%nat] accent_store
      = Ret (jsonl, sse) accent_store
    /\ ascii_lines jsonl = true
    /\ ascii_lines sse = false.
Proof.
  pose (r := write_fixtures (fun _ => "0.0") show_int 10 [0%nat] accent_store).
  assert (Hrun : write_fixtures (fun _ => "0.0") show_int 10 [0%nat] accent_store
                 = Ret (fst (outcome_value (EmptyString, EmptyString) r),
                        snd (outcome_value (EmptyString, EmptyString) r))
                       accent_store)
    by (vm_compute; reflexivity).
  eexists _, _. split; [exact Hrun|]. split; [|vm_compute; reflexivity].
  exact (jsonl_is_ascii (fun _ => "0.0") show_int 10 [0%nat] accent_store _ _ _
           (fun _ => eq_refl) Hrun).
Defined.
